(** * BitReader_3_0: a shallow embedding of [BitcodeReader.cpp]

    The reader of generation-3.0 bitcode (src/bcinfo/BitReader_3_0/
    BitcodeReader.cpp) is embedded as Rocq functions over an explicit reader
    state.  The bitstream cursor and the IR library are collaborators of the
    reader: the cursor is modelled by the sequence of entries it yields, the
    IR objects by the data handed to their constructors. *)

From Stdlib Require Import ZArith Lia Bool.
From stdpp Require Import base list strings gmap.

Set Warnings "-register-all".
Local Open Scope Z_scope.

(** ** Machine integers *)

(** [uint64_t] and [unsigned]: values are kept in [Z] and reduced after every
    operation that can leave the range. *)
Definition uint64 (x : Z) : Z := x mod 2 ^ 64.
Definition uint32 (x : Z) : Z := x mod 2 ^ 32.

(** [int] (two's complement, 32 bits): the value a 32-bit pattern denotes. *)
Definition int32 (x : Z) : Z := (x + 2 ^ 31) mod 2 ^ 32 - 2 ^ 31.

(** The signed reading of a 64-bit word ([(int64_t)V]). *)
Definition int64 (x : Z) : Z := (x + 2 ^ 63) mod 2 ^ 64 - 2 ^ 63.

Definition INT64_MIN : Z := - 2 ^ 63.

(** ** Error codes ([BitcodeReader::ErrorType]) *)

Inductive BitcodeError : Set :=
| ConflictingMETADATA_KINDRecords
| CouldNotFindFunctionInStream
| ExpectedConstant
| InsufficientFunctionProtos
| InvalidBitcodeSignature
| InvalidBitcodeWrapperHeader
| InvalidConstantReference
| InvalidID
| InvalidInstructionWithNoBB
| InvalidRecord
| InvalidTypeForValue
| InvalidTYPETable
| InvalidType
| MalformedBlock
| MalformedGlobalInitializerSet
| InvalidMultipleBlocks
| NeverResolvedValueFoundInFunction
| InvalidValue.

(** The outcome of a reader operation: a value, an error code, or [Undef]
    when the C++ code leaves defined behaviour (a null or out-of-range
    access, a failed [cast<>], a shift by the width of the type). *)
Inductive res (A : Type) : Type :=
| Ok (a : A)
| Err (e : BitcodeError)
| Undef.
Arguments Ok {A} a.
Arguments Err {A} e.
Arguments Undef {A}.

(** ** [decodeSignRotatedValue] (BitcodeReader.cpp:1467) *)

Definition decodeSignRotatedValue (V : Z) : Z :=
  if Z.land V 1 =? 0 then Z.shiftr V 1
  else if negb (V =? 1) then uint64 (- Z.shiftr V 1)
  else uint64 (Z.shiftl 1 63).

(** Modelled from the spec: the writer of sign-rotated values is not part of
    src.  The glossary describes the encoding as carrying the sign in the low
    bit; the magnitude sits above it, and INT64_MIN, whose magnitude does not
    fit, is the word 1 ("-0"). *)
Definition encodeSignRotatedValue (x : Z) : Z :=
  if 0 <=? x then uint64 (Z.shiftl x 1)
  else Z.lor (uint64 (Z.shiftl (uint64 (- x)) 1)) 1.

(** ** Alignment fields *)

(** [1 << n] on [int]: undefined when the count reaches the width. *)
Definition shl_int (x n : Z) : res Z :=
  if (0 <=? n) && (n <? 32) then Ok (int32 (Z.shiftl x n)) else Undef.

(** [(1 << Field) >> 1], converted to the [unsigned] the IR constructors
    take (ALLOCA, LOAD, STORE, their atomic forms, GLOBALVAR, FUNCTION). *)
Definition decodeAlignment (Field : Z) : res Z :=
  match shl_int 1 Field with
  | Ok v => Ok (uint32 (Z.shiftr v 1))
  | Err e => Err e
  | Undef => Undef
  end.

(** ** Legacy attribute words (BitcodeReader.cpp:727) *)

(** [AttrBuilder] belongs to the IR library; the builder is the list of calls
    made on it, oldest first. *)
Inductive AttrBuilderCall : Set :=
| addAlignmentAttr (Align : Z)
| addRawValue (Val : Z).

Definition AttrBuilder := list AttrBuilderCall.

Definition decodeLLVMAttributesForBitcode (B : AttrBuilder) (EncodedAttrs : Z)
  : AttrBuilder :=
  let Alignment :=
    uint32 (Z.shiftr (Z.land EncodedAttrs (Z.shiftl 65535 16)) 16) in
  let B := if Alignment =? 0 then B else B ++ [addAlignmentAttr Alignment] in
  B ++ [addRawValue
          (Z.lor (Z.shiftr (Z.land EncodedAttrs (Z.shiftl 1048575 32)) 11)
                 (Z.land EncodedAttrs 65535))].

(** The alignment denoted by a field that holds log2(alignment)+1, the coding
    of the alignment fields of instruction records. *)
Definition log2_coded_alignment (field : Z) : Z :=
  if field =? 0 then 0 else 2 ^ (field - 1).

(** ** The IR objects the reader builds *)

(** Types.  Identified structs ([StructType::create]) are mutable objects:
    they are referred to by their index in the context's struct store, where
    their name and body live. *)
Inductive Ty : Type :=
| VoidTy | HalfTy | FloatTy | DoubleTy | X86_FP80Ty | FP128Ty | PPC_FP128Ty
| LabelTy | MetadataTy | X86_MMXTy
| IntegerTy (NumBits : Z)
| PointerTy (ElementType : Ty) (AddressSpace : Z)
| FunctionTy (Result : Ty) (Params : list Ty) (isVarArg : bool)
| LiteralStructTy (Elements : list Ty) (isPacked : bool)
| IdentifiedStructTy (id : nat)
| ArrayTy (ElementType : Ty) (NumElements : Z)
| VectorTy (ElementType : Ty) (NumElements : Z).

Fixpoint Ty_eqb (a b : Ty) {struct a} : bool :=
  let fix list_eqb (l m : list Ty) {struct l} : bool :=
    match l, m with
    | [], [] => true
    | x :: l', y :: m' => Ty_eqb x y && list_eqb l' m'
    | _, _ => false
    end in
  match a, b with
  | VoidTy, VoidTy | HalfTy, HalfTy | FloatTy, FloatTy | DoubleTy, DoubleTy
  | X86_FP80Ty, X86_FP80Ty | FP128Ty, FP128Ty | PPC_FP128Ty, PPC_FP128Ty
  | LabelTy, LabelTy | MetadataTy, MetadataTy | X86_MMXTy, X86_MMXTy => true
  | IntegerTy n, IntegerTy m => n =? m
  | PointerTy e s, PointerTy e' s' => Ty_eqb e e' && (s =? s')
  | FunctionTy r p v, FunctionTy r' p' v' =>
      Ty_eqb r r' && list_eqb p p' && Bool.eqb v v'
  | LiteralStructTy e p, LiteralStructTy e' p' => list_eqb e e' && Bool.eqb p p'
  | IdentifiedStructTy i, IdentifiedStructTy j => Nat.eqb i j
  | ArrayTy e n, ArrayTy e' n' => Ty_eqb e e' && (n =? n')
  | VectorTy e n, VectorTy e' n' => Ty_eqb e e' && (n =? n')
  | _, _ => false
  end.

Definition Int1Ty : Ty := IntegerTy 1.
Definition Int8Ty : Ty := IntegerTy 8.
Definition Int32Ty : Ty := IntegerTy 32.

Definition isVoidTy (T : Ty) : bool := match T with VoidTy => true | _ => false end.
Definition isMetadataTy (T : Ty) : bool := match T with MetadataTy => true | _ => false end.
Definition isLabelTy (T : Ty) : bool := match T with LabelTy => true | _ => false end.
Definition isIntegerTy (T : Ty) : bool := match T with IntegerTy _ => true | _ => false end.
Definition isPointerTy (T : Ty) : bool := match T with PointerTy _ _ => true | _ => false end.
Definition isFloatingPointTy (T : Ty) : bool :=
  match T with
  | HalfTy | FloatTy | DoubleTy | X86_FP80Ty | FP128Ty | PPC_FP128Ty => true
  | _ => false
  end.
Definition isFPOrFPVectorTy (T : Ty) : bool :=
  match T with
  | VectorTy E _ => isFloatingPointTy E
  | _ => isFloatingPointTy T
  end.

(** The name and body of an identified struct; [StructBody = None] is an
    opaque struct.  Names and other strings are sequences of [char] codes. *)
Definition Str := list Z.

Record StructInfo : Type := mkStructInfo {
  StructName : Str;
  StructBody : option (list Ty * bool)
}.

Module Instruction.
Inductive BinaryOps : Set :=
  | Add | FAdd | Sub | FSub | Mul | FMul | UDiv | SDiv | FDiv
  | URem | SRem | FRem | Shl | LShr | AShr | And | Or | Xor.
Inductive CastOps : Set :=
  | Trunc | ZExt | SExt | FPToUI | FPToSI | UIToFP | SIToFP
  | FPTrunc | FPExt | PtrToInt | IntToPtr | BitCast.
End Instruction.

Module AtomicRMWInst.
Inductive BinOp : Set :=
  | Xchg | Add | Sub | And | Nand | Or | Xor | Max | Min | UMax | UMin
  | BAD_BINOP.
End AtomicRMWInst.

Inductive AtomicOrdering : Set :=
| NotAtomic | Unordered | Monotonic | Acquire | Release | AcquireRelease
| SequentiallyConsistent.

Inductive SynchronizationScope : Set := SingleThread | CrossThread.

Module GlobalValue.
Inductive LinkageTypes : Set :=
  | ExternalLinkage | AvailableExternallyLinkage | LinkOnceAnyLinkage
  | LinkOnceODRLinkage | WeakAnyLinkage | WeakODRLinkage | AppendingLinkage
  | InternalLinkage | PrivateLinkage | ExternalWeakLinkage | CommonLinkage.
Inductive VisibilityTypes : Set :=
  | DefaultVisibility | HiddenVisibility | ProtectedVisibility.
Inductive ThreadLocalMode : Set :=
  | NotThreadLocal | GeneralDynamicTLSModel | LocalDynamicTLSModel
  | InitialExecTLSModel | LocalExecTLSModel.
End GlobalValue.

(** The operation of a constant expression, with the flags handed to its
    constructor. *)
Inductive ConstantExprOp : Set :=
| CE_Binary (Opc : Instruction.BinaryOps) (NSW NUW Exact : bool)
| CE_Cast (Opc : Instruction.CastOps)
| CE_GetElementPtr (InBounds : bool)
| CE_Select | CE_ExtractElement | CE_InsertElement | CE_ShuffleVector
| CE_FCmp (Pred : Z) | CE_ICmp (Pred : Z).

(** Values.  Objects with an identity (instructions, basic blocks, globals,
    placeholders) are referred to by a number; constants are kept by content.
    Metadata strings and nodes are values as well.  An [Argument] without a
    parent is the placeholder [getValueFwdRef] creates. *)
Inductive Value : Type :=
| Argument (Parent : option nat) (id : nat) (T : Ty)
| ConstantPlaceHolder (id : nat) (T : Ty)
| UndefValue (T : Ty)
| NullValue (T : Ty)
| ConstantInt (T : Ty) (Val : Z)
| ConstantWideInt (T : Ty) (Words : list Z)
| ConstantFP (T : Ty) (Words : list Z)
| ConstantStruct (T : Ty) (Elts : list Value)
| ConstantArray (T : Ty) (Elts : list Value)
| ConstantVector (Elts : list Value)
| ConstantExpr (Op : ConstantExprOp) (Ops : list Value) (T : Ty)
| InlineAsm (T : Ty) (AsmStr ConstrStr : Str) (HasSideEffects IsAlignStack : bool)
| GlobalVariable (id : nat) (T : Ty)
| Function (id : nat) (T : Ty)
| GlobalAlias (id : nat) (T : Ty)
| BlockAddress (F BB : nat)
| BasicBlock (id : nat)
| InstructionV (id : nat) (T : Ty)
| MDString (S : Str)
| MDNode (Elts : list (option Value)) (isFunctionLocal : bool)
| MDNodeTemporary (id : nat).

(** [isa<Constant>], [isa<Argument>], [isa<MDNode>]. *)
Definition isaConstant (V : Value) : bool :=
  match V with
  | ConstantPlaceHolder _ _ | UndefValue _ | NullValue _ | ConstantInt _ _
  | ConstantWideInt _ _ | ConstantFP _ _ | ConstantStruct _ _
  | ConstantArray _ _ | ConstantVector _ | ConstantExpr _ _ _
  | GlobalVariable _ _ | Function _ _ | GlobalAlias _ _
  | BlockAddress _ _ => true
  | _ => false
  end.

Definition isaMDNode (V : Value) : bool :=
  match V with MDNode _ _ | MDNodeTemporary _ => true | _ => false end.

(** An attribute set: the builders of its slots, by parameter index. *)
Definition AttributeSet := list (Z * AttrBuilder).

Record DebugLoc : Type := mkDebugLoc {
  Line : Z; Col : Z; Scope : option Value; InlinedAt : option Value
}.

Inductive Instruction : Type :=
| BinaryOperator (Opc : Instruction.BinaryOps) (LHS RHS : Value)
    (NSW NUW Exact : bool)
| CastInst (Opc : Instruction.CastOps) (Op : Value) (ResTy : Ty)
| GetElementPtrInst (BasePtr : Value) (Idx : list Value) (InBounds : bool)
| ExtractValueInst (Agg : Value) (Idx : list Z)
| InsertValueInst (Agg Val : Value) (Idx : list Z)
| SelectInst (Cond TrueVal FalseVal : Value)
| ExtractElementInst (Vec Idx : Value)
| InsertElementInst (Vec Elt Idx : Value)
| ShuffleVectorInst (V1 V2 Mask : Value)
| FCmpInst (Pred : Z) (LHS RHS : Value)
| ICmpInst (Pred : Z) (LHS RHS : Value)
| ReturnInst (Op : option Value)
| BranchInst (TrueDest : nat) (Cond : option (nat * Value))
| SwitchInst (Cond : Value) (Default : nat) (Cases : list (Value * nat))
| IndirectBrInst (Address : Value) (Dests : list nat)
| InvokeInst (Callee : Value) (NormalBB UnwindBB : nat) (Ops : list Value)
    (CC : Z) (PAL : AttributeSet)
| ResumeInst (Val : Value)
| UnreachableInst
| PHINode (T : Ty) (Incoming : list (Value * nat))
| LandingPadInst (T : Ty) (PersFn : Value) (IsCleanup : bool)
    (Clauses : list Value)
| AllocaInst (T : Ty) (Size : Value) (Align : Z)
| LoadInst (Ptr : Value) (isVolatile : bool) (Align : Z)
    (Order : AtomicOrdering) (SynchScope : SynchronizationScope)
| StoreInst (Val Ptr : Value) (isVolatile : bool) (Align : Z)
    (Order : AtomicOrdering) (SynchScope : SynchronizationScope)
| AtomicCmpXchgInst (Ptr Cmp New : Value) (SuccessOrdering FailureOrdering
    : AtomicOrdering) (SynchScope : SynchronizationScope) (isVolatile : bool)
| AtomicRMWInst (Operation : AtomicRMWInst.BinOp) (Ptr Val : Value)
    (Order : AtomicOrdering) (SynchScope : SynchronizationScope)
    (isVolatile : bool)
| FenceInst (Order : AtomicOrdering) (SynchScope : SynchronizationScope)
| CallInst (Callee : Value) (Args : list Value) (CC : Z) (isTailCall : bool)
    (PAL : AttributeSet)
| VAArgInst (Op : Value) (ResTy : Ty).

(** [isa<TerminatorInst>]. *)
Definition isaTerminatorInst (I : Instruction) : bool :=
  match I with
  | ReturnInst _ | BranchInst _ _ | SwitchInst _ _ _ | IndirectBrInst _ _
  | InvokeInst _ _ _ _ _ _ | ResumeInst _ | UnreachableInst => true
  | _ => false
  end.

(** An instruction object: what it was constructed from, and what the reader
    sets on it afterwards. *)
Record InstObj : Type := mkInstObj {
  I_inst : Instruction;
  I_type : Ty;
  I_name : Str;
  I_dbgloc : option DebugLoc;
  I_metadata : list (Z * Value)
}.

Record BasicBlockObj : Type := mkBasicBlockObj {
  BB_parent : nat;
  BB_name : Str;
  BB_insts : list nat
}.

Inductive GlobalKind : Set := GK_Variable | GK_Function | GK_Alias.

(** A global object of the module: a variable, a function or an alias. *)
Record GlobalObj : Type := mkGlobalObj {
  G_kind : GlobalKind;
  G_valty : Ty;
  G_addrspace : Z;
  G_name : Str;
  G_linkage : GlobalValue.LinkageTypes;
  G_visibility : GlobalValue.VisibilityTypes;
  G_alignment : Z;
  G_section : Str;
  G_unnamed_addr : bool;
  G_isConstant : bool;
  G_tlm : GlobalValue.ThreadLocalMode;
  G_init : option Value;
  G_cc : Z;
  G_attrs : AttributeSet;
  G_gc : option Str;
  G_argnames : list Str;
  G_blocks : list nat
}.

Definition set_G_name v (G : GlobalObj) := mkGlobalObj (G_kind G) (G_valty G) (G_addrspace G) v (G_linkage G) (G_visibility G) (G_alignment G) (G_section G) (G_unnamed_addr G) (G_isConstant G) (G_tlm G) (G_init G) (G_cc G) (G_attrs G) (G_gc G) (G_argnames G) (G_blocks G).
Definition set_G_linkage v (G : GlobalObj) := mkGlobalObj (G_kind G) (G_valty G) (G_addrspace G) (G_name G) v (G_visibility G) (G_alignment G) (G_section G) (G_unnamed_addr G) (G_isConstant G) (G_tlm G) (G_init G) (G_cc G) (G_attrs G) (G_gc G) (G_argnames G) (G_blocks G).
Definition set_G_visibility v (G : GlobalObj) := mkGlobalObj (G_kind G) (G_valty G) (G_addrspace G) (G_name G) (G_linkage G) v (G_alignment G) (G_section G) (G_unnamed_addr G) (G_isConstant G) (G_tlm G) (G_init G) (G_cc G) (G_attrs G) (G_gc G) (G_argnames G) (G_blocks G).
Definition set_G_alignment v (G : GlobalObj) := mkGlobalObj (G_kind G) (G_valty G) (G_addrspace G) (G_name G) (G_linkage G) (G_visibility G) v (G_section G) (G_unnamed_addr G) (G_isConstant G) (G_tlm G) (G_init G) (G_cc G) (G_attrs G) (G_gc G) (G_argnames G) (G_blocks G).
Definition set_G_section v (G : GlobalObj) := mkGlobalObj (G_kind G) (G_valty G) (G_addrspace G) (G_name G) (G_linkage G) (G_visibility G) (G_alignment G) v (G_unnamed_addr G) (G_isConstant G) (G_tlm G) (G_init G) (G_cc G) (G_attrs G) (G_gc G) (G_argnames G) (G_blocks G).
Definition set_G_unnamed_addr v (G : GlobalObj) := mkGlobalObj (G_kind G) (G_valty G) (G_addrspace G) (G_name G) (G_linkage G) (G_visibility G) (G_alignment G) (G_section G) v (G_isConstant G) (G_tlm G) (G_init G) (G_cc G) (G_attrs G) (G_gc G) (G_argnames G) (G_blocks G).
Definition set_G_init v (G : GlobalObj) := mkGlobalObj (G_kind G) (G_valty G) (G_addrspace G) (G_name G) (G_linkage G) (G_visibility G) (G_alignment G) (G_section G) (G_unnamed_addr G) (G_isConstant G) (G_tlm G) v (G_cc G) (G_attrs G) (G_gc G) (G_argnames G) (G_blocks G).
Definition set_G_cc v (G : GlobalObj) := mkGlobalObj (G_kind G) (G_valty G) (G_addrspace G) (G_name G) (G_linkage G) (G_visibility G) (G_alignment G) (G_section G) (G_unnamed_addr G) (G_isConstant G) (G_tlm G) (G_init G) v (G_attrs G) (G_gc G) (G_argnames G) (G_blocks G).
Definition set_G_attrs v (G : GlobalObj) := mkGlobalObj (G_kind G) (G_valty G) (G_addrspace G) (G_name G) (G_linkage G) (G_visibility G) (G_alignment G) (G_section G) (G_unnamed_addr G) (G_isConstant G) (G_tlm G) (G_init G) (G_cc G) v (G_gc G) (G_argnames G) (G_blocks G).
Definition set_G_gc v (G : GlobalObj) := mkGlobalObj (G_kind G) (G_valty G) (G_addrspace G) (G_name G) (G_linkage G) (G_visibility G) (G_alignment G) (G_section G) (G_unnamed_addr G) (G_isConstant G) (G_tlm G) (G_init G) (G_cc G) (G_attrs G) v (G_argnames G) (G_blocks G).
Definition set_G_argnames v (G : GlobalObj) := mkGlobalObj (G_kind G) (G_valty G) (G_addrspace G) (G_name G) (G_linkage G) (G_visibility G) (G_alignment G) (G_section G) (G_unnamed_addr G) (G_isConstant G) (G_tlm G) (G_init G) (G_cc G) (G_attrs G) (G_gc G) v (G_blocks G).
Definition set_G_blocks v (G : GlobalObj) := mkGlobalObj (G_kind G) (G_valty G) (G_addrspace G) (G_name G) (G_linkage G) (G_visibility G) (G_alignment G) (G_section G) (G_unnamed_addr G) (G_isConstant G) (G_tlm G) (G_init G) (G_cc G) (G_attrs G) (G_gc G) (G_argnames G) v.

(** ** The bitstream, as the cursor presents it *)

(** A block is the sequence of entries the cursor yields between
    [EnterSubBlock] and END_BLOCK: records (already expanded by
    [readRecord] into a code and its operands), nested blocks and
    abbreviation definitions.  The three flags say whether the cursor's
    [EnterSubBlock], [SkipBlock] and [ReadBlockEnd] report a failure on
    this block. *)
Inductive Entry : Type :=
| ERecord (Code : Z) (Record : list Z)
| ESubBlock (ID : Z) (B : Block)
| EDefineAbbrev
with Block : Type :=
| mkBlock (entries : list Entry) (enterFails skipFails endFails : bool).

Definition B_entries (b : Block) : list Entry :=
  let '(mkBlock es _ _ _) := b in es.
Definition B_enterFails (b : Block) : bool :=
  let '(mkBlock _ f _ _) := b in f.
Definition B_skipFails (b : Block) : bool :=
  let '(mkBlock _ _ f _) := b in f.
Definition B_endFails (b : Block) : bool :=
  let '(mkBlock _ _ _ f) := b in f.

(** A well-formed block with the given entries. *)
Definition block (es : list Entry) : Block := mkBlock es false false false.

(** ** The reader state *)

Record BitcodeReader : Type := mkBitcodeReader {
  (* the context and the IR objects built so far *)
  StructTypes : list StructInfo;
  MDKindNames : list Str;
  NextId : nat;
  TargetTriple : Str;
  DataLayout : Str;
  ModuleInlineAsm : Str;
  NamedMetadata : list (Str * list Value);
  Globals : list (option GlobalObj);
  Blocks : list BasicBlockObj;
  Insts : list (option InstObj);
  (* the fields of class BitcodeReader *)
  TypeList : list (option Ty);
  ValueList : list (option Value);
  ResolveConstants : list (Value * Z);
  MDValueList : list (option Value);
  MAttributes : list AttributeSet;
  MDKindMap : gmap Z Z;
  InstructionList : list nat;
  FunctionBBs : list (option nat);
  GlobalInits : list (nat * Z);
  AliasInits : list (nat * Z);
  FunctionsWithBodies : list nat;
  DeferredFunctionInfo : gmap nat Z;
  BlockAddrFwdRefs : gmap nat (list (Z * nat));
  LazyStreamer : bool
}.

Definition set_StructTypes v (R : BitcodeReader) := mkBitcodeReader v (MDKindNames R) (NextId R) (TargetTriple R) (DataLayout R) (ModuleInlineAsm R) (NamedMetadata R) (Globals R) (Blocks R) (Insts R) (TypeList R) (ValueList R) (ResolveConstants R) (MDValueList R) (MAttributes R) (MDKindMap R) (InstructionList R) (FunctionBBs R) (GlobalInits R) (AliasInits R) (FunctionsWithBodies R) (DeferredFunctionInfo R) (BlockAddrFwdRefs R) (LazyStreamer R).
Definition set_MDKindNames v (R : BitcodeReader) := mkBitcodeReader (StructTypes R) v (NextId R) (TargetTriple R) (DataLayout R) (ModuleInlineAsm R) (NamedMetadata R) (Globals R) (Blocks R) (Insts R) (TypeList R) (ValueList R) (ResolveConstants R) (MDValueList R) (MAttributes R) (MDKindMap R) (InstructionList R) (FunctionBBs R) (GlobalInits R) (AliasInits R) (FunctionsWithBodies R) (DeferredFunctionInfo R) (BlockAddrFwdRefs R) (LazyStreamer R).
Definition set_NextId v (R : BitcodeReader) := mkBitcodeReader (StructTypes R) (MDKindNames R) v (TargetTriple R) (DataLayout R) (ModuleInlineAsm R) (NamedMetadata R) (Globals R) (Blocks R) (Insts R) (TypeList R) (ValueList R) (ResolveConstants R) (MDValueList R) (MAttributes R) (MDKindMap R) (InstructionList R) (FunctionBBs R) (GlobalInits R) (AliasInits R) (FunctionsWithBodies R) (DeferredFunctionInfo R) (BlockAddrFwdRefs R) (LazyStreamer R).
Definition set_TargetTriple v (R : BitcodeReader) := mkBitcodeReader (StructTypes R) (MDKindNames R) (NextId R) v (DataLayout R) (ModuleInlineAsm R) (NamedMetadata R) (Globals R) (Blocks R) (Insts R) (TypeList R) (ValueList R) (ResolveConstants R) (MDValueList R) (MAttributes R) (MDKindMap R) (InstructionList R) (FunctionBBs R) (GlobalInits R) (AliasInits R) (FunctionsWithBodies R) (DeferredFunctionInfo R) (BlockAddrFwdRefs R) (LazyStreamer R).
Definition set_DataLayout v (R : BitcodeReader) := mkBitcodeReader (StructTypes R) (MDKindNames R) (NextId R) (TargetTriple R) v (ModuleInlineAsm R) (NamedMetadata R) (Globals R) (Blocks R) (Insts R) (TypeList R) (ValueList R) (ResolveConstants R) (MDValueList R) (MAttributes R) (MDKindMap R) (InstructionList R) (FunctionBBs R) (GlobalInits R) (AliasInits R) (FunctionsWithBodies R) (DeferredFunctionInfo R) (BlockAddrFwdRefs R) (LazyStreamer R).
Definition set_ModuleInlineAsm v (R : BitcodeReader) := mkBitcodeReader (StructTypes R) (MDKindNames R) (NextId R) (TargetTriple R) (DataLayout R) v (NamedMetadata R) (Globals R) (Blocks R) (Insts R) (TypeList R) (ValueList R) (ResolveConstants R) (MDValueList R) (MAttributes R) (MDKindMap R) (InstructionList R) (FunctionBBs R) (GlobalInits R) (AliasInits R) (FunctionsWithBodies R) (DeferredFunctionInfo R) (BlockAddrFwdRefs R) (LazyStreamer R).
Definition set_NamedMetadata v (R : BitcodeReader) := mkBitcodeReader (StructTypes R) (MDKindNames R) (NextId R) (TargetTriple R) (DataLayout R) (ModuleInlineAsm R) v (Globals R) (Blocks R) (Insts R) (TypeList R) (ValueList R) (ResolveConstants R) (MDValueList R) (MAttributes R) (MDKindMap R) (InstructionList R) (FunctionBBs R) (GlobalInits R) (AliasInits R) (FunctionsWithBodies R) (DeferredFunctionInfo R) (BlockAddrFwdRefs R) (LazyStreamer R).
Definition set_Globals v (R : BitcodeReader) := mkBitcodeReader (StructTypes R) (MDKindNames R) (NextId R) (TargetTriple R) (DataLayout R) (ModuleInlineAsm R) (NamedMetadata R) v (Blocks R) (Insts R) (TypeList R) (ValueList R) (ResolveConstants R) (MDValueList R) (MAttributes R) (MDKindMap R) (InstructionList R) (FunctionBBs R) (GlobalInits R) (AliasInits R) (FunctionsWithBodies R) (DeferredFunctionInfo R) (BlockAddrFwdRefs R) (LazyStreamer R).
Definition set_Blocks v (R : BitcodeReader) := mkBitcodeReader (StructTypes R) (MDKindNames R) (NextId R) (TargetTriple R) (DataLayout R) (ModuleInlineAsm R) (NamedMetadata R) (Globals R) v (Insts R) (TypeList R) (ValueList R) (ResolveConstants R) (MDValueList R) (MAttributes R) (MDKindMap R) (InstructionList R) (FunctionBBs R) (GlobalInits R) (AliasInits R) (FunctionsWithBodies R) (DeferredFunctionInfo R) (BlockAddrFwdRefs R) (LazyStreamer R).
Definition set_Insts v (R : BitcodeReader) := mkBitcodeReader (StructTypes R) (MDKindNames R) (NextId R) (TargetTriple R) (DataLayout R) (ModuleInlineAsm R) (NamedMetadata R) (Globals R) (Blocks R) v (TypeList R) (ValueList R) (ResolveConstants R) (MDValueList R) (MAttributes R) (MDKindMap R) (InstructionList R) (FunctionBBs R) (GlobalInits R) (AliasInits R) (FunctionsWithBodies R) (DeferredFunctionInfo R) (BlockAddrFwdRefs R) (LazyStreamer R).
Definition set_TypeList v (R : BitcodeReader) := mkBitcodeReader (StructTypes R) (MDKindNames R) (NextId R) (TargetTriple R) (DataLayout R) (ModuleInlineAsm R) (NamedMetadata R) (Globals R) (Blocks R) (Insts R) v (ValueList R) (ResolveConstants R) (MDValueList R) (MAttributes R) (MDKindMap R) (InstructionList R) (FunctionBBs R) (GlobalInits R) (AliasInits R) (FunctionsWithBodies R) (DeferredFunctionInfo R) (BlockAddrFwdRefs R) (LazyStreamer R).
Definition set_ValueList v (R : BitcodeReader) := mkBitcodeReader (StructTypes R) (MDKindNames R) (NextId R) (TargetTriple R) (DataLayout R) (ModuleInlineAsm R) (NamedMetadata R) (Globals R) (Blocks R) (Insts R) (TypeList R) v (ResolveConstants R) (MDValueList R) (MAttributes R) (MDKindMap R) (InstructionList R) (FunctionBBs R) (GlobalInits R) (AliasInits R) (FunctionsWithBodies R) (DeferredFunctionInfo R) (BlockAddrFwdRefs R) (LazyStreamer R).
Definition set_ResolveConstants v (R : BitcodeReader) := mkBitcodeReader (StructTypes R) (MDKindNames R) (NextId R) (TargetTriple R) (DataLayout R) (ModuleInlineAsm R) (NamedMetadata R) (Globals R) (Blocks R) (Insts R) (TypeList R) (ValueList R) v (MDValueList R) (MAttributes R) (MDKindMap R) (InstructionList R) (FunctionBBs R) (GlobalInits R) (AliasInits R) (FunctionsWithBodies R) (DeferredFunctionInfo R) (BlockAddrFwdRefs R) (LazyStreamer R).
Definition set_MDValueList v (R : BitcodeReader) := mkBitcodeReader (StructTypes R) (MDKindNames R) (NextId R) (TargetTriple R) (DataLayout R) (ModuleInlineAsm R) (NamedMetadata R) (Globals R) (Blocks R) (Insts R) (TypeList R) (ValueList R) (ResolveConstants R) v (MAttributes R) (MDKindMap R) (InstructionList R) (FunctionBBs R) (GlobalInits R) (AliasInits R) (FunctionsWithBodies R) (DeferredFunctionInfo R) (BlockAddrFwdRefs R) (LazyStreamer R).
Definition set_MAttributes v (R : BitcodeReader) := mkBitcodeReader (StructTypes R) (MDKindNames R) (NextId R) (TargetTriple R) (DataLayout R) (ModuleInlineAsm R) (NamedMetadata R) (Globals R) (Blocks R) (Insts R) (TypeList R) (ValueList R) (ResolveConstants R) (MDValueList R) v (MDKindMap R) (InstructionList R) (FunctionBBs R) (GlobalInits R) (AliasInits R) (FunctionsWithBodies R) (DeferredFunctionInfo R) (BlockAddrFwdRefs R) (LazyStreamer R).
Definition set_MDKindMap v (R : BitcodeReader) := mkBitcodeReader (StructTypes R) (MDKindNames R) (NextId R) (TargetTriple R) (DataLayout R) (ModuleInlineAsm R) (NamedMetadata R) (Globals R) (Blocks R) (Insts R) (TypeList R) (ValueList R) (ResolveConstants R) (MDValueList R) (MAttributes R) v (InstructionList R) (FunctionBBs R) (GlobalInits R) (AliasInits R) (FunctionsWithBodies R) (DeferredFunctionInfo R) (BlockAddrFwdRefs R) (LazyStreamer R).
Definition set_InstructionList v (R : BitcodeReader) := mkBitcodeReader (StructTypes R) (MDKindNames R) (NextId R) (TargetTriple R) (DataLayout R) (ModuleInlineAsm R) (NamedMetadata R) (Globals R) (Blocks R) (Insts R) (TypeList R) (ValueList R) (ResolveConstants R) (MDValueList R) (MAttributes R) (MDKindMap R) v (FunctionBBs R) (GlobalInits R) (AliasInits R) (FunctionsWithBodies R) (DeferredFunctionInfo R) (BlockAddrFwdRefs R) (LazyStreamer R).
Definition set_FunctionBBs v (R : BitcodeReader) := mkBitcodeReader (StructTypes R) (MDKindNames R) (NextId R) (TargetTriple R) (DataLayout R) (ModuleInlineAsm R) (NamedMetadata R) (Globals R) (Blocks R) (Insts R) (TypeList R) (ValueList R) (ResolveConstants R) (MDValueList R) (MAttributes R) (MDKindMap R) (InstructionList R) v (GlobalInits R) (AliasInits R) (FunctionsWithBodies R) (DeferredFunctionInfo R) (BlockAddrFwdRefs R) (LazyStreamer R).
Definition set_GlobalInits v (R : BitcodeReader) := mkBitcodeReader (StructTypes R) (MDKindNames R) (NextId R) (TargetTriple R) (DataLayout R) (ModuleInlineAsm R) (NamedMetadata R) (Globals R) (Blocks R) (Insts R) (TypeList R) (ValueList R) (ResolveConstants R) (MDValueList R) (MAttributes R) (MDKindMap R) (InstructionList R) (FunctionBBs R) v (AliasInits R) (FunctionsWithBodies R) (DeferredFunctionInfo R) (BlockAddrFwdRefs R) (LazyStreamer R).
Definition set_AliasInits v (R : BitcodeReader) := mkBitcodeReader (StructTypes R) (MDKindNames R) (NextId R) (TargetTriple R) (DataLayout R) (ModuleInlineAsm R) (NamedMetadata R) (Globals R) (Blocks R) (Insts R) (TypeList R) (ValueList R) (ResolveConstants R) (MDValueList R) (MAttributes R) (MDKindMap R) (InstructionList R) (FunctionBBs R) (GlobalInits R) v (FunctionsWithBodies R) (DeferredFunctionInfo R) (BlockAddrFwdRefs R) (LazyStreamer R).
Definition set_FunctionsWithBodies v (R : BitcodeReader) := mkBitcodeReader (StructTypes R) (MDKindNames R) (NextId R) (TargetTriple R) (DataLayout R) (ModuleInlineAsm R) (NamedMetadata R) (Globals R) (Blocks R) (Insts R) (TypeList R) (ValueList R) (ResolveConstants R) (MDValueList R) (MAttributes R) (MDKindMap R) (InstructionList R) (FunctionBBs R) (GlobalInits R) (AliasInits R) v (DeferredFunctionInfo R) (BlockAddrFwdRefs R) (LazyStreamer R).
Definition set_DeferredFunctionInfo v (R : BitcodeReader) := mkBitcodeReader (StructTypes R) (MDKindNames R) (NextId R) (TargetTriple R) (DataLayout R) (ModuleInlineAsm R) (NamedMetadata R) (Globals R) (Blocks R) (Insts R) (TypeList R) (ValueList R) (ResolveConstants R) (MDValueList R) (MAttributes R) (MDKindMap R) (InstructionList R) (FunctionBBs R) (GlobalInits R) (AliasInits R) (FunctionsWithBodies R) v (BlockAddrFwdRefs R) (LazyStreamer R).
Definition set_BlockAddrFwdRefs v (R : BitcodeReader) := mkBitcodeReader (StructTypes R) (MDKindNames R) (NextId R) (TargetTriple R) (DataLayout R) (ModuleInlineAsm R) (NamedMetadata R) (Globals R) (Blocks R) (Insts R) (TypeList R) (ValueList R) (ResolveConstants R) (MDValueList R) (MAttributes R) (MDKindMap R) (InstructionList R) (FunctionBBs R) (GlobalInits R) (AliasInits R) (FunctionsWithBodies R) (DeferredFunctionInfo R) v (LazyStreamer R).

(** ** The reader monad: state, errors and undefined behaviour *)

(** The state is kept on every outcome: an error return leaves the reader as
    it was at the [return Error(...)]. *)
Definition M (A : Type) : Type := BitcodeReader -> res A * BitcodeReader.

Definition ret {A} (a : A) : M A := fun R => (Ok a, R).
Definition Error {A} (e : BitcodeError) : M A := fun R => (Err e, R).
Definition undefined {A} : M A := fun R => (Undef, R).
Definition bind {A B} (m : M A) (k : A -> M B) : M B :=
  fun R => match m R with
           | (Ok a, R') => k a R'
           | (Err e, R') => (Err e, R')
           | (Undef, R') => (Undef, R')
           end.
Definition get {A} (f : BitcodeReader -> A) : M A := fun R => (Ok (f R), R).
Definition modify (f : BitcodeReader -> BitcodeReader) : M unit :=
  fun R => (Ok tt, f R).
(** Lift a pure partial result. *)
Definition lift {A} (r : res A) : M A := fun R => (r, R).
(** An access that is undefined when the object is absent. *)
Definition deref {A} (o : option A) : M A :=
  match o with Some a => ret a | None => undefined end.

Notation "'do' x <- c ; k" := (bind c (fun x => k))
  (at level 10, x ident, c at level 100, k at level 200).
Notation "'do' ' p <- c ; k" := (bind c (fun x => let 'p := x in k))
  (at level 10, p pattern, c at level 100, k at level 200).
Notation "c ;; k" := (bind c (fun _ => k))
  (at level 100, k at level 200, right associativity).

(** [if (cond) return Error(e);] *)
Definition failIf (c : bool) (e : BitcodeError) : M unit :=
  if c then Error e else ret tt.

(** ** Records *)

(** [Record.size()] and [Record[i]]; an index past the end is undefined. *)
Definition size {A} (l : list A) : Z := Z.of_nat (length l).
Definition elt {A} (l : list A) (i : Z) : option A :=
  if (0 <=? i) && (i <? size l) then l !! Z.to_nat i else None.
Definition at_ {A} (l : list A) (i : Z) : M A := deref (elt l i).
Definition nonzero (x : Z) : bool := negb (x =? 0).

(** ** Vectors of the reader *)

(** [v.resize(n)] on a vector of pointers: new slots are null. *)
Definition vresize {A} (n : Z) (l : list (option A)) : list (option A) :=
  resize (Z.to_nat n) None l.

(** [v[i] = x] for an index in range. *)
Definition vset {A} (i : Z) (x : A) (l : list A) : list A :=
  <[Z.to_nat i := x]> l.

(** ** Context operations (IR library) *)

(** [StructType::create(Context, Name)]: a fresh opaque identified struct. *)
Definition StructType_create (Name : Str) : M Ty :=
  do n <- get (fun R => length (StructTypes R));
  modify (fun R => set_StructTypes (StructTypes R ++ [mkStructInfo Name None]) R) ;;
  ret (IdentifiedStructTy n).

Definition StructType_isOpaque (T : Ty) : M bool :=
  match T with
  | IdentifiedStructTy n =>
      do si <- bind (get (fun R => StructTypes R !! n)) deref;
      ret (match StructBody si with None => true | Some _ => false end)
  | LiteralStructTy _ _ => ret false
  | _ => undefined
  end.

(** [cast<StructType>(T)->setBody(Elts, isPacked)]. *)
Definition StructType_setBody (T : Ty) (Elts : list Ty) (isPacked : bool)
  : M unit :=
  match T with
  | IdentifiedStructTy n =>
      do si <- bind (get (fun R => StructTypes R !! n)) deref;
      modify (fun R => set_StructTypes
        (<[n := mkStructInfo (StructName si) (Some (Elts, isPacked))]>
           (StructTypes R)) R)
  | _ => undefined
  end.

Definition StructType_setName (T : Ty) (Name : Str) : M unit :=
  match T with
  | IdentifiedStructTy n =>
      do si <- bind (get (fun R => StructTypes R !! n)) deref;
      modify (fun R => set_StructTypes
        (<[n := mkStructInfo Name (StructBody si)]> (StructTypes R)) R)
  | _ => undefined
  end.

(** A fresh number for an object with an identity. *)
Definition fresh : M nat :=
  do n <- get NextId;
  modify (set_NextId (S n)) ;;
  ret n.

(** [V->getType()]. *)
Definition getType (V : Value) : Ty :=
  match V with
  | Argument _ _ T | ConstantPlaceHolder _ T | UndefValue T | NullValue T
  | ConstantInt T _ | ConstantWideInt T _ | ConstantFP T _
  | ConstantStruct T _ | ConstantArray T _ | ConstantExpr _ _ T
  | InlineAsm T _ _ _ _ | GlobalVariable _ T | Function _ T
  | GlobalAlias _ T | InstructionV _ T => T
  | ConstantVector Elts =>
      VectorTy (match Elts with
                | E :: _ =>
                    match E with
                    | Argument _ _ T | ConstantPlaceHolder _ T | UndefValue T
                    | NullValue T | ConstantInt T _ | ConstantWideInt T _
                    | ConstantFP T _ | ConstantStruct T _ | ConstantArray T _
                    | ConstantExpr _ _ T | InlineAsm T _ _ _ _
                    | GlobalVariable _ T | Function _ T | GlobalAlias _ T
                    | InstructionV _ T => T
                    | _ => VoidTy
                    end
                | [] => VoidTy
                end) (size Elts)
  | BlockAddress _ _ => PointerTy Int8Ty 0
  | BasicBlock _ => LabelTy
  | MDString _ | MDNode _ _ | MDNodeTemporary _ => MetadataTy
  end.

(** ** [BitcodeReaderValueList] (BitcodeReader.cpp:506) *)

(** [delete V] for the objects kept in the instruction store. *)
Definition deleteValue (V : Value) : M unit :=
  match V with
  | InstructionV id _ =>
      modify (fun R => set_Insts (<[id := None]> (Insts R)) R)
  | _ => ret tt
  end.

(** Rewriting the users of a replaced placeholder is done by the use lists of
    the IR library; the table itself ends up holding [V] in every branch (the
    slot is a [WeakVH], which follows a replace-all-uses). *)
Definition AssignValue (V : Value) (Idx : Z) : M unit :=
  let Idx := uint32 Idx in
  do sz <- get (fun R => size (ValueList R));
  if Idx =? sz then
    modify (fun R => set_ValueList (ValueList R ++ [Some V]) R)
  else
    (if sz <=? Idx
     then modify (fun R => set_ValueList (vresize (uint32 (Idx + 1)) (ValueList R)) R)
     else ret tt) ;;
    do OldV <- bind (get ValueList) (fun l => at_ l Idx);
    match OldV with
    | None => modify (fun R => set_ValueList (vset Idx (Some V) (ValueList R)) R)
    | Some PHC =>
        if isaConstant PHC then
          modify (fun R => set_ResolveConstants (ResolveConstants R ++ [(PHC, Idx)]) R) ;;
          modify (fun R => set_ValueList (vset Idx (Some V) (ValueList R)) R)
        else
          modify (fun R => set_ValueList (vset Idx (Some V) (ValueList R)) R) ;;
          deleteValue PHC
    end.

Definition getConstantFwdRef (Idx : Z) (T : Ty) : M Value :=
  let Idx := uint32 Idx in
  do sz <- get (fun R => size (ValueList R));
  (if sz <=? Idx
   then modify (fun R => set_ValueList (vresize (uint32 (Idx + 1)) (ValueList R)) R)
   else ret tt) ;;
  do V <- bind (get ValueList) (fun l => at_ l Idx);
  match V with
  | Some V => if isaConstant V then ret V else undefined
  | None =>
      do id <- fresh;
      let C := ConstantPlaceHolder id T in
      modify (fun R => set_ValueList (vset Idx (Some C) (ValueList R)) R) ;;
      ret C
  end.

Definition getValueFwdRef (Idx : Z) (T : option Ty) : M (option Value) :=
  let Idx := uint32 Idx in
  do sz <- get (fun R => size (ValueList R));
  (if sz <=? Idx
   then modify (fun R => set_ValueList (vresize (uint32 (Idx + 1)) (ValueList R)) R)
   else ret tt) ;;
  do V <- bind (get ValueList) (fun l => at_ l Idx);
  match V with
  | Some V => ret (Some V)
  | None =>
      match T with
      | None => ret None
      | Some T =>
          do id <- fresh;
          let V := Argument None id T in
          modify (fun R => set_ValueList (vset Idx (Some V) (ValueList R)) R) ;;
          ret (Some V)
      end
  end.

(** The placeholders are patched inside their users by the IR library; the
    reader's own state only loses its work list. *)
Definition ResolveConstantForwardRefs : M unit :=
  modify (set_ResolveConstants []).

(** ** [BitcodeReaderMDValueList] (BitcodeReader.cpp:653) *)

Definition MDValueList_AssignValue (V : Value) (Idx : Z) : M unit :=
  let Idx := uint32 Idx in
  do sz <- get (fun R => size (MDValueList R));
  if Idx =? sz then
    modify (fun R => set_MDValueList (MDValueList R ++ [Some V]) R)
  else
    (if sz <=? Idx
     then modify (fun R => set_MDValueList (vresize (uint32 (Idx + 1)) (MDValueList R)) R)
     else ret tt) ;;
    do OldV <- bind (get MDValueList) (fun l => at_ l Idx);
    match OldV with
    | None => modify (fun R => set_MDValueList (vset Idx (Some V) (MDValueList R)) R)
    | Some PrevVal =>
        if isaMDNode PrevVal
        then modify (fun R => set_MDValueList (vset Idx (Some V) (MDValueList R)) R)
        else undefined
    end.

Definition MDValueList_getValueFwdRef (Idx : Z) : M Value :=
  let Idx := uint32 Idx in
  do sz <- get (fun R => size (MDValueList R));
  (if sz <=? Idx
   then modify (fun R => set_MDValueList (vresize (uint32 (Idx + 1)) (MDValueList R)) R)
   else ret tt) ;;
  do V <- bind (get MDValueList) (fun l => at_ l Idx);
  match V with
  | Some V => ret V
  | None =>
      do id <- fresh;
      let V := MDNodeTemporary id in
      modify (fun R => set_MDValueList (vset Idx (Some V) (MDValueList R)) R) ;;
      ret V
  end.

(** ** Type lookups (BitcodeReader.cpp:700) *)

Definition getTypeByID (ID : Z) : M (option Ty) :=
  let ID := uint32 ID in
  do sz <- get (fun R => size (TypeList R));
  if sz <=? ID then ret None
  else
    do T <- bind (get TypeList) (fun l => at_ l ID);
    match T with
    | Some T => ret (Some T)
    | None =>
        do T <- StructType_create [];
        modify (fun R => set_TypeList (vset ID (Some T) (TypeList R)) R) ;;
        ret (Some T)
    end.

Definition getTypeByIDOrNull (ID : Z) : M (option Ty) :=
  let ID := uint32 ID in
  do sz <- get (fun R => size (TypeList R));
  (if sz <=? ID
   then modify (fun R => set_TypeList (vresize (uint32 (ID + 1)) (TypeList R)) R)
   else ret tt) ;;
  bind (get TypeList) (fun l => at_ l ID).

(** ** Codes of the bitcode format *)

(** Modelled from the spec: the enumerators of [llvm/Bitcode/LLVMBitCodes.h]
    are not part of src.  The spec (section 6) fixes the block IDs and calls
    the record codes stable identifiers of the bitstream that an
    implementation must mirror; they are given here with the values of the
    format. *)
Module bitc.
Definition BLOCKINFO_BLOCK_ID : Z := 0.
Definition MODULE_BLOCK_ID : Z := 8.
Definition PARAMATTR_BLOCK_ID : Z := 9.
Definition CONSTANTS_BLOCK_ID : Z := 11.
Definition FUNCTION_BLOCK_ID : Z := 12.
Definition VALUE_SYMTAB_BLOCK_ID : Z := 14.
Definition METADATA_BLOCK_ID : Z := 15.
Definition METADATA_ATTACHMENT_ID : Z := 16.
Definition TYPE_BLOCK_ID_NEW : Z := 17.

Inductive TypeCodes : Set :=
  | TYPE_CODE_NUMENTRY | TYPE_CODE_VOID | TYPE_CODE_FLOAT | TYPE_CODE_DOUBLE
  | TYPE_CODE_LABEL | TYPE_CODE_OPAQUE | TYPE_CODE_INTEGER | TYPE_CODE_POINTER
  | TYPE_CODE_FUNCTION_OLD | TYPE_CODE_HALF | TYPE_CODE_ARRAY
  | TYPE_CODE_VECTOR | TYPE_CODE_X86_FP80 | TYPE_CODE_FP128
  | TYPE_CODE_PPC_FP128 | TYPE_CODE_METADATA | TYPE_CODE_X86_MMX
  | TYPE_CODE_STRUCT_ANON | TYPE_CODE_STRUCT_NAME | TYPE_CODE_STRUCT_NAMED
  | TYPE_CODE_FUNCTION.

Definition TypeCodes_of (Code : Z) : option TypeCodes :=
    match Code with
    | 1 => Some TYPE_CODE_NUMENTRY | 2 => Some TYPE_CODE_VOID
    | 3 => Some TYPE_CODE_FLOAT | 4 => Some TYPE_CODE_DOUBLE
    | 5 => Some TYPE_CODE_LABEL | 6 => Some TYPE_CODE_OPAQUE
    | 7 => Some TYPE_CODE_INTEGER | 8 => Some TYPE_CODE_POINTER
    | 9 => Some TYPE_CODE_FUNCTION_OLD | 10 => Some TYPE_CODE_HALF
    | 11 => Some TYPE_CODE_ARRAY | 12 => Some TYPE_CODE_VECTOR
    | 13 => Some TYPE_CODE_X86_FP80 | 14 => Some TYPE_CODE_FP128
    | 15 => Some TYPE_CODE_PPC_FP128 | 16 => Some TYPE_CODE_METADATA
    | 17 => Some TYPE_CODE_X86_MMX | 18 => Some TYPE_CODE_STRUCT_ANON
    | 19 => Some TYPE_CODE_STRUCT_NAME | 20 => Some TYPE_CODE_STRUCT_NAMED
    | 21 => Some TYPE_CODE_FUNCTION
    | _ => None
    end.
Inductive ModuleCodes : Set :=
  | MODULE_CODE_VERSION | MODULE_CODE_TRIPLE | MODULE_CODE_DATALAYOUT
  | MODULE_CODE_ASM | MODULE_CODE_SECTIONNAME | MODULE_CODE_DEPLIB
  | MODULE_CODE_GLOBALVAR | MODULE_CODE_FUNCTION | MODULE_CODE_ALIAS
  | MODULE_CODE_PURGEVALS | MODULE_CODE_GCNAME.

Definition ModuleCodes_of (Code : Z) : option ModuleCodes :=
    match Code with
    | 1 => Some MODULE_CODE_VERSION | 2 => Some MODULE_CODE_TRIPLE
    | 3 => Some MODULE_CODE_DATALAYOUT | 4 => Some MODULE_CODE_ASM
    | 5 => Some MODULE_CODE_SECTIONNAME | 6 => Some MODULE_CODE_DEPLIB
    | 7 => Some MODULE_CODE_GLOBALVAR | 8 => Some MODULE_CODE_FUNCTION
    | 9 => Some MODULE_CODE_ALIAS | 10 => Some MODULE_CODE_PURGEVALS
    | 11 => Some MODULE_CODE_GCNAME
    | _ => None
    end.

Inductive AttributeCodes : Set :=
  | PARAMATTR_CODE_ENTRY_OLD | PARAMATTR_CODE_ENTRY.

Definition AttributeCodes_of (Code : Z) : option AttributeCodes :=
    match Code with
    | 1 => Some PARAMATTR_CODE_ENTRY_OLD | 2 => Some PARAMATTR_CODE_ENTRY
    | _ => None
    end.

Inductive TypeSymtabCodes : Set := TST_CODE_ENTRY.

Definition TypeSymtabCodes_of (Code : Z) : option TypeSymtabCodes :=
    match Code with 1 => Some TST_CODE_ENTRY | _ => None end.

Inductive ValueSymtabCodes : Set := VST_CODE_ENTRY | VST_CODE_BBENTRY.

Definition ValueSymtabCodes_of (Code : Z) : option ValueSymtabCodes :=
    match Code with
    | 1 => Some VST_CODE_ENTRY | 2 => Some VST_CODE_BBENTRY
    | _ => None
    end.

Inductive MetadataCodes : Set :=
  | METADATA_STRING | METADATA_NAME | METADATA_KIND | METADATA_NODE
  | METADATA_FN_NODE | METADATA_NAMED_NODE | METADATA_ATTACHMENT.

Definition MetadataCodes_of (Code : Z) : option MetadataCodes :=
    match Code with
    | 1 => Some METADATA_STRING | 4 => Some METADATA_NAME
    | 6 => Some METADATA_KIND | 8 => Some METADATA_NODE
    | 9 => Some METADATA_FN_NODE | 10 => Some METADATA_NAMED_NODE
    | 11 => Some METADATA_ATTACHMENT
    | _ => None
    end.

Inductive ConstantsCodes : Set :=
  | CST_CODE_SETTYPE | CST_CODE_NULL | CST_CODE_UNDEF | CST_CODE_INTEGER
  | CST_CODE_WIDE_INTEGER | CST_CODE_FLOAT | CST_CODE_AGGREGATE
  | CST_CODE_STRING | CST_CODE_CSTRING | CST_CODE_CE_BINOP
  | CST_CODE_CE_CAST | CST_CODE_CE_GEP | CST_CODE_CE_SELECT
  | CST_CODE_CE_EXTRACTELT | CST_CODE_CE_INSERTELT | CST_CODE_CE_SHUFFLEVEC
  | CST_CODE_CE_CMP | CST_CODE_INLINEASM_OLD | CST_CODE_CE_SHUFVEC_EX
  | CST_CODE_CE_INBOUNDS_GEP | CST_CODE_BLOCKADDRESS | CST_CODE_DATA
  | CST_CODE_INLINEASM.

Definition ConstantsCodes_of (Code : Z) : option ConstantsCodes :=
    match Code with
    | 1 => Some CST_CODE_SETTYPE | 2 => Some CST_CODE_NULL
    | 3 => Some CST_CODE_UNDEF | 4 => Some CST_CODE_INTEGER
    | 5 => Some CST_CODE_WIDE_INTEGER | 6 => Some CST_CODE_FLOAT
    | 7 => Some CST_CODE_AGGREGATE | 8 => Some CST_CODE_STRING
    | 9 => Some CST_CODE_CSTRING | 10 => Some CST_CODE_CE_BINOP
    | 11 => Some CST_CODE_CE_CAST | 12 => Some CST_CODE_CE_GEP
    | 13 => Some CST_CODE_CE_SELECT | 14 => Some CST_CODE_CE_EXTRACTELT
    | 15 => Some CST_CODE_CE_INSERTELT | 16 => Some CST_CODE_CE_SHUFFLEVEC
    | 17 => Some CST_CODE_CE_CMP | 18 => Some CST_CODE_INLINEASM_OLD
    | 19 => Some CST_CODE_CE_SHUFVEC_EX | 20 => Some CST_CODE_CE_INBOUNDS_GEP
    | 21 => Some CST_CODE_BLOCKADDRESS | 22 => Some CST_CODE_DATA
    | 23 => Some CST_CODE_INLINEASM
    | _ => None
    end.

Inductive FunctionCodes : Set :=
  | FUNC_CODE_DECLAREBLOCKS | FUNC_CODE_INST_BINOP | FUNC_CODE_INST_CAST
  | FUNC_CODE_INST_GEP | FUNC_CODE_INST_SELECT | FUNC_CODE_INST_EXTRACTELT
  | FUNC_CODE_INST_INSERTELT | FUNC_CODE_INST_SHUFFLEVEC | FUNC_CODE_INST_CMP
  | FUNC_CODE_INST_RET | FUNC_CODE_INST_BR | FUNC_CODE_INST_SWITCH
  | FUNC_CODE_INST_INVOKE | FUNC_CODE_INST_UNREACHABLE | FUNC_CODE_INST_PHI
  | FUNC_CODE_INST_ALLOCA | FUNC_CODE_INST_LOAD | FUNC_CODE_INST_VAARG
  | FUNC_CODE_INST_STORE | FUNC_CODE_INST_EXTRACTVAL
  | FUNC_CODE_INST_INSERTVAL | FUNC_CODE_INST_CMP2 | FUNC_CODE_INST_VSELECT
  | FUNC_CODE_INST_INBOUNDS_GEP | FUNC_CODE_INST_INDIRECTBR
  | FUNC_CODE_DEBUG_LOC_AGAIN | FUNC_CODE_INST_CALL | FUNC_CODE_DEBUG_LOC
  | FUNC_CODE_INST_FENCE | FUNC_CODE_INST_CMPXCHG | FUNC_CODE_INST_ATOMICRMW
  | FUNC_CODE_INST_RESUME | FUNC_CODE_INST_LANDINGPAD
  | FUNC_CODE_INST_LOADATOMIC | FUNC_CODE_INST_STOREATOMIC.

Definition FunctionCodes_of (Code : Z) : option FunctionCodes :=
    match Code with
    | 1 => Some FUNC_CODE_DECLAREBLOCKS | 2 => Some FUNC_CODE_INST_BINOP
    | 3 => Some FUNC_CODE_INST_CAST | 4 => Some FUNC_CODE_INST_GEP
    | 5 => Some FUNC_CODE_INST_SELECT | 6 => Some FUNC_CODE_INST_EXTRACTELT
    | 7 => Some FUNC_CODE_INST_INSERTELT | 8 => Some FUNC_CODE_INST_SHUFFLEVEC
    | 9 => Some FUNC_CODE_INST_CMP | 10 => Some FUNC_CODE_INST_RET
    | 11 => Some FUNC_CODE_INST_BR | 12 => Some FUNC_CODE_INST_SWITCH
    | 13 => Some FUNC_CODE_INST_INVOKE | 15 => Some FUNC_CODE_INST_UNREACHABLE
    | 16 => Some FUNC_CODE_INST_PHI | 19 => Some FUNC_CODE_INST_ALLOCA
    | 20 => Some FUNC_CODE_INST_LOAD | 23 => Some FUNC_CODE_INST_VAARG
    | 24 => Some FUNC_CODE_INST_STORE | 26 => Some FUNC_CODE_INST_EXTRACTVAL
    | 27 => Some FUNC_CODE_INST_INSERTVAL | 28 => Some FUNC_CODE_INST_CMP2
    | 29 => Some FUNC_CODE_INST_VSELECT | 30 => Some FUNC_CODE_INST_INBOUNDS_GEP
    | 31 => Some FUNC_CODE_INST_INDIRECTBR | 33 => Some FUNC_CODE_DEBUG_LOC_AGAIN
    | 34 => Some FUNC_CODE_INST_CALL | 35 => Some FUNC_CODE_DEBUG_LOC
    | 36 => Some FUNC_CODE_INST_FENCE | 37 => Some FUNC_CODE_INST_CMPXCHG
    | 38 => Some FUNC_CODE_INST_ATOMICRMW | 39 => Some FUNC_CODE_INST_RESUME
    | 40 => Some FUNC_CODE_INST_LANDINGPAD | 41 => Some FUNC_CODE_INST_LOADATOMIC
    | 42 => Some FUNC_CODE_INST_STOREATOMIC
    | _ => None
    end.
End bitc.

(** The [#define]s at the head of BitcodeReader.cpp. *)
Definition FUNC_CODE_INST_UNWIND_2_7 : Z := 14.
Definition TYPE_BLOCK_ID_OLD_3_0 : Z := 10.
Definition TYPE_SYMTAB_BLOCK_ID_OLD_3_0 : Z := 13.
Definition TYPE_CODE_STRUCT_OLD_3_0 : Z := 10.

(** [ConvertToString] (BitcodeReader.cpp:343); [Result += (char)Record[i]]. *)
Definition ConvertToString (Record : list Z) (Idx : Z) (Result : Str)
  : option Str :=
  if size Record <? Idx then None
  else Some (Result ++ map (fun c => c mod 256) (drop (Z.to_nat Idx) Record)).

(** ** The legacy type table (BitcodeReader.cpp:1033) *)

(** The loops [for (i = k; i != e; ++i) if (T = getTypeByIDOrNull(Record[i]))
    push_back(T); else break;]. *)
Fixpoint readTypesOrNull (IDs : list Z) : M (list Ty) :=
  match IDs with
  | [] => ret []
  | ID :: IDs' =>
      do T <- getTypeByIDOrNull ID;
      match T with
      | Some T => do Ts <- readTypesOrNull IDs'; ret (T :: Ts)
      | None => ret []
      end
  end.

(** The locals of one scan of the block. *)
Record OldTypeScan : Type := mkOldTypeScan {
  NextTypeID : Z;
  NumTypesRead : Z;
  ReadAnyTypes : bool
}.

(** How a scan ends when it does not fail: by the [goto RestartScan], or by
    the successful return. *)
Inductive ScanEnd : Type :=
| RestartScan (NumTypesRead : Z)
| ScanDone.

(** The switch over the record code: [inl tt] is the [continue] of
    TYPE_CODE_NUMENTRY, [inr ResultTy] a [break]. *)
Definition ParseOldTypeTable_record (Code : Z) (Record : list Z)
    (NextTypeID : Z) : M (unit + option Ty) :=
  if Code =? TYPE_CODE_STRUCT_OLD_3_0 then
    do sz <- get (fun R => size (TypeList R));
    if sz <=? NextTypeID then ret (inr None)
    else
      do Cur <- bind (get TypeList) (fun l => at_ l NextTypeID);
      do already <- match Cur with
                    | Some T => do o <- StructType_isOpaque T; ret (negb o)
                    | None => ret false
                    end;
      if (already : bool) then ret (inr None)
      else
        do STy <- match Cur with
                  | Some T => ret T
                  | None =>
                      do T <- StructType_create [];
                      modify (fun R => set_TypeList
                                (vset NextTypeID (Some T) (TypeList R)) R) ;;
                      ret T
                  end;
        (* the element loop starts at index 1 and stops at Record.size() *)
        if size Record =? 0 then undefined
        else
          do EltTys <- readTypesOrNull (drop 1 Record);
          if negb (size EltTys =? size Record - 1) then ret (inr None)
          else
            do R0 <- at_ Record 0;
            StructType_setBody STy EltTys (nonzero R0) ;;
            modify (fun R => set_TypeList (vset NextTypeID None (TypeList R)) R) ;;
            ret (inr (Some STy))
  else
  match bitc.TypeCodes_of Code with
  | Some bitc.TYPE_CODE_NUMENTRY =>
      if size Record <? 1 then Error InvalidTYPETable
      else
        do R0 <- at_ Record 0;
        modify (fun R => set_TypeList (vresize R0 (TypeList R)) R) ;;
        ret (inl tt)
  | Some bitc.TYPE_CODE_VOID => ret (inr (Some VoidTy))
  | Some bitc.TYPE_CODE_FLOAT => ret (inr (Some FloatTy))
  | Some bitc.TYPE_CODE_DOUBLE => ret (inr (Some DoubleTy))
  | Some bitc.TYPE_CODE_X86_FP80 => ret (inr (Some X86_FP80Ty))
  | Some bitc.TYPE_CODE_FP128 => ret (inr (Some FP128Ty))
  | Some bitc.TYPE_CODE_PPC_FP128 => ret (inr (Some PPC_FP128Ty))
  | Some bitc.TYPE_CODE_LABEL => ret (inr (Some LabelTy))
  | Some bitc.TYPE_CODE_METADATA => ret (inr (Some MetadataTy))
  | Some bitc.TYPE_CODE_X86_MMX => ret (inr (Some X86_MMXTy))
  | Some bitc.TYPE_CODE_INTEGER =>
      if size Record <? 1 then Error InvalidTYPETable
      else do R0 <- at_ Record 0; ret (inr (Some (IntegerTy (uint32 R0))))
  | Some bitc.TYPE_CODE_OPAQUE =>
      do sz <- get (fun R => size (TypeList R));
      if NextTypeID <? sz then
        do Cur <- bind (get TypeList) (fun l => at_ l NextTypeID);
        match Cur with
        | None => do T <- StructType_create []; ret (inr (Some T))
        | Some _ => ret (inr None)
        end
      else ret (inr None)
  | Some bitc.TYPE_CODE_POINTER =>
      if size Record <? 1 then Error InvalidTYPETable
      else
        do AddressSpace <- (if size Record =? 2 then at_ Record 1 else ret 0);
        do R0 <- at_ Record 0;
        do T <- getTypeByIDOrNull R0;
        ret (inr (option_map (fun T => PointerTy T (uint32 AddressSpace)) T))
  | Some bitc.TYPE_CODE_FUNCTION_OLD =>
      if size Record <? 3 then Error InvalidTYPETable
      else
        do ArgTys <- readTypesOrNull (drop 3 Record);
        if negb (size ArgTys + 3 =? size Record) then ret (inr None)
        else
          do R2 <- at_ Record 2;
          do R0 <- at_ Record 0;
          do T <- getTypeByIDOrNull R2;
          ret (inr (option_map (fun T => FunctionTy T ArgTys (nonzero R0)) T))
  | Some bitc.TYPE_CODE_FUNCTION =>
      if size Record <? 2 then Error InvalidTYPETable
      else
        do ArgTys <- readTypesOrNull (drop 2 Record);
        if negb (size ArgTys + 2 =? size Record) then ret (inr None)
        else
          do R1 <- at_ Record 1;
          do R0 <- at_ Record 0;
          do T <- getTypeByIDOrNull R1;
          ret (inr (option_map (fun T => FunctionTy T ArgTys (nonzero R0)) T))
  | Some bitc.TYPE_CODE_ARRAY =>
      if size Record <? 2 then Error InvalidTYPETable
      else
        do R1 <- at_ Record 1;
        do R0 <- at_ Record 0;
        do T <- getTypeByIDOrNull R1;
        ret (inr (option_map (fun T => ArrayTy T R0) T))
  | Some bitc.TYPE_CODE_VECTOR =>
      if size Record <? 2 then Error InvalidTYPETable
      else
        do R1 <- at_ Record 1;
        do R0 <- at_ Record 0;
        do T <- getTypeByIDOrNull R1;
        ret (inr (option_map (fun T => VectorTy T (uint32 R0)) T))
  | _ => Error InvalidTYPETable
  end.

(** One scan of the block, from the cursor saved at its start to END_BLOCK. *)
Fixpoint ParseOldTypeTable_scan (es : list Entry) (endFails : bool)
    (L : OldTypeScan) : M ScanEnd :=
  match es with
  | [] =>
      (* Code == bitc::END_BLOCK *)
      do sz <- get (fun R => size (TypeList R));
      if negb (NextTypeID L =? sz) then Error InvalidTYPETable
      else if negb (NumTypesRead L =? sz) then
        if negb (ReadAnyTypes L) then Error InvalidTYPETable
        else ret (RestartScan (NumTypesRead L))
      else if endFails then Error InvalidTYPETable
      else ret ScanDone
  | ESubBlock _ B :: es' =>
      if B_skipFails B then Error MalformedBlock
      else ParseOldTypeTable_scan es' endFails L
  | EDefineAbbrev :: es' => ParseOldTypeTable_scan es' endFails L
  | ERecord Code Record :: es' =>
      do r <- ParseOldTypeTable_record Code Record (NextTypeID L);
      match r with
      | inl _ => ParseOldTypeTable_scan es' endFails L
      | inr ResultTy =>
          do sz <- get (fun R => size (TypeList R));
          if sz <=? NextTypeID L then Error InvalidTYPETable
          else
            do Cur <- bind (get TypeList) (fun l => at_ l (NextTypeID L));
            match ResultTy, Cur with
            | Some T, None =>
                modify (fun R => set_TypeList
                          (vset (NextTypeID L) (Some T) (TypeList R)) R) ;;
                ParseOldTypeTable_scan es' endFails
                  (mkOldTypeScan (uint32 (NextTypeID L + 1))
                                 (uint32 (NumTypesRead L + 1)) true)
            | _, _ =>
                ParseOldTypeTable_scan es' endFails
                  (mkOldTypeScan (uint32 (NextTypeID L + 1))
                                 (NumTypesRead L) (ReadAnyTypes L))
            end
      end
  end.

(** The scans, repeated from [RestartScan:].  [fuel] bounds the number of
    scans; the result is [None] when they are used up before the function
    returns. *)
Fixpoint ParseOldTypeTable_scans (fuel : nat) (B : Block) (NumTypesRead : Z)
  : M (option unit) :=
  match fuel with
  | O => ret None
  | S fuel' =>
      do r <- ParseOldTypeTable_scan (B_entries B) (B_endFails B)
                (mkOldTypeScan 0 NumTypesRead false);
      match r with
      | RestartScan n => ParseOldTypeTable_scans fuel' B n
      | ScanDone => ret (Some tt)
      end
  end.

Definition ParseOldTypeTable (fuel : nat) (B : Block) : M (option unit) :=
  if B_enterFails B then Error MalformedBlock
  else
    do nonempty <- get (fun R => negb (size (TypeList R) =? 0));
    if (nonempty : bool) then Error InvalidTYPETable
    else ParseOldTypeTable_scans fuel B 0.

(** A reader that has read nothing yet. *)
Definition newReader : BitcodeReader :=
  mkBitcodeReader [] [] 0 [] [] [] [] [] [] [] [] [] [] [] [] ∅ [] [] [] [] []
    ∅ ∅ false.

(** ** Decoders of enumerated fields (BitcodeReader.cpp:355) *)

Definition GetDecodedLinkage (Val : Z) : GlobalValue.LinkageTypes :=
  match uint32 Val with
  | 0 => GlobalValue.ExternalLinkage
  | 1 => GlobalValue.WeakAnyLinkage
  | 2 => GlobalValue.AppendingLinkage
  | 3 => GlobalValue.InternalLinkage
  | 4 => GlobalValue.LinkOnceAnyLinkage
  | 5 => GlobalValue.ExternalLinkage
  | 6 => GlobalValue.ExternalLinkage
  | 7 => GlobalValue.ExternalWeakLinkage
  | 8 => GlobalValue.CommonLinkage
  | 9 => GlobalValue.PrivateLinkage
  | 10 => GlobalValue.WeakODRLinkage
  | 11 => GlobalValue.LinkOnceODRLinkage
  | 12 => GlobalValue.AvailableExternallyLinkage
  | 13 => GlobalValue.PrivateLinkage
  | 14 => GlobalValue.ExternalWeakLinkage
  | 15 => GlobalValue.LinkOnceODRLinkage
  | _ => GlobalValue.ExternalLinkage
  end.

Definition GetDecodedVisibility (Val : Z) : GlobalValue.VisibilityTypes :=
  match uint32 Val with
  | 1 => GlobalValue.HiddenVisibility
  | 2 => GlobalValue.ProtectedVisibility
  | _ => GlobalValue.DefaultVisibility
  end.

Definition GetDecodedThreadLocalMode (Val : Z) : GlobalValue.ThreadLocalMode :=
  match uint32 Val with
  | 0 => GlobalValue.NotThreadLocal
  | 2 => GlobalValue.LocalDynamicTLSModel
  | 3 => GlobalValue.InitialExecTLSModel
  | 4 => GlobalValue.LocalExecTLSModel
  | _ => GlobalValue.GeneralDynamicTLSModel
  end.

(** [None] is the [-1] of the C++ code.  The numbers are those of
    [bitc::CastOpcodes], [bitc::BinaryOpcodes], [bitc::RMWOperations],
    [bitc::AtomicOrderingCodes] and [bitc::AtomicSynchScopeCodes]. *)
Definition GetDecodedCastOpcode (Val : Z) : option Instruction.CastOps :=
  match uint32 Val with
  | 0 => Some Instruction.Trunc | 1 => Some Instruction.ZExt
  | 2 => Some Instruction.SExt | 3 => Some Instruction.FPToUI
  | 4 => Some Instruction.FPToSI | 5 => Some Instruction.UIToFP
  | 6 => Some Instruction.SIToFP | 7 => Some Instruction.FPTrunc
  | 8 => Some Instruction.FPExt | 9 => Some Instruction.PtrToInt
  | 10 => Some Instruction.IntToPtr | 11 => Some Instruction.BitCast
  | _ => None
  end.

Definition GetDecodedBinaryOpcode (Val : Z) (T : Ty)
  : option Instruction.BinaryOps :=
  let fp := isFPOrFPVectorTy T in
  match uint32 Val with
  | 0 => Some (if fp then Instruction.FAdd else Instruction.Add)
  | 1 => Some (if fp then Instruction.FSub else Instruction.Sub)
  | 2 => Some (if fp then Instruction.FMul else Instruction.Mul)
  | 3 => Some Instruction.UDiv
  | 4 => Some (if fp then Instruction.FDiv else Instruction.SDiv)
  | 5 => Some Instruction.URem
  | 6 => Some (if fp then Instruction.FRem else Instruction.SRem)
  | 7 => Some Instruction.Shl
  | 8 => Some Instruction.LShr
  | 9 => Some Instruction.AShr
  | 10 => Some Instruction.And
  | 11 => Some Instruction.Or
  | 12 => Some Instruction.Xor
  | _ => None
  end.

Definition GetDecodedRMWOperation (Val : Z) : AtomicRMWInst.BinOp :=
  match uint32 Val with
  | 0 => AtomicRMWInst.Xchg | 1 => AtomicRMWInst.Add
  | 2 => AtomicRMWInst.Sub | 3 => AtomicRMWInst.And
  | 4 => AtomicRMWInst.Nand | 5 => AtomicRMWInst.Or
  | 6 => AtomicRMWInst.Xor | 7 => AtomicRMWInst.Max
  | 8 => AtomicRMWInst.Min | 9 => AtomicRMWInst.UMax
  | 10 => AtomicRMWInst.UMin
  | _ => AtomicRMWInst.BAD_BINOP
  end.

Definition GetDecodedOrdering (Val : Z) : AtomicOrdering :=
  match uint32 Val with
  | 0 => NotAtomic
  | 1 => Unordered
  | 2 => Monotonic
  | 3 => Acquire
  | 4 => Release
  | 5 => AcquireRelease
  | _ => SequentiallyConsistent
  end.

Definition GetDecodedSynchScope (Val : Z) : SynchronizationScope :=
  match uint32 Val with
  | 0 => SingleThread
  | _ => CrossThread
  end.

(** The flag words of binary operators: bit [OBO_NO_UNSIGNED_WRAP] (0), bit
    [OBO_NO_SIGNED_WRAP] (1) and bit [PEO_EXACT] (0). *)
Definition isOverflowingBinOp (Opc : Instruction.BinaryOps) : bool :=
  match Opc with
  | Instruction.Add | Instruction.Sub | Instruction.Mul | Instruction.Shl => true
  | _ => false
  end.
Definition isPossiblyExactBinOp (Opc : Instruction.BinaryOps) : bool :=
  match Opc with
  | Instruction.SDiv | Instruction.UDiv | Instruction.LShr | Instruction.AShr => true
  | _ => false
  end.
Definition binopFlags (Opc : Instruction.BinaryOps) (Flags : option Z)
  : bool * bool * bool :=
  match Flags with
  | None => (false, false, false)
  | Some w =>
      if isOverflowingBinOp Opc then (Z.testbit w 1, Z.testbit w 0, false)
      else if isPossiblyExactBinOp Opc then (false, false, Z.testbit w 0)
      else (false, false, false)
  end.

(** ** Casts on types *)

(** [cast<PointerType>(T)->getElementType()] and the like: undefined when
    [T] is of another class. *)
Definition PointerType_getElementType (T : Ty) : M Ty :=
  match T with PointerTy E _ => ret E | _ => undefined end.
Definition SequentialType_getElementType_Vector (T : Ty) : M Ty :=
  match T with VectorTy E _ => ret E | _ => undefined end.
Definition ArrayType_getElementType (T : Ty) : M Ty :=
  match T with ArrayTy E _ => ret E | _ => undefined end.

(** [STy->getElementType(i)]. *)
Definition StructType_getElementType (T : Ty) (i : Z) : M Ty :=
  match T with
  | LiteralStructTy Elts _ => at_ Elts i
  | IdentifiedStructTy n =>
      do si <- bind (get (fun R => StructTypes R !! n)) deref;
      match StructBody si with
      | Some (Elts, _) => at_ Elts i
      | None => undefined
      end
  | _ => undefined
  end.

(** [dyn_cast<ConstantInt>]. *)
Definition isaConstantInt (V : Value) : bool :=
  match V with ConstantInt _ _ | ConstantWideInt _ _ => true | _ => false end.

(** The characters [Record[Start], ..., Record[Start+N-1]]. *)
Definition recordChars (Record : list Z) (Start N : Z) : M Str :=
  if (0 <=? Start) && (0 <=? N) && (Start + N <=? size Record)
  then ret (map (fun c => c mod 256)
                (take (Z.to_nat N) (drop (Z.to_nat Start) Record)))
  else undefined.

(** [x <- m; if (!x) return Error(e)]. *)
Definition orError {A} (e : BitcodeError) (m : M (option A)) : M A :=
  do o <- m;
  match o with Some a => ret a | None => Error e end.

(** The global objects of the module live in a store; an erased object
    leaves an empty slot. *)
Definition newGlobal (G : GlobalObj) : M nat :=
  do n <- get (fun R => length (Globals R));
  modify (fun R => set_Globals (Globals R ++ [Some G]) R) ;;
  ret n.

Definition getGlobal (id : nat) : M GlobalObj :=
  bind (bind (get (fun R => Globals R !! id)) deref) deref.

(** A setter called on a global object. *)
Definition updGlobal (id : nat) (f : GlobalObj -> GlobalObj) : M unit :=
  do G <- getGlobal id;
  modify (fun R => set_Globals (<[id := Some (f G)]> (Globals R)) R).

(** ** The IR library as a collaborator *)

(** The types the IR library computes for the objects the reader asks it to
    build are not decided by the reader: they are parameters of the
    embedding. *)
Record Host : Type := mkHost {
  (** the type of a constant expression built from an operation and its
      operands *)
  ConstantExprType : ConstantExprOp -> list Value -> Ty;
  (** the type of an instruction *)
  InstType : Instruction -> Ty
}.

Section Reader.

Variable H : Host.

(** ** Constants blocks (BitcodeReader.cpp:1558) *)

(** [ReadWideAPInt]: the words of the value. *)
Definition ReadWideAPInt (Vals : list Z) : list Z :=
  map decodeSignRotatedValue Vals.

(** The loops [for (i = 0; i != Size; ++i)
    Elts.push_back(ValueList.getConstantFwdRef(Record[i], EltTy(i)))]. *)
Fixpoint readConstantFwdRefs (EltTy : Z -> M Ty) (i : Z) (IDs : list Z)
  : M (list Value) :=
  match IDs with
  | [] => ret []
  | ID :: IDs' =>
      do T <- EltTy i;
      do V <- getConstantFwdRef ID T;
      do Vs <- readConstantFwdRefs EltTy (i + 1) IDs';
      ret (V :: Vs)
  end.

(** The loop of CE_GEP over the (type, value) pairs of the record. *)
Fixpoint readTypedConstants (Record : list Z) : M (list Value) :=
  match Record with
  | TyID :: ValID :: Record' =>
      do ElTy <- orError InvalidRecord (getTypeByID TyID);
      do V <- getConstantFwdRef ValID ElTy;
      do Vs <- readTypedConstants Record';
      ret (V :: Vs)
  | _ => ret []
  end.

Definition mkConstantExpr (Op : ConstantExprOp) (Ops : list Value) : Value :=
  ConstantExpr Op Ops (ConstantExprType H Op Ops).

(** The switch over the code of a constants record: [inl CurTy'] is the
    [continue] of SETTYPE, [inr V] a [break] with the constant read. *)
Definition ParseConstants_record (Code : Z) (Record : list Z)
    (CurTy : option Ty) : M (option Ty + Value) :=
  match bitc.ConstantsCodes_of Code with
  | Some bitc.CST_CODE_SETTYPE =>
      if size Record =? 0 then Error InvalidRecord
      else
        do R0 <- at_ Record 0;
        do sz <- get (fun R => size (TypeList R));
        if sz <=? R0 then Error InvalidRecord
        else
          do T <- bind (get TypeList) (fun l => at_ l R0);
          ret (inl T)
  | Some bitc.CST_CODE_NULL =>
      do CurTy <- deref CurTy; ret (inr (NullValue CurTy))
  | Some bitc.CST_CODE_INTEGER =>
      do CurTy <- deref CurTy;
      if negb (isIntegerTy CurTy) || (size Record =? 0) then Error InvalidRecord
      else
        do R0 <- at_ Record 0;
        ret (inr (ConstantInt CurTy (decodeSignRotatedValue R0)))
  | Some bitc.CST_CODE_WIDE_INTEGER =>
      do CurTy <- deref CurTy;
      if negb (isIntegerTy CurTy) || (size Record =? 0) then Error InvalidRecord
      else ret (inr (ConstantWideInt CurTy (ReadWideAPInt Record)))
  | Some bitc.CST_CODE_FLOAT =>
      if size Record =? 0 then Error InvalidRecord
      else
        do CurTy <- deref CurTy;
        do R0 <- at_ Record 0;
        match CurTy with
        | HalfTy => ret (inr (ConstantFP CurTy [R0 mod 2 ^ 16]))
        | FloatTy => ret (inr (ConstantFP CurTy [R0 mod 2 ^ 32]))
        | DoubleTy => ret (inr (ConstantFP CurTy [R0]))
        | X86_FP80Ty =>
            do R1 <- at_ Record 1;
            ret (inr (ConstantFP CurTy
                        [Z.lor (Z.land R1 65535) (uint64 (Z.shiftl R0 16));
                         Z.shiftr R0 48]))
        | FP128Ty | PPC_FP128Ty => ret (inr (ConstantFP CurTy Record))
        | _ => ret (inr (UndefValue CurTy))
        end
  | Some bitc.CST_CODE_AGGREGATE =>
      if size Record =? 0 then Error InvalidRecord
      else
        do CurTy <- deref CurTy;
        match CurTy with
        | LiteralStructTy _ _ | IdentifiedStructTy _ =>
            do Elts <- readConstantFwdRefs
                         (StructType_getElementType CurTy) 0 Record;
            ret (inr (ConstantStruct CurTy Elts))
        | ArrayTy EltTy _ =>
            do Elts <- readConstantFwdRefs (fun _ => ret EltTy) 0 Record;
            ret (inr (ConstantArray CurTy Elts))
        | VectorTy EltTy _ =>
            do Elts <- readConstantFwdRefs (fun _ => ret EltTy) 0 Record;
            ret (inr (ConstantVector Elts))
        | _ => ret (inr (UndefValue CurTy))
        end
  | Some bitc.CST_CODE_STRING =>
      if size Record =? 0 then Error InvalidRecord
      else
        do CurTy <- deref CurTy;
        do EltTy <- ArrayType_getElementType CurTy;
        ret (inr (ConstantArray CurTy (map (ConstantInt EltTy) Record)))
  | Some bitc.CST_CODE_CSTRING =>
      if size Record =? 0 then Error InvalidRecord
      else
        do CurTy <- deref CurTy;
        do EltTy <- ArrayType_getElementType CurTy;
        ret (inr (ConstantArray CurTy
                    (map (ConstantInt EltTy) Record ++ [NullValue EltTy])))
  | Some bitc.CST_CODE_CE_BINOP =>
      if size Record <? 3 then Error InvalidRecord
      else
        do CurTy <- deref CurTy;
        do R0 <- at_ Record 0;
        match GetDecodedBinaryOpcode R0 CurTy with
        | None => ret (inr (UndefValue CurTy))
        | Some Opc =>
            do R1 <- at_ Record 1;
            do R2 <- at_ Record 2;
            do LHS <- getConstantFwdRef R1 CurTy;
            do RHS <- getConstantFwdRef R2 CurTy;
            let '(NSW, NUW, Exact) := binopFlags Opc (Record !! 3%nat) in
            ret (inr (mkConstantExpr (CE_Binary Opc NSW NUW Exact) [LHS; RHS]))
        end
  | Some bitc.CST_CODE_CE_CAST =>
      if size Record <? 3 then Error InvalidRecord
      else
        do R0 <- at_ Record 0;
        match GetDecodedCastOpcode R0 with
        | None => do CurTy <- deref CurTy; ret (inr (UndefValue CurTy))
        | Some Opc =>
            do R1 <- at_ Record 1;
            do R2 <- at_ Record 2;
            do OpTy <- orError InvalidRecord (getTypeByID R1);
            do Op <- getConstantFwdRef R2 OpTy;
            do CurTy <- deref CurTy;
            ret (inr (ConstantExpr (CE_Cast Opc) [Op] CurTy))
        end
  | Some bitc.CST_CODE_CE_INBOUNDS_GEP | Some bitc.CST_CODE_CE_GEP =>
      if Z.odd (size Record) then Error InvalidRecord
      else
        do Elts <- readTypedConstants Record;
        match Elts with
        | [] => undefined
        | _ =>
            ret (inr (mkConstantExpr
                        (CE_GetElementPtr
                           (match bitc.ConstantsCodes_of Code with
                            | Some bitc.CST_CODE_CE_INBOUNDS_GEP => true
                            | _ => false
                            end)) Elts))
        end
  | Some bitc.CST_CODE_CE_SELECT =>
      if size Record <? 3 then Error InvalidRecord
      else
        do R0 <- at_ Record 0;
        do R1 <- at_ Record 1;
        do R2 <- at_ Record 2;
        do C <- getConstantFwdRef R0 Int1Ty;
        do CurTy <- deref CurTy;
        do V1 <- getConstantFwdRef R1 CurTy;
        do V2 <- getConstantFwdRef R2 CurTy;
        ret (inr (mkConstantExpr CE_Select [C; V1; V2]))
  | Some bitc.CST_CODE_CE_EXTRACTELT =>
      if size Record <? 3 then Error InvalidRecord
      else
        do R0 <- at_ Record 0;
        do R1 <- at_ Record 1;
        do R2 <- at_ Record 2;
        do OpTy <- getTypeByID R0;
        match OpTy with
        | Some (VectorTy E n) =>
            do Op0 <- getConstantFwdRef R1 (VectorTy E n);
            do Op1 <- getConstantFwdRef R2 Int32Ty;
            ret (inr (mkConstantExpr CE_ExtractElement [Op0; Op1]))
        | _ => Error InvalidRecord
        end
  | Some bitc.CST_CODE_CE_INSERTELT =>
      do CurTy <- deref CurTy;
      match CurTy with
      | VectorTy E _ =>
          if size Record <? 3 then Error InvalidRecord
          else
            do R0 <- at_ Record 0;
            do R1 <- at_ Record 1;
            do R2 <- at_ Record 2;
            do Op0 <- getConstantFwdRef R0 CurTy;
            do Op1 <- getConstantFwdRef R1 E;
            do Op2 <- getConstantFwdRef R2 Int32Ty;
            ret (inr (mkConstantExpr CE_InsertElement [Op0; Op1; Op2]))
      | _ => Error InvalidRecord
      end
  | Some bitc.CST_CODE_CE_SHUFFLEVEC =>
      do CurTy <- deref CurTy;
      match CurTy with
      | VectorTy _ n =>
          if size Record <? 3 then Error InvalidRecord
          else
            do R0 <- at_ Record 0;
            do R1 <- at_ Record 1;
            do R2 <- at_ Record 2;
            do Op0 <- getConstantFwdRef R0 CurTy;
            do Op1 <- getConstantFwdRef R1 CurTy;
            do Op2 <- getConstantFwdRef R2 (VectorTy Int32Ty n);
            ret (inr (mkConstantExpr CE_ShuffleVector [Op0; Op1; Op2]))
      | _ => Error InvalidRecord
      end
  | Some bitc.CST_CODE_CE_SHUFVEC_EX =>
      do CurTy <- deref CurTy;
      do R0 <- at_ Record 0;
      do OpTy <- getTypeByID R0;
      match CurTy, OpTy with
      | VectorTy _ n, Some (VectorTy E m) =>
          if size Record <? 4 then Error InvalidRecord
          else
            do R1 <- at_ Record 1;
            do R2 <- at_ Record 2;
            do R3 <- at_ Record 3;
            do Op0 <- getConstantFwdRef R1 (VectorTy E m);
            do Op1 <- getConstantFwdRef R2 (VectorTy E m);
            do Op2 <- getConstantFwdRef R3 (VectorTy Int32Ty n);
            ret (inr (mkConstantExpr CE_ShuffleVector [Op0; Op1; Op2]))
      | _, _ => Error InvalidRecord
      end
  | Some bitc.CST_CODE_CE_CMP =>
      if size Record <? 4 then Error InvalidRecord
      else
        do R0 <- at_ Record 0;
        do R1 <- at_ Record 1;
        do R2 <- at_ Record 2;
        do R3 <- at_ Record 3;
        do OpTy <- orError InvalidRecord (getTypeByID R0);
        do Op0 <- getConstantFwdRef R1 OpTy;
        do Op1 <- getConstantFwdRef R2 OpTy;
        if isFPOrFPVectorTy OpTy
        then ret (inr (mkConstantExpr (CE_FCmp R3) [Op0; Op1]))
        else ret (inr (mkConstantExpr (CE_ICmp R3) [Op0; Op1]))
  | Some bitc.CST_CODE_INLINEASM =>
      if size Record <? 2 then Error InvalidRecord
      else
        do R0 <- at_ Record 0;
        do R1 <- at_ Record 1;
        let HasSideEffects := Z.testbit R0 0 in
        let IsAlignStack := nonzero (Z.shiftr R0 1) in
        let AsmStrSize := uint32 R1 in
        if size Record <=? uint32 (2 + AsmStrSize) then Error InvalidRecord
        else
          do ConstStrSize <- at_ Record (uint32 (2 + AsmStrSize));
          let ConstStrSize := uint32 ConstStrSize in
          if size Record <? uint32 (3 + AsmStrSize + ConstStrSize)
          then Error InvalidRecord
          else
            do AsmStr <- recordChars Record 2 AsmStrSize;
            do ConstrStr <- recordChars Record (uint32 (3 + AsmStrSize))
                              ConstStrSize;
            do CurTy <- deref CurTy;
            do FTy <- PointerType_getElementType CurTy;
            match FTy with
            | FunctionTy _ _ _ =>
                ret (inr (InlineAsm CurTy AsmStr ConstrStr HasSideEffects
                            IsAlignStack))
            | _ => undefined
            end
  | Some bitc.CST_CODE_BLOCKADDRESS =>
      if size Record <? 3 then Error InvalidRecord
      else
        do R0 <- at_ Record 0;
        do R1 <- at_ Record 1;
        do R2 <- at_ Record 2;
        do FnTy <- orError InvalidRecord (getTypeByID R0);
        do Fn <- getConstantFwdRef R1 FnTy;
        match Fn with
        | Function Fn _ =>
            do FwdRef <- newGlobal
              (mkGlobalObj GK_Variable Int8Ty 0 [] GlobalValue.InternalLinkage
                 GlobalValue.DefaultVisibility 0 [] false false
                 GlobalValue.NotThreadLocal None 0 [] None [] []);
            modify (fun R => set_BlockAddrFwdRefs
              (<[Fn := default [] (BlockAddrFwdRefs R !! Fn)
                         ++ [(uint32 R2, FwdRef)]]> (BlockAddrFwdRefs R)) R) ;;
            ret (inr (GlobalVariable FwdRef (PointerTy Int8Ty 0)))
        | _ => Error InvalidRecord
        end
  | _ =>
      (* default: unknown constant, and CST_CODE_UNDEF *)
      do CurTy <- deref CurTy; ret (inr (UndefValue CurTy))
  end.

(** The loop of [ParseConstants], driven by [advanceSkippingSubblocks]. *)
Fixpoint ParseConstants_loop (es : list Entry) (endFails : bool)
    (CurTy : option Ty) (NextCstNo : Z) : M unit :=
  match es with
  | [] =>
      if endFails then Error MalformedBlock
      else
        do sz <- get (fun R => size (ValueList R));
        if negb (NextCstNo =? sz) then Error InvalidConstantReference
        else ResolveConstantForwardRefs
  | ESubBlock _ B :: es' =>
      if B_skipFails B then Error MalformedBlock
      else ParseConstants_loop es' endFails CurTy NextCstNo
  | EDefineAbbrev :: es' => ParseConstants_loop es' endFails CurTy NextCstNo
  | ERecord Code Record :: es' =>
      do r <- ParseConstants_record Code Record CurTy;
      match r with
      | inl CurTy' => ParseConstants_loop es' endFails CurTy' NextCstNo
      | inr V =>
          AssignValue V NextCstNo ;;
          ParseConstants_loop es' endFails CurTy (uint32 (NextCstNo + 1))
      end
  end.

Definition ParseConstants (B : Block) : M unit :=
  if B_enterFails B then Error InvalidRecord
  else
    do NextCstNo <- get (fun R => size (ValueList R));
    ParseConstants_loop (B_entries B) (B_endFails B) (Some Int32Ty) NextCstNo.

(** ** Helpers declared in BitcodeReader.h *)

(** Modelled from the spec: [getFnValueByID], declared in BitcodeReader.h
    (not part of src).  A value id is looked up in the value table, or in the
    metadata table when the expected type is the metadata type (spec 4.1,
    4.5). *)
Definition getFnValueByID (ID : Z) (T : option Ty) : M (option Value) :=
  match T with
  | Some MetadataTy =>
      do V <- MDValueList_getValueFwdRef ID; ret (Some V)
  | _ => getValueFwdRef ID T
  end.

(** Modelled from the spec: [getBasicBlock], declared in BitcodeReader.h
    (not part of src).  The basic-block list of the function is addressed by
    index (spec 3); an index out of its range gives no block. *)
Definition getBasicBlock (ID : Z) : M (option nat) :=
  let ID := uint32 ID in
  do BBs <- get FunctionBBs;
  if size BBs <=? ID then ret None else at_ BBs ID.

(** Modelled from the spec: [getAttributes], declared in BitcodeReader.h
    (not part of src).  Attribute sets are numbered from 1 in the records
    (param-attr-set-index, spec 4.4); 0 and unknown numbers give the empty
    set. *)
Definition getAttributes (i : Z) : M AttributeSet :=
  let i := uint32 i in
  do As <- get MAttributes;
  if uint32 (i - 1) <? size As then at_ As (uint32 (i - 1)) else ret [].

(** Modelled from the spec: [getValueTypePair], declared in BitcodeReader.h
    (not part of src).  "Reads a value-id; if the id is >= nextValueNo
    (forward reference within the function), a type-id follows in the next
    record slot and is used to create a placeholder" (spec 4.5).  The result
    is [None] on failure, else the value and the slot after the ones read. *)
Definition getValueTypePair (Record : list Z) (Slot : Z) (InstNum : Z)
  : M (option (Value * Z)) :=
  if Slot =? size Record then ret None
  else
    do ValNo <- at_ Record Slot;
    let ValNo := uint32 ValNo in
    let Slot := uint32 (Slot + 1) in
    if ValNo <? InstNum then
      do ResVal <- getFnValueByID ValNo None;
      ret (option_map (fun V => (V, Slot)) ResVal)
    else if Slot =? size Record then ret None
    else
      do TypeNo <- at_ Record Slot;
      let Slot := uint32 (Slot + 1) in
      do T <- getTypeByID TypeNo;
      do ResVal <- getFnValueByID ValNo T;
      ret (option_map (fun V => (V, Slot)) ResVal).

(** Modelled from the spec: [getValue], declared in BitcodeReader.h (not part
    of src).  "Reads a value-id with externally known type" (spec 4.5). *)
Definition getValue (Record : list Z) (Slot : Z) (T : Ty)
  : M (option (Value * Z)) :=
  if Slot =? size Record then ret None
  else
    do ValNo <- at_ Record Slot;
    let Slot := uint32 (Slot + 1) in
    do ResVal <- getFnValueByID ValNo (Some T);
    ret (option_map (fun V => (V, Slot)) ResVal).

(** Modelled from the spec: [BitcodeReaderValueList::shrinkTo], declared in
    BitcodeReader.h (not part of src): [shrink_to(n)] truncates the table to
    its first [n] slots (spec 4.1, 4.5). *)
Definition ValueList_shrinkTo (N : Z) : M unit :=
  modify (fun R => set_ValueList (vresize N (ValueList R)) R).

(** Modelled from the spec: [BitcodeReaderMDValueList::shrinkTo], declared in
    BitcodeReader.h (not part of src); as [ValueList_shrinkTo]. *)
Definition MDValueList_shrinkTo (N : Z) : M unit :=
  modify (fun R => set_MDValueList (vresize N (MDValueList R)) R).

(** ** Names (IR library) *)

Definition setAt {A} (d : A) (i : nat) (x : A) (l : list A) : list A :=
  <[i := x]> (resize (Nat.max (S i) (length l)) d l).

(** [V->setName(Name)].  Constants and metadata carry no name. *)
Definition Value_setName (V : Value) (Name : Str) : M unit :=
  match V with
  | InstructionV id _ =>
      do I <- bind (bind (get (fun R => Insts R !! id)) deref) deref;
      modify (fun R => set_Insts
        (<[id := Some (mkInstObj (I_inst I) (I_type I) Name (I_dbgloc I)
                         (I_metadata I))]> (Insts R)) R)
  | GlobalVariable id _ | Function id _ | GlobalAlias id _ =>
      updGlobal id (set_G_name Name)
  | Argument (Some F) i _ =>
      updGlobal F (fun G => set_G_argnames (setAt [] i Name (G_argnames G)) G)
  | BasicBlock id =>
      do BB <- bind (get (fun R => Blocks R !! id)) deref;
      modify (fun R => set_Blocks
        (<[id := mkBasicBlockObj (BB_parent BB) Name (BB_insts BB)]>
           (Blocks R)) R)
  | _ => ret tt
  end.

(** ** Value symbol tables (BitcodeReader.cpp:1290) *)

Definition ParseValueSymbolTable_record (Code : Z) (Record : list Z)
  : M unit :=
  match bitc.ValueSymtabCodes_of Code with
  | Some bitc.VST_CODE_ENTRY =>
      match ConvertToString Record 1 [] with
      | None => Error InvalidRecord
      | Some ValueName =>
          do R0 <- at_ Record 0;
          let ValueID := uint32 R0 in
          do sz <- get (fun R => size (ValueList R));
          if sz <=? ValueID then Error InvalidRecord
          else
            do V <- bind (bind (get ValueList) (fun l => at_ l ValueID)) deref;
            Value_setName V ValueName
      end
  | Some bitc.VST_CODE_BBENTRY =>
      match ConvertToString Record 1 [] with
      | None => Error InvalidRecord
      | Some ValueName =>
          do R0 <- at_ Record 0;
          do BB <- orError InvalidRecord (getBasicBlock R0);
          Value_setName (BasicBlock BB) ValueName
      end
  | None => ret tt  (* default: unknown type *)
  end.

Fixpoint ParseValueSymbolTable_loop (es : list Entry) (endFails : bool)
  : M unit :=
  match es with
  | [] => if endFails then Error MalformedBlock else ret tt
  | ESubBlock _ B :: es' =>
      if B_skipFails B then Error MalformedBlock
      else ParseValueSymbolTable_loop es' endFails
  | EDefineAbbrev :: es' => ParseValueSymbolTable_loop es' endFails
  | ERecord Code Record :: es' =>
      ParseValueSymbolTable_record Code Record ;;
      ParseValueSymbolTable_loop es' endFails
  end.

Definition ParseValueSymbolTable (B : Block) : M unit :=
  if B_enterFails B then Error InvalidRecord
  else ParseValueSymbolTable_loop (B_entries B) (B_endFails B).

(** ** The legacy type symbol table (BitcodeReader.cpp:1239) *)

Definition ParseOldTypeSymbolTable_record (Code : Z) (Record : list Z)
  : M unit :=
  match bitc.TypeSymtabCodes_of Code with
  | Some bitc.TST_CODE_ENTRY =>
      match ConvertToString Record 1 [] with
      | None => Error InvalidRecord
      | Some TypeName =>
          do R0 <- at_ Record 0;
          let TypeID := uint32 R0 in
          do sz <- get (fun R => size (TypeList R));
          if sz <=? TypeID then Error InvalidRecord
          else
            do T <- bind (bind (get TypeList) (fun l => at_ l TypeID)) deref;
            (* only a struct type that is not literal and has no name *)
            match T with
            | IdentifiedStructTy n =>
                do si <- bind (get (fun R => StructTypes R !! n)) deref;
                match StructName si with
                | [] => StructType_setName T TypeName
                | _ => ret tt
                end
            | _ => ret tt
            end
      end
  | None => ret tt  (* default: unknown type *)
  end.

Fixpoint ParseOldTypeSymbolTable_loop (es : list Entry) (endFails : bool)
  : M unit :=
  match es with
  | [] => if endFails then Error MalformedBlock else ret tt
  | ESubBlock _ B :: es' =>
      if B_skipFails B then Error MalformedBlock
      else ParseOldTypeSymbolTable_loop es' endFails
  | EDefineAbbrev :: es' => ParseOldTypeSymbolTable_loop es' endFails
  | ERecord Code Record :: es' =>
      ParseOldTypeSymbolTable_record Code Record ;;
      ParseOldTypeSymbolTable_loop es' endFails
  end.

Definition ParseOldTypeSymbolTable (B : Block) : M unit :=
  if B_enterFails B then Error MalformedBlock
  else ParseOldTypeSymbolTable_loop (B_entries B) (B_endFails B).

(** ** Metadata blocks (BitcodeReader.cpp:1350) *)

(** [TheModule->getMDKindID(Name)]: the number of the kind in the context,
    registered when new. *)
Fixpoint indexOf (Name : Str) (l : list Str) (i : Z) : option Z :=
  match l with
  | [] => None
  | Nm :: l' =>
      if bool_decide (Nm = Name) then Some i else indexOf Name l' (i + 1)
  end.

Definition getMDKindID (Name : Str) : M Z :=
  do Names <- get MDKindNames;
  match indexOf Name Names 0 with
  | Some i => ret i
  | None =>
      modify (set_MDKindNames (Names ++ [Name])) ;;
      ret (size Names)
  end.

(** [TheModule->getOrInsertNamedMetadata(Name)], then [addOperand]. *)
Fixpoint NamedMetadata_add (Name : Str) (Ops : list Value)
    (l : list (Str * list Value)) : list (Str * list Value) :=
  match l with
  | [] => [(Name, Ops)]
  | (Nm, Os) :: l' =>
      if bool_decide (Nm = Name) then (Nm, Os ++ Ops) :: l'
      else (Nm, Os) :: NamedMetadata_add Name Ops l'
  end.

(** The operands of a named node, until one is not a node. *)
Fixpoint readNamedNodeOperands (IDs : list Z) : M (list Value * bool) :=
  match IDs with
  | [] => ret ([], true)
  | ID :: IDs' =>
      do MD <- MDValueList_getValueFwdRef ID;
      if isaMDNode MD then
        do '(Ops, ok) <- readNamedNodeOperands IDs';
        ret (MD :: Ops, ok)
      else ret ([], false)
  end.

(** The elements of a node: (type, value) pairs. *)
Fixpoint readNodeElements (Record : list Z) : M (list (option Value)) :=
  match Record with
  | TyID :: ValID :: Record' =>
      do T <- orError InvalidRecord (getTypeByID TyID);
      do E <- (if isMetadataTy T then
                 do V <- MDValueList_getValueFwdRef ValID; ret (Some V)
               else if negb (isVoidTy T) then getValueFwdRef ValID (Some T)
               else ret None);
      do Es <- readNodeElements Record';
      ret (E :: Es)
  | _ => ret []
  end.

(** The switch over the code of a metadata record.  METADATA_NAME reads the
    record that follows it in the stream: [Next] is that entry. *)
Definition ParseMetadata_record (Code : Z) (Record : list Z)
    (Next : option Entry) (NextMDValueNo : Z) : M Z :=
  match bitc.MetadataCodes_of Code with
  | Some bitc.METADATA_NAME =>
      let Name := map (fun c => c mod 256) Record in
      match Next with
      | Some (ERecord _ Record) =>
          modify (fun R => set_NamedMetadata
                    (NamedMetadata_add Name [] (NamedMetadata R)) R) ;;
          do '(Ops, ok) <- readNamedNodeOperands Record;
          modify (fun R => set_NamedMetadata
                    (NamedMetadata_add Name Ops (NamedMetadata R)) R) ;;
          if (ok : bool) then ret NextMDValueNo else Error InvalidRecord
      | _ => undefined
      end
  | Some bitc.METADATA_FN_NODE | Some bitc.METADATA_NODE =>
      if Z.odd (size Record) then Error InvalidRecord
      else
        do Elts <- readNodeElements Record;
        let IsFunctionLocal :=
          match bitc.MetadataCodes_of Code with
          | Some bitc.METADATA_FN_NODE => true
          | _ => false
          end in
        MDValueList_AssignValue (MDNode Elts IsFunctionLocal) NextMDValueNo ;;
        ret (uint32 (NextMDValueNo + 1))
  | Some bitc.METADATA_STRING =>
      MDValueList_AssignValue (MDString (map (fun c => c mod 256) Record))
        NextMDValueNo ;;
      ret (uint32 (NextMDValueNo + 1))
  | Some bitc.METADATA_KIND =>
      if size Record <? 2 then Error InvalidRecord
      else
        do R0 <- at_ Record 0;
        let Kind := uint32 R0 in
        do NewKind <- getMDKindID (map (fun c => c mod 256) (drop 1 Record));
        do old <- get (fun R => MDKindMap R !! Kind);
        match old with
        | Some _ => Error ConflictingMETADATA_KINDRecords
        | None =>
            modify (fun R => set_MDKindMap (<[Kind := NewKind]> (MDKindMap R)) R) ;;
            ret NextMDValueNo
        end
  | _ => ret NextMDValueNo  (* default: ignore *)
  end.

Fixpoint ParseMetadata_loop (es : list Entry) (endFails : bool)
    (NextMDValueNo : Z) : M unit :=
  match es with
  | [] => if endFails then Error MalformedBlock else ret tt
  | ESubBlock _ B :: es' =>
      if B_skipFails B then Error MalformedBlock
      else ParseMetadata_loop es' endFails NextMDValueNo
  | EDefineAbbrev :: es' => ParseMetadata_loop es' endFails NextMDValueNo
  | ERecord Code Record :: es' =>
      match bitc.MetadataCodes_of Code, es' with
      | Some bitc.METADATA_NAME, Next :: es'' =>
          do n <- ParseMetadata_record Code Record (Some Next) NextMDValueNo;
          ParseMetadata_loop es'' endFails n
      | _, _ =>
          do n <- ParseMetadata_record Code Record None NextMDValueNo;
          ParseMetadata_loop es' endFails n
      end
  end.

Definition ParseMetadata (B : Block) : M unit :=
  do NextMDValueNo <- get (fun R => size (MDValueList R));
  if B_enterFails B then Error InvalidRecord
  else ParseMetadata_loop (B_entries B) (B_endFails B) NextMDValueNo.

(** ** Metadata attachments (BitcodeReader.cpp:2376) *)

(** The (kind, node) pairs of an attachment record, from index 1. *)
Fixpoint readAttachments (Pairs : list Z) : M (list (Z * Value)) :=
  match Pairs with
  | Kind :: NodeID :: Pairs' =>
      do K <- orError InvalidID (get (fun R => MDKindMap R !! uint32 Kind));
      do Node <- MDValueList_getValueFwdRef NodeID;
      if isaMDNode Node then
        do As <- readAttachments Pairs';
        ret ((K, Node) :: As)
      else undefined
  | _ => ret []
  end.

Definition ParseMetadataAttachment_record (Code : Z) (Record : list Z)
  : M unit :=
  match bitc.MetadataCodes_of Code with
  | Some bitc.METADATA_ATTACHMENT =>
      if (size Record =? 0) || Z.odd (size Record - 1) then Error InvalidRecord
      else
        do R0 <- at_ Record 0;
        do Inst <- bind (get InstructionList) (fun l => at_ l R0);
        do I <- bind (bind (get (fun R => Insts R !! Inst)) deref) deref;
        do As <- readAttachments (drop 1 Record);
        do I <- bind (bind (get (fun R => Insts R !! Inst)) deref) deref;
        modify (fun R => set_Insts
          (<[Inst := Some (mkInstObj (I_inst I) (I_type I) (I_name I)
                             (I_dbgloc I) (I_metadata I ++ As))]> (Insts R)) R)
  | _ => ret tt  (* default: ignore *)
  end.

Fixpoint ParseMetadataAttachment_loop (es : list Entry) (endFails : bool)
  : M unit :=
  match es with
  | [] => if endFails then Error MalformedBlock else ret tt
  | ESubBlock _ B :: es' =>
      if B_skipFails B then Error MalformedBlock
      else ParseMetadataAttachment_loop es' endFails
  | EDefineAbbrev :: es' => ParseMetadataAttachment_loop es' endFails
  | ERecord Code Record :: es' =>
      ParseMetadataAttachment_record Code Record ;;
      ParseMetadataAttachment_loop es' endFails
  end.

Definition ParseMetadataAttachment (B : Block) : M unit :=
  if B_enterFails B then Error InvalidRecord
  else ParseMetadataAttachment_loop (B_entries B) (B_endFails B).

(** ** Function bodies (BitcodeReader.cpp:2421) *)

(** The locals of [ParseFunctionBody] that live across records. *)
Record FnLocals : Type := mkFnLocals {
  NextValueNo : Z;
  CurBB : option nat;
  CurBBNo : Z;
  LastLoc : option DebugLoc
}.

(** The characters of a string literal. *)
Definition chars (s : string) : Str :=
  map (fun a => Z.of_N (Ascii.N_of_ascii a)) (String.list_ascii_of_string s).

(** [new XInst(...)] / [XInst::Create(...)]: a new instruction object. *)
Definition newInst (I : Instruction) : M nat :=
  do n <- get (fun R => length (Insts R));
  modify (fun R => set_Insts
            (Insts R ++ [Some (mkInstObj I (InstType H I) [] None [])]) R) ;;
  ret n.

Definition deleteInst (I : nat) : M unit :=
  modify (fun R => set_Insts (<[I := None]> (Insts R)) R).

Definition getInst (I : nat) : M InstObj :=
  bind (bind (get (fun R => Insts R !! I)) deref) deref.

Definition InstructionList_push_back (I : nat) : M unit :=
  modify (fun R => set_InstructionList (InstructionList R ++ [I]) R).

(** [I = new XInst(...); InstructionList.push_back(I);] *)
Definition emit (I : Instruction) : M nat :=
  do n <- newInst I;
  InstructionList_push_back n ;;
  ret n.

(** [BB->getInstList().push_back(I)]. *)
Definition BasicBlock_push_back (BB I : nat) : M unit :=
  do B <- bind (get (fun R => Blocks R !! BB)) deref;
  modify (fun R => set_Blocks
    (<[BB := mkBasicBlockObj (BB_parent B) (BB_name B) (BB_insts B ++ [I])]>
       (Blocks R)) R).

(** [I->setDebugLoc(Loc)]. *)
Definition Instruction_setDebugLoc (I : nat) (Loc : option DebugLoc) : M unit :=
  do O <- getInst I;
  modify (fun R => set_Insts
    (<[I := Some (mkInstObj (I_inst O) (I_type O) (I_name O) Loc
                    (I_metadata O))]> (Insts R)) R).

(** The value a global object of the module is. *)
Definition globalValue (id : nat) (G : GlobalObj) : Value :=
  match G_kind G with
  | GK_Variable => GlobalVariable id (PointerTy (G_valty G) (G_addrspace G))
  | GK_Function => Function id (PointerTy (G_valty G) (G_addrspace G))
  | GK_Alias => GlobalAlias id (PointerTy (G_valty G) (G_addrspace G))
  end.

Fixpoint getNamedValue (Name : Str) (Gs : list (option GlobalObj)) (i : nat)
  : option Value :=
  match Gs with
  | [] => None
  | Some G :: Gs' =>
      if bool_decide (G_name G = Name) then Some (globalValue i G)
      else getNamedValue Name Gs' (S i)
  | None :: Gs' => getNamedValue Name Gs' (S i)
  end.

(** [Module::getOrInsertFunction(Name, FTy)] (IR library). *)
Definition getOrInsertFunction (Name : Str) (FTy : Ty) : M Value :=
  do Gs <- get Globals;
  match getNamedValue Name Gs 0 with
  | None =>
      do id <- newGlobal
        (mkGlobalObj GK_Function FTy 0 Name GlobalValue.ExternalLinkage
           GlobalValue.DefaultVisibility 0 [] false false
           GlobalValue.NotThreadLocal None 0 [] None [] []);
      ret (Function id (PointerTy FTy 0))
  | Some F =>
      if Ty_eqb (getType F) (PointerTy FTy 0) then ret F
      else ret (ConstantExpr (CE_Cast Instruction.BitCast) [F] (PointerTy FTy 0))
  end.

(** The most recently emitted instruction, for the debug-location records. *)
Definition lastInstruction (L : FnLocals) : M (option nat) :=
  do cur <- match CurBB L with
            | Some BB =>
                do B <- bind (get (fun R => Blocks R !! BB)) deref;
                ret (last (BB_insts B))
            | None => ret None
            end;
  match cur with
  | Some Inst => ret (Some Inst)
  | None =>
      if nonzero (CurBBNo L) then
        do Prev <- bind (get FunctionBBs) (fun l => at_ l (CurBBNo L - 1));
        match Prev with
        | Some BB =>
            do B <- bind (get (fun R => Blocks R !! BB)) deref;
            ret (last (BB_insts B))
        | None => ret None
        end
      else ret None
  end.

(** The loops [while (OpNum != Record.size()) { getValueTypePair(...);
    push_back(Op); }].  Every round takes at least one slot, so [n] rounds
    are enough for a record with [n] slots left. *)
Fixpoint readValueTypePairs (n : nat) (Record : list Z) (OpNum : Z)
    (InstNum : Z) : M (list Value) :=
  match n with
  | O => ret []
  | S n' =>
      if OpNum =? size Record then ret []
      else
        do '(Op, OpNum) <- orError InvalidRecord
                             (getValueTypePair Record OpNum InstNum);
        do Ops <- readValueTypePairs n' Record OpNum InstNum;
        ret (Op :: Ops)
  end.

(** The index loops of EXTRACTVAL and INSERTVAL. *)
Fixpoint readIndices (Idx : list Z) : M (list Z) :=
  match Idx with
  | [] => ret []
  | Index :: Idx' =>
      if negb (uint32 Index =? Index) then Error InvalidValue
      else do Is <- readIndices Idx'; ret (Index :: Is)
  end.

(** The case loop of SWITCH: the cases read, and whether all were valid. *)
Fixpoint readSwitchCases (OpTy : Ty) (Record : list Z)
  : M (list (Value * nat) * bool) :=
  match Record with
  | ValID :: BBID :: Record' =>
      do CaseVal <- getFnValueByID ValID (Some OpTy);
      do DestBB <- getBasicBlock BBID;
      match CaseVal, DestBB with
      | Some V, Some BB =>
          if isaConstantInt V then
            do '(Cs, ok) <- readSwitchCases OpTy Record';
            ret ((V, BB) :: Cs, ok)
          else ret ([], false)
      | _, _ => ret ([], false)
      end
  | _ => ret ([], true)
  end.

Fixpoint readDestinations (IDs : list Z) : M (list nat * bool) :=
  match IDs with
  | [] => ret ([], true)
  | ID :: IDs' =>
      do DestBB <- getBasicBlock ID;
      match DestBB with
      | Some BB =>
          do '(Ds, ok) <- readDestinations IDs';
          ret (BB :: Ds, ok)
      | None => ret ([], false)
      end
  end.

(** The incoming pairs of PHI. *)
Fixpoint readIncoming (T : Ty) (Record : list Z)
  : M (list (Value * nat) * bool) :=
  match Record with
  | ValID :: BBID :: Record' =>
      do V <- getFnValueByID ValID (Some T);
      do BB <- getBasicBlock BBID;
      match V, BB with
      | Some V, Some BB =>
          do '(Is, ok) <- readIncoming T Record';
          ret ((V, BB) :: Is, ok)
      | _, _ => ret ([], false)
      end
  | _ => ret ([], true)
  end.

(** The fixed parameters of INVOKE and CALL. *)
Fixpoint readFixedParams (labelsAreBlocks : bool) (Params : list Ty)
    (Record : list Z) (OpNum : Z) : M (list Value * Z) :=
  match Params with
  | [] => ret ([], OpNum)
  | P :: Params' =>
      do ID <- at_ Record OpNum;
      do Arg <- (if labelsAreBlocks && isLabelTy P
                 then do BB <- getBasicBlock ID; ret (option_map BasicBlock BB)
                 else getFnValueByID ID (Some P));
      match Arg with
      | None => Error InvalidRecord
      | Some A =>
          do '(As, OpNum') <- readFixedParams labelsAreBlocks Params' Record
                                (uint32 (OpNum + 1));
          ret (A :: As, OpNum')
      end
  end.

(** The clauses of LANDINGPAD: the clauses read, the slot reached, and
    whether all were valid. *)
Fixpoint readClauses (NumClauses : nat) (Record : list Z) (Idx : Z)
    (InstNum : Z) : M (list Value * bool) :=
  match NumClauses with
  | O => ret ([], true)
  | S n =>
      do CT <- at_ Record Idx;
      do r <- getValueTypePair Record (uint32 (Idx + 1)) InstNum;
      match r with
      | None => ret ([], false)
      | Some (Val, Idx) =>
          if isaConstant Val then
            do '(Cs, ok) <- readClauses n Record Idx InstNum;
            ret (Val :: Cs, ok)
          else undefined
      end
  end.

(** [dyn_cast<FunctionType>(cast-or-null pointer element)] for callees. *)
Definition calleeFunctionType (Callee : Value) : option (Ty * list Ty * bool) :=
  match getType Callee with
  | PointerTy (FunctionTy Ret Params VarArg) _ => Some (Ret, Params, VarArg)
  | _ => None
  end.

(** [BasicBlock::Create(Context, "", F)], [n] times. *)
Definition createBasicBlocks (F : nat) (n : nat) : M (list nat) :=
  do base <- get (fun R => length (Blocks R));
  let ids := seq base n in
  modify (fun R => set_Blocks
            (Blocks R ++ replicate n (mkBasicBlockObj F [] [])) R) ;;
  updGlobal F (fun G => set_G_blocks (G_blocks G ++ ids) G) ;;
  ret ids.

(** The scope and inlined-at operands of DEBUG_LOC: [cast<MDNode>]. *)
Definition debugLocNode (ID : Z) : M (option Value) :=
  if uint32 ID =? 0 then ret None
  else
    do N <- MDValueList_getValueFwdRef (uint32 (uint32 ID - 1));
    if isaMDNode N then ret (Some N) else undefined.

(** The switch over the code of a function record.  [inl L'] is a [continue]
    (DECLAREBLOCKS and the debug-location records, with the locals they
    leave), [inr I] a [break] with the instruction [I] built, which then
    reaches the end of the loop body. *)
Definition ParseFunctionBody_record (F : nat) (Code : Z) (Record : list Z)
    (L : FnLocals) : M (FnLocals + nat) :=
  let NextValueNo := NextValueNo L in
  let inst (m : M nat) : M (FnLocals + nat) := do I <- m; ret (inr I) in
  match bitc.FunctionCodes_of Code with
  | Some bitc.FUNC_CODE_DECLAREBLOCKS =>
      if size Record <? 1 then Error InvalidRecord
      else
        do R0 <- at_ Record 0;
        if R0 =? 0 then Error InvalidRecord
        else
          (* FunctionBBs.resize(Record[0]); every slot gets a new block *)
          do BBs <- createBasicBlocks F (Z.to_nat (uint32 R0));
          modify (set_FunctionBBs
                    (resize (Z.to_nat R0) None (map Some BBs))) ;;
          do Cur <- bind (get FunctionBBs) (fun l => at_ l 0);
          ret (inl (mkFnLocals NextValueNo Cur (CurBBNo L) (LastLoc L)))
  | Some bitc.FUNC_CODE_DEBUG_LOC_AGAIN =>
      do Last <- lastInstruction L;
      match Last with
      | None => Error InvalidRecord
      | Some Inst =>
          Instruction_setDebugLoc Inst (LastLoc L) ;;
          ret (inl L)
      end
  | Some bitc.FUNC_CODE_DEBUG_LOC =>
      do Last <- lastInstruction L;
      match Last with
      | None => Error InvalidRecord
      | Some Inst =>
          if size Record <? 4 then Error InvalidRecord
          else
            do R0 <- at_ Record 0;
            do R1 <- at_ Record 1;
            do R2 <- at_ Record 2;
            do R3 <- at_ Record 3;
            do Scope <- debugLocNode R2;
            do IA <- debugLocNode R3;
            let Loc := Some (mkDebugLoc (uint32 R0) (uint32 R1) Scope IA) in
            Instruction_setDebugLoc Inst Loc ;;
            ret (inl (mkFnLocals NextValueNo (CurBB L) (CurBBNo L) Loc))
      end
  | Some bitc.FUNC_CODE_INST_BINOP =>
      inst (do '(LHS, OpNum) <- orError InvalidRecord
                            (getValueTypePair Record 0 NextValueNo);
      do '(RHS, OpNum) <- orError InvalidRecord
                            (getValue Record OpNum (getType LHS));
      if size Record <? OpNum + 1 then Error InvalidRecord
      else
        do Op <- at_ Record OpNum;
        match GetDecodedBinaryOpcode Op (getType LHS) with
        | None => Error InvalidRecord
        | Some Opc =>
            let OpNum := uint32 (OpNum + 1) in
            let '(NSW, NUW, Exact) :=
              binopFlags Opc (if OpNum <? size Record
                              then Record !! Z.to_nat OpNum else None) in
            emit (BinaryOperator Opc LHS RHS NSW NUW Exact)
        end)
  | Some bitc.FUNC_CODE_INST_CAST =>
      inst (do '(Op, OpNum) <- orError InvalidRecord
                           (getValueTypePair Record 0 NextValueNo);
      if negb (OpNum + 2 =? size Record) then Error InvalidRecord
      else
        do TyID <- at_ Record OpNum;
        do ResTy <- getTypeByID TyID;
        do OpcV <- at_ Record (OpNum + 1);
        match GetDecodedCastOpcode OpcV, ResTy with
        | Some Opc, Some ResTy => emit (CastInst Opc Op ResTy)
        | _, _ => Error InvalidRecord
        end)
  | Some bitc.FUNC_CODE_INST_INBOUNDS_GEP | Some bitc.FUNC_CODE_INST_GEP =>
      inst (do '(BasePtr, OpNum) <- orError InvalidRecord
                                (getValueTypePair Record 0 NextValueNo);
      do GEPIdx <- readValueTypePairs (length Record) Record OpNum NextValueNo;
      emit (GetElementPtrInst BasePtr GEPIdx
              (match bitc.FunctionCodes_of Code with
               | Some bitc.FUNC_CODE_INST_INBOUNDS_GEP => true
               | _ => false
               end)))
  | Some bitc.FUNC_CODE_INST_EXTRACTVAL =>
      inst (do '(Agg, OpNum) <- orError InvalidRecord
                            (getValueTypePair Record 0 NextValueNo);
      do Idx <- readIndices (drop (Z.to_nat OpNum) Record);
      emit (ExtractValueInst Agg Idx))
  | Some bitc.FUNC_CODE_INST_INSERTVAL =>
      inst (do '(Agg, OpNum) <- orError InvalidRecord
                            (getValueTypePair Record 0 NextValueNo);
      do '(Val, OpNum) <- orError InvalidRecord
                            (getValueTypePair Record OpNum NextValueNo);
      do Idx <- readIndices (drop (Z.to_nat OpNum) Record);
      emit (InsertValueInst Agg Val Idx))
  | Some bitc.FUNC_CODE_INST_SELECT =>
      inst (do '(TrueVal, OpNum) <- orError InvalidRecord
                                (getValueTypePair Record 0 NextValueNo);
      do '(FalseVal, OpNum) <- orError InvalidRecord
                                 (getValue Record OpNum (getType TrueVal));
      do '(Cond, OpNum) <- orError InvalidRecord
                             (getValue Record OpNum Int1Ty);
      emit (SelectInst Cond TrueVal FalseVal))
  | Some bitc.FUNC_CODE_INST_VSELECT =>
      inst (do '(TrueVal, OpNum) <- orError InvalidRecord
                                (getValueTypePair Record 0 NextValueNo);
      do '(FalseVal, OpNum) <- orError InvalidRecord
                                 (getValue Record OpNum (getType TrueVal));
      do '(Cond, OpNum) <- orError InvalidRecord
                             (getValueTypePair Record OpNum NextValueNo);
      let CondTy := match getType Cond with
                    | VectorTy E _ => E
                    | T => T
                    end in
      if negb (Ty_eqb CondTy Int1Ty) then Error InvalidTypeForValue
      else emit (SelectInst Cond TrueVal FalseVal))
  | Some bitc.FUNC_CODE_INST_EXTRACTELT =>
      inst (do '(Vec, OpNum) <- orError InvalidRecord
                            (getValueTypePair Record 0 NextValueNo);
      do '(Idx, OpNum) <- orError InvalidRecord
                            (getValue Record OpNum Int32Ty);
      emit (ExtractElementInst Vec Idx))
  | Some bitc.FUNC_CODE_INST_INSERTELT =>
      inst (do '(Vec, OpNum) <- orError InvalidRecord
                            (getValueTypePair Record 0 NextValueNo);
      do EltTy <- SequentialType_getElementType_Vector (getType Vec);
      do '(Elt, OpNum) <- orError InvalidRecord (getValue Record OpNum EltTy);
      do '(Idx, OpNum) <- orError InvalidRecord
                            (getValue Record OpNum Int32Ty);
      emit (InsertElementInst Vec Elt Idx))
  | Some bitc.FUNC_CODE_INST_SHUFFLEVEC =>
      inst (do '(Vec1, OpNum) <- orError InvalidRecord
                             (getValueTypePair Record 0 NextValueNo);
      do '(Vec2, OpNum) <- orError InvalidRecord
                             (getValue Record OpNum (getType Vec1));
      do '(Mask, OpNum) <- orError InvalidRecord
                             (getValueTypePair Record OpNum NextValueNo);
      emit (ShuffleVectorInst Vec1 Vec2 Mask))
  | Some bitc.FUNC_CODE_INST_CMP | Some bitc.FUNC_CODE_INST_CMP2 =>
      inst (do '(LHS, OpNum) <- orError InvalidRecord
                            (getValueTypePair Record 0 NextValueNo);
      do '(RHS, OpNum) <- orError InvalidRecord
                            (getValue Record OpNum (getType LHS));
      if negb (OpNum + 1 =? size Record) then Error InvalidRecord
      else
        do Pred <- at_ Record OpNum;
        if isFPOrFPVectorTy (getType LHS)
        then emit (FCmpInst Pred LHS RHS)
        else emit (ICmpInst Pred LHS RHS))
  | Some bitc.FUNC_CODE_INST_RET =>
      inst (if size Record =? 0 then emit (ReturnInst None)
      else
        do '(Op, OpNum) <- orError InvalidRecord
                             (getValueTypePair Record 0 NextValueNo);
        if negb (OpNum =? size Record) then Error InvalidRecord
        else emit (ReturnInst (Some Op)))
  | Some bitc.FUNC_CODE_INST_BR =>
      inst (if negb (size Record =? 1) && negb (size Record =? 3)
      then Error InvalidRecord
      else
        do R0 <- at_ Record 0;
        do TrueDest <- orError InvalidRecord (getBasicBlock R0);
        if size Record =? 1 then emit (BranchInst TrueDest None)
        else
          do R1 <- at_ Record 1;
          do R2 <- at_ Record 2;
          do FalseDest <- getBasicBlock R1;
          do Cond <- getFnValueByID R2 (Some Int1Ty);
          match FalseDest, Cond with
          | Some FalseDest, Some Cond =>
              emit (BranchInst TrueDest (Some (FalseDest, Cond)))
          | _, _ => Error InvalidRecord
          end)
  | Some bitc.FUNC_CODE_INST_SWITCH =>
      inst (if (size Record <? 3) || Z.even (size Record) then Error InvalidRecord
      else
        do R0 <- at_ Record 0;
        do R1 <- at_ Record 1;
        do R2 <- at_ Record 2;
        do OpTy <- getTypeByID R0;
        do Cond <- getFnValueByID R1 OpTy;
        do Default <- getBasicBlock R2;
        match OpTy, Cond, Default with
        | Some OpTy, Some Cond, Some Default =>
            do '(Cases, ok) <- readSwitchCases OpTy (drop 3 Record);
            do SI <- emit (SwitchInst Cond Default Cases);
            if (ok : bool) then ret SI
            else deleteInst SI ;; Error InvalidRecord
        | _, _, _ => Error InvalidRecord
        end)
  | Some bitc.FUNC_CODE_INST_INDIRECTBR =>
      inst (if size Record <? 2 then Error InvalidRecord
      else
        do R0 <- at_ Record 0;
        do R1 <- at_ Record 1;
        do OpTy <- getTypeByID R0;
        do Address <- getFnValueByID R1 OpTy;
        match OpTy, Address with
        | Some OpTy, Some Address =>
            do '(Dests, ok) <- readDestinations (drop 2 Record);
            do IBI <- emit (IndirectBrInst Address Dests);
            if (ok : bool) then ret IBI
            else deleteInst IBI ;; Error InvalidRecord
        | _, _ => Error InvalidRecord
        end)
  | Some bitc.FUNC_CODE_INST_INVOKE =>
      inst (if size Record <? 4 then Error InvalidRecord
      else
        do R0 <- at_ Record 0;
        do PAL <- getAttributes R0;
        do CCInfo <- at_ Record 1;
        do R2 <- at_ Record 2;
        do R3 <- at_ Record 3;
        do NormalBB <- getBasicBlock R2;
        do UnwindBB <- getBasicBlock R3;
        do '(Callee, OpNum) <- orError InvalidRecord
                                 (getValueTypePair Record 4 NextValueNo);
        match calleeFunctionType Callee, NormalBB, UnwindBB with
        | Some (_, Params, VarArg), Some NormalBB, Some UnwindBB =>
            if size Record <? uint32 (OpNum + size Params)
            then Error InvalidRecord
            else
              do '(Ops, OpNum) <- readFixedParams false Params Record OpNum;
              do More <- (if negb VarArg then
                            if negb (size Record =? OpNum)
                            then Error InvalidRecord else ret []
                          else readValueTypePairs (length Record) Record OpNum
                                 NextValueNo);
              emit (InvokeInst Callee NormalBB UnwindBB (Ops ++ More)
                      (uint32 CCInfo) PAL)
        | _, _, _ => Error InvalidRecord
        end)
  | Some bitc.FUNC_CODE_INST_RESUME =>
      inst (do '(Val, Idx) <- orError InvalidRecord
                          (getValueTypePair Record 0 NextValueNo);
      emit (ResumeInst Val))
  | Some bitc.FUNC_CODE_INST_UNREACHABLE => inst (emit UnreachableInst)
  | Some bitc.FUNC_CODE_INST_PHI =>
      inst (if (size Record <? 1) || Z.odd (size Record - 1) then Error InvalidRecord
      else
        do R0 <- at_ Record 0;
        do T <- orError InvalidRecord (getTypeByID R0);
        do '(Incoming, ok) <- readIncoming T (drop 1 Record);
        do PN <- emit (PHINode T Incoming);
        if (ok : bool) then ret PN else Error InvalidRecord)
  | Some bitc.FUNC_CODE_INST_LANDINGPAD =>
      inst (if size Record <? 4 then Error InvalidRecord
      else
        do R0 <- at_ Record 0;
        do T <- orError InvalidRecord (getTypeByID R0);
        do '(PersFn, Idx) <- orError InvalidRecord
                               (getValueTypePair Record 1 NextValueNo);
        do Cleanup <- at_ Record Idx;
        do NumClauses <- at_ Record (uint32 (Idx + 1));
        do '(Clauses, ok) <- readClauses (Z.to_nat (uint32 NumClauses)) Record
                               (uint32 (Idx + 2)) NextValueNo;
        do LP <- newInst (LandingPadInst T PersFn (nonzero Cleanup) Clauses);
        if (ok : bool) then InstructionList_push_back LP ;; ret LP
        else deleteInst LP ;; Error InvalidRecord)
  | Some bitc.FUNC_CODE_INST_ALLOCA =>
      inst (if negb (size Record =? 4) then Error InvalidRecord
      else
        do R0 <- at_ Record 0;
        do R1 <- at_ Record 1;
        do R2 <- at_ Record 2;
        do R3 <- at_ Record 3;
        do T <- getTypeByID R0;
        do OpTy <- getTypeByID R1;
        do Size <- getFnValueByID R2 OpTy;
        let Align := uint32 R3 in
        match T, Size with
        | Some (PointerTy ElTy _), Some Size =>
            do A <- lift (decodeAlignment Align);
            emit (AllocaInst ElTy Size A)
        | _, _ => Error InvalidRecord
        end)
  | Some bitc.FUNC_CODE_INST_LOAD =>
      inst (do '(Op, OpNum) <- orError InvalidRecord
                           (getValueTypePair Record 0 NextValueNo);
      if negb (OpNum + 2 =? size Record) then Error InvalidRecord
      else
        do Vol <- at_ Record (OpNum + 1);
        do AlignField <- at_ Record OpNum;
        do A <- lift (decodeAlignment AlignField);
        emit (LoadInst Op (nonzero Vol) A NotAtomic CrossThread))
  | Some bitc.FUNC_CODE_INST_LOADATOMIC =>
      inst (do '(Op, OpNum) <- orError InvalidRecord
                           (getValueTypePair Record 0 NextValueNo);
      if negb (OpNum + 4 =? size Record) then Error InvalidRecord
      else
        do OrdField <- at_ Record (OpNum + 2);
        let Ordering := GetDecodedOrdering OrdField in
        match Ordering with
        | NotAtomic | Release | AcquireRelease => Error InvalidRecord
        | _ =>
            do AlignField <- at_ Record OpNum;
            if AlignField =? 0 then Error InvalidRecord
            else
              do ScopeField <- at_ Record (OpNum + 3);
              let SynchScope := GetDecodedSynchScope ScopeField in
              do Vol <- at_ Record (OpNum + 1);
              do A <- lift (decodeAlignment AlignField);
              emit (LoadInst Op (nonzero Vol) A Ordering SynchScope)
        end)
  | Some bitc.FUNC_CODE_INST_STORE =>
      inst (do '(Ptr, OpNum) <- orError InvalidRecord
                            (getValueTypePair Record 0 NextValueNo);
      do ElTy <- PointerType_getElementType (getType Ptr);
      do '(Val, OpNum) <- orError InvalidRecord (getValue Record OpNum ElTy);
      if negb (OpNum + 2 =? size Record) then Error InvalidRecord
      else
        do Vol <- at_ Record (OpNum + 1);
        do AlignField <- at_ Record OpNum;
        do A <- lift (decodeAlignment AlignField);
        emit (StoreInst Val Ptr (nonzero Vol) A NotAtomic CrossThread))
  | Some bitc.FUNC_CODE_INST_STOREATOMIC =>
      inst (do '(Ptr, OpNum) <- orError InvalidRecord
                            (getValueTypePair Record 0 NextValueNo);
      do ElTy <- PointerType_getElementType (getType Ptr);
      do '(Val, OpNum) <- orError InvalidRecord (getValue Record OpNum ElTy);
      if negb (OpNum + 4 =? size Record) then Error InvalidRecord
      else
        do OrdField <- at_ Record (OpNum + 2);
        let Ordering := GetDecodedOrdering OrdField in
        match Ordering with
        | NotAtomic | Acquire | AcquireRelease => Error InvalidRecord
        | _ =>
            do ScopeField <- at_ Record (OpNum + 3);
            let SynchScope := GetDecodedSynchScope ScopeField in
            do AlignField <- at_ Record OpNum;
            if AlignField =? 0 then Error InvalidRecord
            else
              do Vol <- at_ Record (OpNum + 1);
              do A <- lift (decodeAlignment AlignField);
              emit (StoreInst Val Ptr (nonzero Vol) A Ordering SynchScope)
        end)
  | Some bitc.FUNC_CODE_INST_CMPXCHG =>
      inst (do '(Ptr, OpNum) <- orError InvalidRecord
                            (getValueTypePair Record 0 NextValueNo);
      do ElTy <- PointerType_getElementType (getType Ptr);
      do '(Cmp, OpNum) <- orError InvalidRecord (getValue Record OpNum ElTy);
      do ElTy <- PointerType_getElementType (getType Ptr);
      do '(New, OpNum) <- orError InvalidRecord (getValue Record OpNum ElTy);
      if negb (OpNum + 3 =? size Record) then Error InvalidRecord
      else
        do OrdField <- at_ Record (OpNum + 1);
        let Ordering := GetDecodedOrdering OrdField in
        match Ordering with
        | NotAtomic | Unordered => Error InvalidRecord
        | _ =>
            do ScopeField <- at_ Record (OpNum + 2);
            let SynchScope := GetDecodedSynchScope ScopeField in
            do Vol <- at_ Record OpNum;
            emit (AtomicCmpXchgInst Ptr Cmp New Ordering Ordering SynchScope
                    (nonzero Vol))
        end)
  | Some bitc.FUNC_CODE_INST_ATOMICRMW =>
      inst (do '(Ptr, OpNum) <- orError InvalidRecord
                            (getValueTypePair Record 0 NextValueNo);
      do ElTy <- PointerType_getElementType (getType Ptr);
      do '(Val, OpNum) <- orError InvalidRecord (getValue Record OpNum ElTy);
      if negb (OpNum + 4 =? size Record) then Error InvalidRecord
      else
        do OpField <- at_ Record OpNum;
        match GetDecodedRMWOperation OpField with
        | AtomicRMWInst.BAD_BINOP => Error InvalidRecord
        | Operation =>
            do OrdField <- at_ Record (OpNum + 2);
            let Ordering := GetDecodedOrdering OrdField in
            match Ordering with
            | NotAtomic | Unordered => Error InvalidRecord
            | _ =>
                do ScopeField <- at_ Record (OpNum + 3);
                let SynchScope := GetDecodedSynchScope ScopeField in
                do Vol <- at_ Record (OpNum + 1);
                emit (AtomicRMWInst Operation Ptr Val Ordering SynchScope
                        (nonzero Vol))
            end
        end)
  | Some bitc.FUNC_CODE_INST_FENCE =>
      inst (if negb (2 =? size Record) then Error InvalidRecord
      else
        do OrdField <- at_ Record 0;
        let Ordering := GetDecodedOrdering OrdField in
        match Ordering with
        | NotAtomic | Unordered | Monotonic => Error InvalidRecord
        | _ =>
            do ScopeField <- at_ Record 1;
            emit (FenceInst Ordering (GetDecodedSynchScope ScopeField))
        end)
  | Some bitc.FUNC_CODE_INST_CALL =>
      inst (if size Record <? 3 then Error InvalidRecord
      else
        do R0 <- at_ Record 0;
        do PAL <- getAttributes R0;
        do CCInfo <- at_ Record 1;
        let CCInfo := uint32 CCInfo in
        do '(Callee, OpNum) <- orError InvalidRecord
                                 (getValueTypePair Record 2 NextValueNo);
        match calleeFunctionType Callee with
        | Some (_, Params, VarArg) =>
            if size Record <? uint32 (size Params + OpNum)
            then Error InvalidRecord
            else
              do '(Args, OpNum) <- readFixedParams true Params Record OpNum;
              do More <- (if negb VarArg then
                            if negb (OpNum =? size Record)
                            then Error InvalidRecord else ret []
                          else readValueTypePairs (length Record) Record OpNum
                                 NextValueNo);
              emit (CallInst Callee (Args ++ More) (Z.shiftr CCInfo 1)
                      (Z.testbit CCInfo 0) PAL)
        | None => Error InvalidRecord
        end)
  | Some bitc.FUNC_CODE_INST_VAARG =>
      inst (if size Record <? 3 then Error InvalidRecord
      else
        do R0 <- at_ Record 0;
        do R1 <- at_ Record 1;
        do R2 <- at_ Record 2;
        do OpTy <- getTypeByID R0;
        do Op <- getFnValueByID R1 OpTy;
        do ResTy <- getTypeByID R2;
        match OpTy, Op, ResTy with
        | Some _, Some Op, Some ResTy => emit (VAArgInst Op ResTy)
        | _, _, _ => Error InvalidRecord
        end)
  | None =>
      if Code =? FUNC_CODE_INST_UNWIND_2_7 then
        (* 'unwind' is replaced by 'landingpad' and 'resume' *)
        let ExnTy := LiteralStructTy [PointerTy Int8Ty 0; Int32Ty] false in
        do PersFn <- getOrInsertFunction (chars "__gcc_personality_v0")
                       (FunctionTy Int32Ty [] true);
        do LP <- newInst (LandingPadInst ExnTy PersFn true []);
        do BB <- deref (CurBB L);
        BasicBlock_push_back BB LP ;;
        do LPObj <- getInst LP;
        inst (emit (ResumeInst (InstructionV LP (I_type LPObj))))
      else
        (* default: reject *)
        Error InvalidValue
  end.

(** The end of the loop body: the instruction built by the record is added
    to the current block. *)
Definition ParseFunctionBody_append (Inst : nat) (L : FnLocals) : M FnLocals :=
  match CurBB L with
  | None =>
      (* no current block: reject this file *)
      deleteInst Inst ;;
      Error InvalidInstructionWithNoBB
  | Some BB =>
      do O <- getInst Inst;
      BasicBlock_push_back BB Inst ;;
      (* a terminator moves to the next block *)
      do L <- (if isaTerminatorInst (I_inst O) then
                 let No := uint32 (CurBBNo L + 1) in
                 do BBs <- get FunctionBBs;
                 do Cur <- (if No <? size BBs then at_ BBs No else ret None);
                 ret (mkFnLocals (NextValueNo L) Cur No (LastLoc L))
               else ret L);
      (* non-void values are registered in the value table *)
      if negb (isVoidTy (I_type O)) then
        AssignValue (InstructionV Inst (I_type O)) (NextValueNo L) ;;
        ret (mkFnLocals (uint32 (NextValueNo L + 1)) (CurBB L) (CurBBNo L)
               (LastLoc L))
      else ret L
  end.

Fixpoint ParseFunctionBody_loop (F : nat) (es : list Entry)
    (endFails : bool) (L : FnLocals) : M FnLocals :=
  match es with
  | [] => if endFails then Error MalformedBlock else ret L
  | ESubBlock ID B :: es' =>
      do L <- (if ID =? bitc.CONSTANTS_BLOCK_ID then
                 ParseConstants B ;;
                 do sz <- get (fun R => size (ValueList R));
                 ret (mkFnLocals sz (CurBB L) (CurBBNo L) (LastLoc L))
               else if ID =? bitc.VALUE_SYMTAB_BLOCK_ID then
                 ParseValueSymbolTable B ;; ret L
               else if ID =? bitc.METADATA_ATTACHMENT_ID then
                 ParseMetadataAttachment B ;; ret L
               else if ID =? bitc.METADATA_BLOCK_ID then
                 ParseMetadata B ;; ret L
               else
                 (* skip unknown content *)
                 if B_skipFails B then Error InvalidRecord else ret L);
      ParseFunctionBody_loop F es' endFails L
  | EDefineAbbrev :: es' => ParseFunctionBody_loop F es' endFails L
  | ERecord Code Record :: es' =>
      do r <- ParseFunctionBody_record F Code Record L;
      match r with
      | inl L => ParseFunctionBody_loop F es' endFails L
      | inr Inst =>
          do L <- ParseFunctionBody_append Inst L;
          ParseFunctionBody_loop F es' endFails L
      end
  end.

(** The formal arguments of a function, in order. *)
Definition functionArguments (F : nat) (G : GlobalObj) : list Value :=
  match G_valty G with
  | FunctionTy _ Params _ =>
      imap (fun i T => Argument (Some F) i T) Params
  | _ => []
  end.

(** The unresolved forward references of the function are replaced by undef
    and deleted; a slot of the table follows the replacement. *)
Definition nukeUnresolved (From : Z) (l : list (option Value))
  : list (option Value) :=
  imap (fun i V =>
          if Z.of_nat i <? From then V
          else match V with
               | Some (Argument None _ T) => Some (UndefValue T)
               | _ => V
               end) l.

(** The forward references to block addresses of [F] are given their
    blocks; a slot of the value table that held the stand-in follows the
    replacement. *)
Fixpoint resolveBlockAddrFwdRefs (F : nat) (RefList : list (Z * nat))
  : M unit :=
  match RefList with
  | [] => ret tt
  | (BlockIdx, FwdRef) :: RefList' =>
      do BBs <- get FunctionBBs;
      if size BBs <=? BlockIdx then Error InvalidID
      else
        do BB <- bind (at_ BBs BlockIdx) deref;
        modify (fun R => set_ValueList
          (map (fun V => match V with
                         | Some (GlobalVariable id _) =>
                             if Nat.eqb id FwdRef
                             then Some (BlockAddress F BB) else V
                         | _ => V
                         end) (ValueList R)) R) ;;
        modify (fun R => set_Globals (<[FwdRef := None]> (Globals R)) R) ;;
        resolveBlockAddrFwdRefs F RefList'
  end.

(** [ParseFunctionBody]: lazily parse the specified function body block. *)
Definition ParseFunctionBody (F : nat) (B : Block) : M unit :=
  if B_enterFails B then Error InvalidRecord
  else
    modify (set_InstructionList []) ;;
    do ModuleValueListSize <- get (fun R => size (ValueList R));
    do ModuleMDValueListSize <- get (fun R => size (MDValueList R));
    (* add all the function arguments to the value table *)
    do G <- getGlobal F;
    modify (fun R => set_ValueList
              (ValueList R ++ map Some (functionArguments F G)) R) ;;
    do NextValueNo <- get (fun R => size (ValueList R));
    do L <- ParseFunctionBody_loop F (B_entries B) (B_endFails B)
              (mkFnLocals NextValueNo None 0 None);
    (* check the function list for unresolved values *)
    do Back <- bind (get (fun R => last (ValueList R))) (fun o => bind (deref o) deref);
    match Back with
    | Argument None _ _ =>
        modify (fun R => set_ValueList
                  (nukeUnresolved ModuleValueListSize (ValueList R)) R) ;;
        Error NeverResolvedValueFoundInFunction
    | _ =>
        (* resolve the addresses taken of blocks of this function *)
        do BAFRI <- get (fun R => BlockAddrFwdRefs R !! F);
        match BAFRI with
        | Some RefList =>
            resolveBlockAddrFwdRefs F RefList ;;
            modify (fun R => set_BlockAddrFwdRefs
                      (delete F (BlockAddrFwdRefs R)) R)
        | None => ret tt
        end ;;
        (* trim the value list down to the size it had before *)
        ValueList_shrinkTo ModuleValueListSize ;;
        MDValueList_shrinkTo ModuleMDValueListSize ;;
        modify (set_FunctionBBs [])
    end.

(** ** Attribute blocks (BitcodeReader.cpp:746) *)

(** The loop of PARAMATTR_CODE_ENTRY_OLD over (index, word) pairs. *)
Fixpoint readOldAttributes (Record : list Z) : M AttributeSet :=
  match Record with
  | Index :: Word :: Record' =>
      do Attrs <- readOldAttributes Record';
      ret ((uint32 Index, decodeLLVMAttributesForBitcode [] Word) :: Attrs)
  | _ => ret []
  end.

(** [MAttributeGroups] is never filled by this reader: every group looked up
    by PARAMATTR_CODE_ENTRY is the empty set. *)
Definition ParseAttributeBlock_record (Code : Z) (Record : list Z) : M unit :=
  match bitc.AttributeCodes_of Code with
  | Some bitc.PARAMATTR_CODE_ENTRY_OLD =>
      if Z.odd (size Record) then Error InvalidRecord
      else
        do Attrs <- readOldAttributes Record;
        modify (fun R => set_MAttributes (MAttributes R ++ [Attrs]) R)
  | Some bitc.PARAMATTR_CODE_ENTRY =>
      modify (fun R => set_MAttributes (MAttributes R ++ [[]]) R)
  | None => ret tt  (* default: ignore *)
  end.

Fixpoint ParseAttributeBlock_loop (es : list Entry) (endFails : bool)
  : M unit :=
  match es with
  | [] => if endFails then Error MalformedBlock else ret tt
  | ESubBlock _ B :: es' =>
      if B_skipFails B then Error MalformedBlock
      else ParseAttributeBlock_loop es' endFails
  | EDefineAbbrev :: es' => ParseAttributeBlock_loop es' endFails
  | ERecord Code Record :: es' =>
      ParseAttributeBlock_record Code Record ;;
      ParseAttributeBlock_loop es' endFails
  end.

Definition ParseAttributeBlock (B : Block) : M unit :=
  if B_enterFails B then Error InvalidRecord
  else
    do nonempty <- get (fun R => negb (size (MAttributes R) =? 0));
    if (nonempty : bool) then Error InvalidMultipleBlocks
    else ParseAttributeBlock_loop (B_entries B) (B_endFails B).

(** ** The type table (BitcodeReader.cpp:805) *)

(** The loops [for (i = k; i != e; ++i) if (T = getTypeByID(Record[i]))
    push_back(T); else break;]. *)
Fixpoint readTypes (IDs : list Z) : M (list Ty) :=
  match IDs with
  | [] => ret []
  | ID :: IDs' =>
      do T <- getTypeByID ID;
      match T with
      | Some T => do Ts <- readTypes IDs'; ret (T :: Ts)
      | None => ret []
      end
  end.

(** A named struct or an opaque type: the forward-referenced struct of the
    slot when there is one, else a new one. *)
Definition namedStructFor (NumRecords : Z) (TypeName : Str) : M Ty :=
  do sz <- get (fun R => size (TypeList R));
  if sz <=? NumRecords then Error InvalidTYPETable
  else
    do Cur <- bind (get TypeList) (fun l => at_ l NumRecords);
    match Cur with
    | Some Res =>
        StructType_setName Res TypeName ;;
        modify (fun R => set_TypeList (vset NumRecords None (TypeList R)) R) ;;
        ret Res
    | None => StructType_create TypeName
    end.

(** The switch over the code of a type record.  [inl TypeName'] is a
    [continue] (NUMENTRY, STRUCT_NAME), [inr (ResultTy, TypeName')] a
    [break]. *)
Definition ParseTypeTableBody_record (Code : Z) (Record : list Z)
    (NumRecords : Z) (TypeName : Str) : M (Str + Ty * Str) :=
  match bitc.TypeCodes_of Code with
  | Some bitc.TYPE_CODE_NUMENTRY =>
      if size Record <? 1 then Error InvalidRecord
      else
        do R0 <- at_ Record 0;
        modify (fun R => set_TypeList (vresize R0 (TypeList R)) R) ;;
        ret (inl TypeName)
  | Some bitc.TYPE_CODE_VOID => ret (inr (VoidTy, TypeName))
  | Some bitc.TYPE_CODE_HALF => ret (inr (HalfTy, TypeName))
  | Some bitc.TYPE_CODE_FLOAT => ret (inr (FloatTy, TypeName))
  | Some bitc.TYPE_CODE_DOUBLE => ret (inr (DoubleTy, TypeName))
  | Some bitc.TYPE_CODE_X86_FP80 => ret (inr (X86_FP80Ty, TypeName))
  | Some bitc.TYPE_CODE_FP128 => ret (inr (FP128Ty, TypeName))
  | Some bitc.TYPE_CODE_PPC_FP128 => ret (inr (PPC_FP128Ty, TypeName))
  | Some bitc.TYPE_CODE_LABEL => ret (inr (LabelTy, TypeName))
  | Some bitc.TYPE_CODE_METADATA => ret (inr (MetadataTy, TypeName))
  | Some bitc.TYPE_CODE_X86_MMX => ret (inr (X86_MMXTy, TypeName))
  | Some bitc.TYPE_CODE_INTEGER =>
      if size Record <? 1 then Error InvalidRecord
      else do R0 <- at_ Record 0; ret (inr (IntegerTy (uint32 R0), TypeName))
  | Some bitc.TYPE_CODE_POINTER =>
      if size Record <? 1 then Error InvalidRecord
      else
        do AddressSpace <- (if size Record =? 2 then at_ Record 1 else ret 0);
        do R0 <- at_ Record 0;
        do T <- orError InvalidType (getTypeByID R0);
        ret (inr (PointerTy T (uint32 AddressSpace), TypeName))
  | Some bitc.TYPE_CODE_FUNCTION_OLD =>
      if size Record <? 3 then Error InvalidRecord
      else
        do ArgTys <- readTypes (drop 3 Record);
        do R2 <- at_ Record 2;
        do ResultTy <- getTypeByID R2;
        match ResultTy with
        | Some ResultTy =>
            if size ArgTys <? size Record - 3 then Error InvalidType
            else
              do R0 <- at_ Record 0;
              ret (inr (FunctionTy ResultTy ArgTys (nonzero R0), TypeName))
        | None => Error InvalidType
        end
  | Some bitc.TYPE_CODE_FUNCTION =>
      if size Record <? 2 then Error InvalidRecord
      else
        do ArgTys <- readTypes (drop 2 Record);
        do R1 <- at_ Record 1;
        do ResultTy <- getTypeByID R1;
        match ResultTy with
        | Some ResultTy =>
            if size ArgTys <? size Record - 2 then Error InvalidType
            else
              do R0 <- at_ Record 0;
              ret (inr (FunctionTy ResultTy ArgTys (nonzero R0), TypeName))
        | None => Error InvalidType
        end
  | Some bitc.TYPE_CODE_STRUCT_ANON =>
      if size Record <? 1 then Error InvalidRecord
      else
        do EltTys <- readTypes (drop 1 Record);
        if negb (size EltTys =? size Record - 1) then Error InvalidType
        else
          do R0 <- at_ Record 0;
          ret (inr (LiteralStructTy EltTys (nonzero R0), TypeName))
  | Some bitc.TYPE_CODE_STRUCT_NAME =>
      match ConvertToString Record 0 TypeName with
      | None => Error InvalidRecord
      | Some TypeName => ret (inl TypeName)
      end
  | Some bitc.TYPE_CODE_STRUCT_NAMED =>
      if size Record <? 1 then Error InvalidRecord
      else
        do Res <- namedStructFor NumRecords TypeName;
        do EltTys <- readTypes (drop 1 Record);
        if negb (size EltTys =? size Record - 1) then Error InvalidRecord
        else
          do R0 <- at_ Record 0;
          StructType_setBody Res EltTys (nonzero R0) ;;
          ret (inr (Res, []))
  | Some bitc.TYPE_CODE_OPAQUE =>
      if negb (size Record =? 1) then Error InvalidRecord
      else
        do Res <- namedStructFor NumRecords TypeName;
        ret (inr (Res, []))
  | Some bitc.TYPE_CODE_ARRAY =>
      if size Record <? 2 then Error InvalidRecord
      else
        do R1 <- at_ Record 1;
        do R0 <- at_ Record 0;
        do T <- orError InvalidType (getTypeByID R1);
        ret (inr (ArrayTy T R0, TypeName))
  | Some bitc.TYPE_CODE_VECTOR =>
      if size Record <? 2 then Error InvalidRecord
      else
        do R1 <- at_ Record 1;
        do R0 <- at_ Record 0;
        do T <- orError InvalidType (getTypeByID R1);
        ret (inr (VectorTy T (uint32 R0), TypeName))
  | None => Error InvalidValue
  end.

Fixpoint ParseTypeTableBody_loop (es : list Entry) (endFails : bool)
    (NumRecords : Z) (TypeName : Str) : M unit :=
  match es with
  | [] =>
      if endFails then Error MalformedBlock
      else
        do sz <- get (fun R => size (TypeList R));
        if negb (NumRecords =? sz) then Error MalformedBlock else ret tt
  | ESubBlock _ B :: es' =>
      if B_skipFails B then Error MalformedBlock
      else ParseTypeTableBody_loop es' endFails NumRecords TypeName
  | EDefineAbbrev :: es' =>
      ParseTypeTableBody_loop es' endFails NumRecords TypeName
  | ERecord Code Record :: es' =>
      do r <- ParseTypeTableBody_record Code Record NumRecords TypeName;
      match r with
      | inl TypeName => ParseTypeTableBody_loop es' endFails NumRecords TypeName
      | inr (ResultTy, TypeName) =>
          do sz <- get (fun R => size (TypeList R));
          if sz <=? NumRecords then Error InvalidTYPETable
          else
            modify (fun R => set_TypeList
                      (vset NumRecords (Some ResultTy) (TypeList R)) R) ;;
            ParseTypeTableBody_loop es' endFails (uint32 (NumRecords + 1))
              TypeName
      end
  end.

Definition ParseTypeTableBody (B : Block) : M unit :=
  do nonempty <- get (fun R => negb (size (TypeList R) =? 0));
  if (nonempty : bool) then Error InvalidMultipleBlocks
  else ParseTypeTableBody_loop (B_entries B) (B_endFails B) 0 [].

Definition ParseTypeTable (B : Block) : M unit :=
  if B_enterFails B then Error InvalidRecord else ParseTypeTableBody B.

(** ** Module records (BitcodeReader.cpp:2041) *)

(** [S.c_str()]: the characters before the first NUL. *)
Fixpoint c_str (S : Str) : Str :=
  match S with
  | [] => []
  | c :: S' => if c =? 0 then [] else c :: c_str S'
  end.

(** The locals of [ParseModule] that live across records. *)
Record ModuleLocals : Type := mkModuleLocals {
  SectionTable : list Str;
  GCTable : list Str
}.

(** The switch over the code of a module record. *)
Definition ParseModule_record (Code : Z) (Record : list Z) (L : ModuleLocals)
  : M ModuleLocals :=
  match bitc.ModuleCodes_of Code with
  | Some bitc.MODULE_CODE_VERSION =>
      if size Record <? 1 then Error InvalidRecord
      else
        do R0 <- at_ Record 0;
        (* only version #0 is supported *)
        if nonzero R0 then Error InvalidValue else ret L
  | Some bitc.MODULE_CODE_TRIPLE =>
      match ConvertToString Record 0 [] with
      | None => Error InvalidRecord
      | Some Str_ => modify (set_TargetTriple Str_) ;; ret L
      end
  | Some bitc.MODULE_CODE_DATALAYOUT =>
      match ConvertToString Record 0 [] with
      | None => Error InvalidRecord
      | Some Str_ => modify (set_DataLayout Str_) ;; ret L
      end
  | Some bitc.MODULE_CODE_ASM =>
      match ConvertToString Record 0 [] with
      | None => Error InvalidRecord
      | Some Str_ => modify (set_ModuleInlineAsm Str_) ;; ret L
      end
  | Some bitc.MODULE_CODE_DEPLIB =>
      match ConvertToString Record 0 [] with
      | None => Error InvalidRecord
      | Some _ => ret L  (* the value is ignored *)
      end
  | Some bitc.MODULE_CODE_SECTIONNAME =>
      match ConvertToString Record 0 [] with
      | None => Error InvalidRecord
      | Some Str_ => ret (mkModuleLocals (SectionTable L ++ [Str_]) (GCTable L))
      end
  | Some bitc.MODULE_CODE_GCNAME =>
      match ConvertToString Record 0 [] with
      | None => Error InvalidRecord
      | Some Str_ => ret (mkModuleLocals (SectionTable L) (GCTable L ++ [Str_]))
      end
  | Some bitc.MODULE_CODE_GLOBALVAR =>
      if size Record <? 6 then Error InvalidRecord
      else
        do R0 <- at_ Record 0;
        do T <- orError InvalidRecord (getTypeByID R0);
        match T with
        | PointerTy ElTy AddressSpace =>
            do R1 <- at_ Record 1;
            do R3 <- at_ Record 3;
            do R4 <- at_ Record 4;
            do Alignment <- lift (decodeAlignment R4);
            do R5 <- at_ Record 5;
            do Section <- (if nonzero R5 then
                             if size (SectionTable L) <=? uint64 (R5 - 1)
                             then Error InvalidID
                             else at_ (SectionTable L) (uint64 (R5 - 1))
                           else ret []);
            let Visibility := match Record !! 6%nat with
                              | Some v => GetDecodedVisibility v
                              | None => GlobalValue.DefaultVisibility
                              end in
            let TLM := match Record !! 7%nat with
                       | Some v => GetDecodedThreadLocalMode v
                       | None => GlobalValue.NotThreadLocal
                       end in
            let UnnamedAddr := match Record !! 8%nat with
                               | Some v => nonzero v
                               | None => false
                               end in
            do NewGV <- newGlobal
              (mkGlobalObj GK_Variable ElTy AddressSpace [] (GetDecodedLinkage R3)
                 Visibility Alignment Section UnnamedAddr (nonzero R1) TLM
                 None 0 [] None [] []);
            modify (fun R => set_ValueList
                      (ValueList R ++ [Some (GlobalVariable NewGV T)]) R) ;;
            do R2 <- at_ Record 2;
            let InitID := uint32 R2 in
            (if nonzero InitID
             then modify (fun R => set_GlobalInits
                            (GlobalInits R ++ [(NewGV, uint32 (InitID - 1))]) R)
             else ret tt) ;;
            ret L
        | _ => Error InvalidTypeForValue
        end
  | Some bitc.MODULE_CODE_FUNCTION =>
      if size Record <? 8 then Error InvalidRecord
      else
        do R0 <- at_ Record 0;
        do T <- orError InvalidRecord (getTypeByID R0);
        match T with
        | PointerTy (FunctionTy Ret Params VarArg) _ =>
            let FTy := FunctionTy Ret Params VarArg in
            do Func <- newGlobal
              (mkGlobalObj GK_Function FTy 0 [] GlobalValue.ExternalLinkage
                 GlobalValue.DefaultVisibility 0 [] false false
                 GlobalValue.NotThreadLocal None 0 [] None [] []);
            do R1 <- at_ Record 1;
            updGlobal Func (set_G_cc (uint32 R1)) ;;
            do R2 <- at_ Record 2;
            do R3 <- at_ Record 3;
            updGlobal Func (set_G_linkage (GetDecodedLinkage R3)) ;;
            do R4 <- at_ Record 4;
            do PAL <- getAttributes R4;
            updGlobal Func (set_G_attrs PAL) ;;
            do R5 <- at_ Record 5;
            do Alignment <- lift (decodeAlignment R5);
            updGlobal Func (set_G_alignment Alignment) ;;
            do R6 <- at_ Record 6;
            (if nonzero R6 then
               if size (SectionTable L) <=? uint64 (R6 - 1)
               then Error InvalidID
               else
                 do Sec <- at_ (SectionTable L) (uint64 (R6 - 1));
                 updGlobal Func (set_G_section Sec)
             else ret tt) ;;
            do R7 <- at_ Record 7;
            updGlobal Func (set_G_visibility (GetDecodedVisibility R7)) ;;
            (match Record !! 8%nat with
             | Some R8 =>
                 if nonzero R8 then
                   if size (GCTable L) <? uint64 (R8 - 1)
                   then Error InvalidID
                   else
                     do GC <- at_ (GCTable L) (uint64 (R8 - 1));
                     updGlobal Func (set_G_gc (Some (c_str GC)))
                 else ret tt
             | None => ret tt
             end) ;;
            updGlobal Func (set_G_unnamed_addr
                              (match Record !! 9%nat with
                               | Some v => nonzero v
                               | None => false
                               end)) ;;
            modify (fun R => set_ValueList
                      (ValueList R ++ [Some (Function Func (PointerTy FTy 0))]) R) ;;
            (* a function with a body: remember the prototype *)
            (if negb (nonzero R2) then
               modify (fun R => set_FunctionsWithBodies
                         (FunctionsWithBodies R ++ [Func]) R) ;;
               do Lazy <- get LazyStreamer;
               if (Lazy : bool)
               then modify (fun R => set_DeferredFunctionInfo
                              (<[Func := 0]> (DeferredFunctionInfo R)) R)
               else ret tt
             else ret tt) ;;
            ret L
        | _ => Error InvalidTypeForValue
        end
  | Some bitc.MODULE_CODE_ALIAS =>
      if size Record <? 3 then Error InvalidRecord
      else
        do R0 <- at_ Record 0;
        do T <- orError InvalidRecord (getTypeByID R0);
        match T with
        | PointerTy ElTy AddressSpace =>
            do R1 <- at_ Record 1;
            do R2 <- at_ Record 2;
            let Visibility := match Record !! 3%nat with
                              | Some v => GetDecodedVisibility v
                              | None => GlobalValue.DefaultVisibility
                              end in
            do NewGA <- newGlobal
              (mkGlobalObj GK_Alias ElTy AddressSpace [] (GetDecodedLinkage R2)
                 Visibility 0 [] false false GlobalValue.NotThreadLocal
                 None 0 [] None [] []);
            modify (fun R => set_ValueList
                      (ValueList R ++ [Some (GlobalAlias NewGA T)]) R) ;;
            modify (fun R => set_AliasInits
                      (AliasInits R ++ [(NewGA, uint32 R1)]) R) ;;
            ret L
        | _ => Error InvalidTypeForValue
        end
  | Some bitc.MODULE_CODE_PURGEVALS =>
      if size Record <? 1 then Error InvalidRecord
      else
        do R0 <- at_ Record 0;
        do sz <- get (fun R => size (ValueList R));
        if sz <? R0 then Error InvalidRecord
        else ValueList_shrinkTo R0 ;; ret L
  | None => ret L  (* default: ignore unknown content *)
  end.

(** ** The materializer (BitcodeReader.cpp:3252) *)

(** [F->isDeclaration()] (IR library): the function has no body. *)
Definition Function_isDeclaration (G : GlobalObj) : bool :=
  match G_blocks G with [] => true | _ => false end.

(** [GV] is a global value of the module, given by its number. *)
Definition isMaterializable (GV : nat) : M bool :=
  do G <- bind (bind (get (fun R => Globals R !! GV)) deref) deref;
  match G_kind G with
  | GK_Function =>
      do count <- get (fun R => bool_decide (is_Some (DeferredFunctionInfo R !! GV)));
      ret (Function_isDeclaration G && count)
  | _ => ret false
  end.

Definition isDematerializable (GV : nat) : M bool :=
  do G <- bind (bind (get (fun R => Globals R !! GV)) deref) deref;
  match G_kind G with
  | GK_Function =>
      if Function_isDeclaration G then ret false
      else get (fun R => bool_decide (is_Some (DeferredFunctionInfo R !! GV)))
  | _ => ret false
  end.

End Reader.

(** ** Stream initialisation (BitcodeReader.cpp:3351) *)

Section InitStream.

(** The bitcode-wrapper helpers of [llvm/Bitcode/ReaderWriter.h] and the
    parse of the blocks behind the signature are taken as given: a buffer is
    its bytes, a cursor the bytes it will read. *)
Variable isBitcode : list Z -> bool.
Variable isBitcodeWrapper : list Z -> bool.
(** [SkipBitcodeWrapperHeader(BufPtr, BufEnd, Verify)]: [None] when it
    reports a failure, else the offset it adds to [BufPtr] and the size it
    leaves between the two pointers. *)
Variable SkipBitcodeWrapperHeader : list Z -> bool -> option (nat * nat).
Variable ParseTopLevelBlocks : list Z -> M unit.

Definition InitStreamFromBuffer (Buffer : list Z) : res (list Z) :=
  if nonzero (Z.land (size Buffer) 3) then Err InvalidBitcodeSignature
  else if isBitcodeWrapper Buffer then
    match SkipBitcodeWrapperHeader Buffer true with
    | None => Err InvalidBitcodeWrapperHeader
    | Some (Offset, Size) => Ok (take Size (drop Offset Buffer))
    end
  else Ok Buffer.

(** The streamer is the bytes it can deliver. *)
Definition InitLazyStream (Bytes : list Z) : res (list Z) :=
  let buf := take 16 Bytes in
  if negb (size buf =? 16) then Err InvalidBitcodeSignature
  else if negb (isBitcode buf) then Err InvalidBitcodeSignature
  else if isBitcodeWrapper (take 4 buf) then
    match SkipBitcodeWrapperHeader buf false with
    | None => Ok (take 16 Bytes)
    | Some (Offset, Size) => Ok (take Size (drop Offset Bytes))
    end
  else Ok Bytes.

Definition InitStream (Buffer : list Z) : M (list Z) :=
  do Lazy <- get LazyStreamer;
  if (Lazy : bool) then lift (InitLazyStream Buffer)
  else lift (InitStreamFromBuffer Buffer).

(** The signature 'B' 'C' 0x0 0xC 0xE 0xD, read in fields of 8, 8, 4, 4, 4
    and 4 bits. *)
Definition hasSignature (Stream : list Z) : bool :=
  match Stream with
  | 66 :: 67 :: 192 :: 222 :: _ => true
  | _ => false
  end.

Definition ParseBitcodeInto (Buffer : list Z) : M unit :=
  do Stream <- InitStream Buffer;
  if negb (hasSignature Stream) then Error InvalidBitcodeSignature
  else ParseTopLevelBlocks (drop 4 Stream).

End InitStream.

(** ** Sample streams and readers *)

(** A host that gives [i32] to every instruction that produces a value. *)
Definition sampleHost : Host :=
  mkHost (fun _ _ => Int32Ty)
         (fun I => match I with
                   | ReturnInst _ | BranchInst _ _ | SwitchInst _ _ _
                   | IndirectBrInst _ _ | ResumeInst _ | UnreachableInst
                   | StoreInst _ _ _ _ _ _ | FenceInst _ _ => VoidTy
                   | _ => Int32Ty
                   end).

(** A legacy type block that announces two types with NUMENTRY and then
    defines six: a pointer to type #5 and five times [i32]. *)
Definition oldTypeBlock_loop : Block :=
  block [ERecord 1 [2]; ERecord 8 [5]; ERecord 7 [32]; ERecord 7 [32];
         ERecord 7 [32]; ERecord 7 [32]; ERecord 7 [32]].

(** The type table that every scan of [oldTypeBlock_loop] leaves. *)
Definition oldTypeBlock_loop_table : list (option Ty) :=
  [None; Some Int32Ty; Some Int32Ty; Some Int32Ty; Some Int32Ty; Some Int32Ty].

(** A legacy type block that announces two types and defines three: [i32],
    a pointer to type #2, and [i32]. *)
Definition oldTypeBlock_hole : Block :=
  block [ERecord 1 [2]; ERecord 7 [32]; ERecord 8 [2]; ERecord 7 [32]].

(** A legacy type block in which a struct refers to a pointer type that
    comes after it: [{i32*}], [i32*], [i32]. *)
Definition oldTypeBlock_backward : Block :=
  block [ERecord 1 [3]; ERecord 10 [0; 1]; ERecord 8 [2]; ERecord 7 [32]].

(** A module with one function, [void f(i32)], of which only the prototype
    has been read; its body is deferred at bit 64. *)
Definition sampleFunction : GlobalObj :=
  mkGlobalObj GK_Function (FunctionTy VoidTy [Int32Ty] false) 0 []
    GlobalValue.ExternalLinkage GlobalValue.DefaultVisibility 0 [] false false
    GlobalValue.NotThreadLocal None 0 [] None [] [].

Definition sampleReader : BitcodeReader :=
  set_DeferredFunctionInfo {[ 0%nat := 64 ]}
  (set_TypeList [Some Int32Ty; Some (PointerTy Int32Ty 0)]
  (set_ValueList [Some (Function 0 (PointerTy (G_valty sampleFunction) 0))]
  (set_Globals [Some sampleFunction] newReader))).

(** A function body with one block that returns: [DECLAREBLOCKS 1; RET]. *)
Definition body_ret : Block := block [ERecord 1 [1]; ERecord 10 []].

(** A function body with a record of an unknown code. *)
Definition body_unknown : Block := block [ERecord 99 []].

(** A function body that starts with the legacy 'unwind' record, before any
    DECLAREBLOCKS. *)
Definition body_unwind : Block := block [ERecord 14 []].

(** A function body that starts with a 'ret' record, before any
    DECLAREBLOCKS. *)
Definition body_ret_no_block : Block := block [ERecord 10 []].

(** A constants block with a record of an unknown code. *)
Definition constants_unknown : Block := block [ERecord 99 []].

(** The locals of [ParseFunctionBody] before the first record of the body
    of [sampleFunction], and after DECLAREBLOCKS. *)
Definition sampleLocals : FnLocals := mkFnLocals 2 None 0 None.

(** A 5-byte buffer that starts with the bitcode signature. *)
Definition buffer5 : list Z := [66; 67; 192; 222; 0].









(** The alignment an instruction carries, for the instructions that have
    one. *)
Definition Instruction_getAlignment (I : Instruction) : option Z :=
  match I with
  | AllocaInst _ _ A | LoadInst _ _ A _ _ | StoreInst _ _ _ A _ _ => Some A
  | _ => None
  end.

(** A metadata block in which the record after METADATA_NAME (code 4, the
    name "x") has an unknown code. *)
Definition metadata_unknown_after_name : Block :=
  block [ERecord 4 [120]; ERecord 99 []].

(** The alignment field of a record: ALLOCA is [instty, opty, op, align];
    LOAD is [opty, op, align, vol] and STORE [ptrty, ptr, val, align, vol],
    where the operands take one or two fields each and the arm requires
    [OpNum + 2 = Record.size()], so that the field read as [Record[OpNum]]
    is the last but one. *)
Definition alignmentField (Code : Z) (Record : list Z) : option Z :=
  match bitc.FunctionCodes_of Code with
  | Some bitc.FUNC_CODE_INST_ALLOCA => elt Record 3
  | Some bitc.FUNC_CODE_INST_LOAD | Some bitc.FUNC_CODE_INST_STORE =>
      elt Record (size Record - 2)
  | _ => None
  end.

(** The case labels of the switches over record codes; every other code
    takes the default arm. *)
Definition ParseMetadata_recognized (Code : Z) : bool :=
  match bitc.MetadataCodes_of Code with
  | Some (bitc.METADATA_NAME | bitc.METADATA_FN_NODE | bitc.METADATA_NODE
         | bitc.METADATA_STRING | bitc.METADATA_KIND) => true
  | _ => false
  end.

Definition ParseMetadataAttachment_recognized (Code : Z) : bool :=
  match bitc.MetadataCodes_of Code with
  | Some bitc.METADATA_ATTACHMENT => true
  | _ => false
  end.

Definition ParseConstants_recognized (Code : Z) : bool :=
  match bitc.ConstantsCodes_of Code with
  | Some (bitc.CST_CODE_INLINEASM_OLD | bitc.CST_CODE_DATA) | None => false
  | Some _ => true
  end.

Definition ParseFunctionBody_recognized (Code : Z) : bool :=
  match bitc.FunctionCodes_of Code with
  | Some _ => true
  | None => Code =? FUNC_CODE_INST_UNWIND_2_7
  end.

Definition ParseOldTypeTable_recognized (Code : Z) : bool :=
  (Code =? TYPE_CODE_STRUCT_OLD_3_0) ||
  match bitc.TypeCodes_of Code with
  | Some (bitc.TYPE_CODE_HALF | bitc.TYPE_CODE_STRUCT_ANON
         | bitc.TYPE_CODE_STRUCT_NAME | bitc.TYPE_CODE_STRUCT_NAMED) | None =>
      false
  | Some _ => true
  end.



(** ** The scan of the legacy type table, in two steps *)

(** A scan is a walk over the records followed by the test made at
    END_BLOCK. *)
Fixpoint ParseOldTypeTable_walk (es : list Entry) (L : OldTypeScan)
  : M OldTypeScan :=
  match es with
  | [] => ret L
  | ESubBlock _ B :: es' =>
      if B_skipFails B then Error MalformedBlock
      else ParseOldTypeTable_walk es' L
  | EDefineAbbrev :: es' => ParseOldTypeTable_walk es' L
  | ERecord Code Record :: es' =>
      do r <- ParseOldTypeTable_record Code Record (NextTypeID L);
      match r with
      | inl _ => ParseOldTypeTable_walk es' L
      | inr ResultTy =>
          do sz <- get (fun R => size (TypeList R));
          if sz <=? NextTypeID L then Error InvalidTYPETable
          else
            do Cur <- bind (get TypeList) (fun l => at_ l (NextTypeID L));
            match ResultTy, Cur with
            | Some T, None =>
                modify (fun R => set_TypeList
                          (vset (NextTypeID L) (Some T) (TypeList R)) R) ;;
                ParseOldTypeTable_walk es'
                  (mkOldTypeScan (uint32 (NextTypeID L + 1))
                                 (uint32 (NumTypesRead L + 1)) true)
            | _, _ =>
                ParseOldTypeTable_walk es'
                  (mkOldTypeScan (uint32 (NextTypeID L + 1))
                                 (NumTypesRead L) (ReadAnyTypes L))
            end
      end
  end.

Definition ParseOldTypeTable_end (endFails : bool) (L : OldTypeScan)
  : M ScanEnd :=
  do sz <- get (fun R => size (TypeList R));
  if negb (NextTypeID L =? sz) then Error InvalidTYPETable
  else if negb (NumTypesRead L =? sz) then
    if negb (ReadAnyTypes L) then Error InvalidTYPETable
    else ret (RestartScan (NumTypesRead L))
  else if endFails then Error InvalidTYPETable
  else ret ScanDone.

(** Adding [n] to the number of types read that a walk returns. *)
Definition shiftCount (n : Z) (x : res OldTypeScan * BitcodeReader)
  : res OldTypeScan * BitcodeReader :=
  match x with
  | (Ok L0, R') =>
      (Ok (mkOldTypeScan (NextTypeID L0) (uint32 (n + NumTypesRead L0))
             (ReadAnyTypes L0)), R')
  | other => other
  end.


(** ** Deferred function bodies (BitcodeReader.cpp:1904) *)

(** [RememberAndSkipFunctionBody]: [CurBit] is [Stream.GetCurrentBitNo()]
    and [B] the function block the cursor stands before. *)
Definition RememberAndSkipFunctionBody (CurBit : Z) (B : Block) : M unit :=
  do Fs <- get FunctionsWithBodies;
  match last Fs with
  | None => Error InsufficientFunctionProtos
  | Some Fn =>
      modify (set_FunctionsWithBodies (removelast Fs)) ;;
      modify (fun R => set_DeferredFunctionInfo
                (<[Fn := CurBit]> (DeferredFunctionInfo R)) R) ;;
      if B_skipFails B then Error InvalidRecord else ret tt
  end.

(** ** Initializers of globals and aliases (BitcodeReader.cpp:1479) *)

(** [getGlobalObjectInExpr].  The recursion of the C++ function has no
    bound: [None] is the model running out of [fuel].  The assertions on the
    opcode of the expression are not in a release build. *)
Fixpoint getGlobalObjectInExpr (fuel : nat) (Map : gmap nat Value)
    (C : Value) : res (option Value) :=
  match fuel with
  | O => Ok None
  | S fuel =>
      match C with
      | GlobalVariable _ _ | Function _ _ => Ok (Some C)
      | GlobalAlias GA _ =>
          match Map !! GA with
          | Some C' => getGlobalObjectInExpr fuel Map C'
          | None => Undef
          end
      | ConstantExpr _ (Op0 :: _) _ => getGlobalObjectInExpr fuel Map Op0
      | _ => Undef
      end
  end.

(** The first loop of [ResolveGlobalAndAliasInits], on the work list taken
    from its back. *)
Fixpoint resolveGlobalInits (Worklist : list (nat * Z)) : M unit :=
  match Worklist with
  | [] => ret tt
  | (GV, ValID) :: Worklist' =>
      do sz <- get (fun R => size (ValueList R));
      (if sz <=? ValID then
         (* not ready to resolve this yet *)
         modify (fun R => set_GlobalInits (GlobalInits R ++ [(GV, ValID)]) R)
       else
         do V <- bind (get ValueList) (fun l => at_ l ValID);
         match V with
         | Some C =>
             if isaConstant C then updGlobal GV (set_G_init (Some C))
             else Error ExpectedConstant
         | None => Error ExpectedConstant
         end) ;;
      resolveGlobalInits Worklist'
  end.

(** The second loop: the aliasees are collected in a map first;
    [DenseMap::insert] keeps the first entry of a key. *)
Fixpoint resolveAliasInits (Worklist : list (nat * Z))
    (AliasInit : gmap nat Value) : M (gmap nat Value) :=
  match Worklist with
  | [] => ret AliasInit
  | (GA, ValID) :: Worklist' =>
      do sz <- get (fun R => size (ValueList R));
      do AliasInit <-
        (if sz <=? ValID then
           modify (fun R => set_AliasInits (AliasInits R ++ [(GA, ValID)]) R) ;;
           ret AliasInit
         else
           do V <- bind (get ValueList) (fun l => at_ l ValID);
           match V with
           | Some C =>
               if isaConstant C then
                 ret (match AliasInit !! GA with
                      | Some _ => AliasInit
                      | None => <[GA := C]> AliasInit
                      end)
               else Error ExpectedConstant
           | None => Error ExpectedConstant
           end);
      resolveAliasInits Worklist' AliasInit
  end.

(** The last loop: [Pair.first->setAliasee(&GO)] for every pair of the
    map.  The order in which a [DenseMap] is walked is not specified; the
    pairs are taken here in the order of the list of the map.  Each step
    reads the map and writes one alias, so the order only decides which of
    two failing pairs fails first. *)
Fixpoint setAliasees (fuel : nat) (AliasInit : gmap nat Value)
    (Pairs : list (nat * Value)) : M (option unit) :=
  match Pairs with
  | [] => ret (Some tt)
  | (GA, C) :: Pairs' =>
      do GO <- lift (getGlobalObjectInExpr fuel AliasInit C);
      match GO with
      | None => ret None
      | Some GO =>
          updGlobal GA (set_G_init (Some GO)) ;;
          setAliasees fuel AliasInit Pairs'
      end
  end.

(** [ResolveGlobalAndAliasInits].  The initializer of a global variable and
    the aliasee of an alias are both kept in [G_init]. *)
Definition ResolveGlobalAndAliasInits (fuel : nat) : M (option unit) :=
  do GlobalInitWorklist <- get GlobalInits;
  do AliasInitWorklist <- get AliasInits;
  modify (set_GlobalInits []) ;;
  modify (set_AliasInits []) ;;
  resolveGlobalInits (rev GlobalInitWorklist) ;;
  do AliasInit <- resolveAliasInits (rev AliasInitWorklist) ∅;
  setAliasees fuel AliasInit (map_to_list AliasInit).

(** ** The target triple of a module (BitcodeReader.cpp:2298) *)

(** The loop of [parseModuleTriple], driven by [advanceSkippingSubblocks];
    it does not touch the reader. *)
Fixpoint parseModuleTriple_loop (es : list Entry) (endFails : bool)
    (Triple : Str) : res Str :=
  match es with
  | [] => if endFails then Err MalformedBlock else Ok Triple
  | ESubBlock _ B :: es' =>
      if B_skipFails B then Err MalformedBlock
      else parseModuleTriple_loop es' endFails Triple
  | EDefineAbbrev :: es' => parseModuleTriple_loop es' endFails Triple
  | ERecord Code Record :: es' =>
      match bitc.ModuleCodes_of Code with
      | Some bitc.MODULE_CODE_TRIPLE =>
          match ConvertToString Record 0 [] with
          | None => Err InvalidRecord
          | Some Str_ => parseModuleTriple_loop es' endFails Str_
          end
      | _ => parseModuleTriple_loop es' endFails Triple  (* default: ignore *)
      end
  end.

Definition parseModuleTriple (B : Block) : res Str :=
  if B_enterFails B then Err InvalidRecord
  else parseModuleTriple_loop (B_entries B) (B_endFails B) [].

(** ** Error messages (BitcodeReader.cpp:3405) *)

(** [BitcodeErrorCategoryType::message]. *)
Definition message (E : BitcodeError) : string :=
  match E with
  | ConflictingMETADATA_KINDRecords => "Conflicting METADATA_KIND records"
  | CouldNotFindFunctionInStream => "Could not find function in stream"
  | ExpectedConstant => "Expected a constant"
  | InsufficientFunctionProtos => "Insufficient function protos"
  | InvalidBitcodeSignature => "Invalid bitcode signature"
  | InvalidBitcodeWrapperHeader => "Invalid bitcode wrapper header"
  | InvalidConstantReference => "Invalid ronstant reference"
  | InvalidID => "Invalid ID"
  | InvalidInstructionWithNoBB => "Invalid instruction with no BB"
  | InvalidRecord => "Invalid record"
  | InvalidTypeForValue => "Invalid type for value"
  | InvalidTYPETable => "Invalid TYPE table"
  | InvalidType => "Invalid type"
  | MalformedBlock => "Malformed block"
  | MalformedGlobalInitializerSet => "Malformed global initializer set"
  | InvalidMultipleBlocks => "Invalid multiple blocks"
  | NeverResolvedValueFoundInFunction =>
      "Never resolved value found in function"
  | InvalidValue => "Invalid value"
  end.

(** ** Counting the records of a block *)

(** The records of a block whose code satisfies [p]. *)
Fixpoint countRecords (p : Z -> bool) (es : list Entry) : Z :=
  match es with
  | [] => 0
  | ERecord Code _ :: es' => (if p Code then 1 else 0) + countRecords p es'
  | _ :: es' => countRecords p es'
  end.

(** The records of a CONSTANTS block that stand for a value: all but
    SETTYPE. *)
Definition isConstantValueCode (Code : Z) : bool :=
  match bitc.ConstantsCodes_of Code with
  | Some bitc.CST_CODE_SETTYPE => false
  | _ => true
  end.

(** The records of a TYPE block that stand for a type: all but NUMENTRY and
    STRUCT_NAME. *)
Definition isTypeCode (Code : Z) : bool :=
  match bitc.TypeCodes_of Code with
  | Some (bitc.TYPE_CODE_NUMENTRY | bitc.TYPE_CODE_STRUCT_NAME) => false
  | _ => true
  end.

(** The records of a PARAMATTR block that add an attribute set. *)
Definition isAttributeEntryCode (Code : Z) : bool :=
  match bitc.AttributeCodes_of Code with
  | Some _ => true
  | None => false
  end.

(** The entries [advanceSkippingSubblocks] passes: no sub-block fails to be
    skipped. *)
Definition skippable (e : Entry) : bool :=
  match e with
  | ESubBlock _ B => negb (B_skipFails B)
  | _ => true
  end.

Definition isTripleRecord (e : Entry) : bool :=
  match e with
  | ERecord Code _ =>
      match bitc.ModuleCodes_of Code with
      | Some bitc.MODULE_CODE_TRIPLE => true
      | _ => false
      end
  | _ => false
  end.

(** The binary operators on floating-point values, and their integer
    counterparts. *)
Definition isFPBinaryOp (Opc : Instruction.BinaryOps) : bool :=
  match Opc with
  | Instruction.FAdd | Instruction.FSub | Instruction.FMul
  | Instruction.FDiv | Instruction.FRem => true
  | _ => false
  end.

(** An empty slot: past the end of the table, or null. *)
Definition emptySlot {A} (l : list (option A)) (i : Z) : Prop :=
  elt l i = None \/ elt l i = Some None.


(** A module with the function of [sampleReader] and an alias, global 1 and
    value 1, whose aliasee is the value [ValID]. *)
Definition sampleAlias : GlobalObj :=
  mkGlobalObj GK_Alias (FunctionTy VoidTy [Int32Ty] false) 0 []
    GlobalValue.ExternalLinkage GlobalValue.DefaultVisibility 0 [] false false
    GlobalValue.NotThreadLocal None 0 [] None [] [].

Definition aliasReader (ValID : Z) : BitcodeReader :=
  set_AliasInits [(1%nat, ValID)]
    (set_ValueList
       [Some (Function 0 (PointerTy (FunctionTy VoidTy [Int32Ty] false) 0));
        Some (GlobalAlias 1 (PointerTy (FunctionTy VoidTy [Int32Ty] false) 0))]
       (set_Globals [Some sampleFunction; Some sampleAlias] sampleReader)).

(** Two readers with the same value table, type table and metadata
    table. *)
Definition sameTables (R R' : BitcodeReader) : Prop :=
  ValueList R' = ValueList R /\ TypeList R' = TypeList R /\
  MDValueList R' = MDValueList R.

(** The operators of the binary-operator codes 0..12 on an integer type, in
    the order of the codes, and the operator a floating-point type selects
    in place of each. *)
Definition intBinaryOps : list Instruction.BinaryOps :=
  [Instruction.Add; Instruction.Sub; Instruction.Mul; Instruction.UDiv;
   Instruction.SDiv; Instruction.URem; Instruction.SRem; Instruction.Shl;
   Instruction.LShr; Instruction.AShr; Instruction.And; Instruction.Or;
   Instruction.Xor].

Definition fpCounterpart (Opc : Instruction.BinaryOps)
  : Instruction.BinaryOps :=
  match Opc with
  | Instruction.Add => Instruction.FAdd
  | Instruction.Sub => Instruction.FSub
  | Instruction.Mul => Instruction.FMul
  | Instruction.SDiv => Instruction.FDiv
  | Instruction.SRem => Instruction.FRem
  | Opc => Opc
  end.


(** The entries of the queues of [ResolveGlobalAndAliasInits]: an entry is
    pending when its value is not in the value table yet
    ([ValID >= ValueList.size()]); the global of an entry is a live object
    of the module; [dyn_cast<GlobalObject>] holds of the global variables
    and the functions. *)
Definition pendingInit (R : BitcodeReader) (p : nat * Z) : Prop :=
  size (ValueList R) <= p.2.

#[global] Instance pendingInit_dec (R : BitcodeReader) (p : nat * Z) :
  Decision (pendingInit R p) := Z_le_dec (size (ValueList R)) p.2.

Definition liveGlobal (R : BitcodeReader) (id : nat) : Prop :=
  exists G, Globals R !! id = Some (Some G).

Definition isGlobalObject (C : Value) : bool :=
  match C with
  | GlobalVariable _ _ | Function _ _ => true
  | _ => false
  end.

(** An entry whose value is a constant of the table, and one whose value is
    a global variable or a function of the table. *)
Definition constantInit (R : BitcodeReader) (p : nat * Z) : Prop :=
  exists C, elt (ValueList R) p.2 = Some (Some C) /\ isaConstant C = true /\
            liveGlobal R p.1.

Definition directAliasee (R : BitcodeReader) (p : nat * Z) : Prop :=
  exists C, elt (ValueList R) p.2 = Some (Some C) /\ isGlobalObject C = true /\
            liveGlobal R p.1.

(** The module of [aliasReader] with two queued initializers: the value 0
    for the global 0, and the value 7, not read yet, for a global 2. *)
Definition queuesReader : BitcodeReader :=
  set_GlobalInits [(0%nat, 0); (2%nat, 7)] (aliasReader 0).

(** * Properties *)

(** ** Arithmetic of the machine integers *)

Lemma land_1_mod2 (v : Z) : Z.land v 1 = v mod 2.
Proof. change 1 with (Z.ones 1). rewrite Z.land_ones by lia. reflexivity. Qed.

Lemma shiftr_1_div2 (v : Z) : Z.shiftr v 1 = v / 2.
Proof. rewrite Z.shiftr_div_pow2 by lia. reflexivity. Qed.

Lemma shiftl_1_double (v : Z) : Z.shiftl v 1 = 2 * v.
Proof. rewrite Z.shiftl_mul_pow2 by lia. lia. Qed.

Lemma lor_even_1 (m : Z) : Z.lor (2 * m) 1 = 2 * m + 1.
Proof.
  assert (Hl : Z.land (2 * m) 1 = 0).
  { rewrite land_1_mod2. rewrite Z.mul_comm. apply Z.mod_mul. lia. }
  rewrite <- Z.lxor_lor by exact Hl.
  symmetry. apply Z.add_nocarry_lxor. exact Hl.
Qed.

Lemma uint64_small (x : Z) : 0 <= x < 2 ^ 64 -> uint64 x = x.
Proof. intros. unfold uint64. apply Z.mod_small. lia. Qed.

Lemma uint32_small (x : Z) : 0 <= x < 2 ^ 32 -> uint32 x = x.
Proof. intros. unfold uint32. apply Z.mod_small. lia. Qed.

Lemma uint64_neg (x : Z) : 0 < x <= 2 ^ 64 -> uint64 (- x) = 2 ^ 64 - x.
Proof.
  intros. unfold uint64.
  replace (- x) with ((2 ^ 64 - x) + (-1) * 2 ^ 64) by lia.
  rewrite Z.mod_add by lia. apply Z.mod_small. lia.
Qed.

Lemma int64_low (x : Z) : 0 <= x < 2 ^ 63 -> int64 x = x.
Proof. intros. unfold int64. rewrite Z.mod_small by lia. lia. Qed.

Lemma int64_high (x : Z) : 2 ^ 63 <= x < 2 ^ 64 -> int64 x = x - 2 ^ 64.
Proof.
  intros. unfold int64.
  replace (x + 2 ^ 63) with ((x - 2 ^ 63) + 1 * 2 ^ 64) by lia.
  rewrite Z.mod_add by lia. rewrite Z.mod_small by lia. lia.
Qed.

(** ** Sign-rotated values *)

Lemma decodeSignRotatedValue_even (v : Z) :
  Z.land v 1 = 0 -> decodeSignRotatedValue v = Z.shiftr v 1.
Proof.
  intros H. unfold decodeSignRotatedValue. rewrite H. reflexivity.
Qed.

Lemma decodeSignRotatedValue_odd (v : Z) :
  Z.land v 1 <> 0 -> v <> 1 ->
  decodeSignRotatedValue v = uint64 (- Z.shiftr v 1).
Proof.
  intros H H1. unfold decodeSignRotatedValue.
  destruct (Z.eqb_spec (Z.land v 1) 0); [contradiction |].
  destruct (Z.eqb_spec v 1); [contradiction | reflexivity].
Qed.

Lemma decodeSignRotatedValue_1 : decodeSignRotatedValue 1 = 2 ^ 63.
Proof. reflexivity. Qed.

Lemma decode_encode_SignRotatedValue (x : Z) :
  - 2 ^ 63 <= x < 2 ^ 63 ->
  int64 (decodeSignRotatedValue (encodeSignRotatedValue x)) = x.
Proof.
  intros Hx. unfold encodeSignRotatedValue.
  destruct (Z.leb_spec 0 x) as [Hpos | Hneg].
  - rewrite shiftl_1_double, uint64_small by lia.
    rewrite decodeSignRotatedValue_even.
    + rewrite shiftr_1_div2.
      replace (2 * x / 2) with x by (rewrite Z.mul_comm, Z.div_mul; lia).
      apply int64_low. lia.
    + rewrite land_1_mod2, Z.mul_comm. apply Z.mod_mul. lia.
  - destruct (Z.eq_dec x (- 2 ^ 63)) as [-> | Hmin].
    + reflexivity.
    + rewrite (uint64_small (- x)) by lia.
      rewrite shiftl_1_double.
      rewrite (uint64_small (2 * - x)) by lia.
      rewrite lor_even_1.
      rewrite decodeSignRotatedValue_odd.
      * rewrite shiftr_1_div2.
        replace ((2 * - x + 1) / 2) with (- x).
        2:{ apply Z.div_unique with (r := 1); lia. }
        rewrite (uint64_neg (- x)) by lia.
        rewrite int64_high by lia. lia.
      * rewrite land_1_mod2.
        replace (2 * - x + 1) with (1 + (- x) * 2) by lia.
        rewrite Z.mod_add by lia. discriminate.
      * lia.
Qed.

(** C1: for every 64-bit word [v], [decodeSignRotatedValue v] is [v >> 1]
    when the low bit of [v] is clear, [-(v >> 1)] (as a 64-bit word, and so
    as an int64) when [v] is odd and not 1, and the word 2^63, which is
    INT64_MIN, when [v] is 1; consequently decoding the sign-rotated
    encoding of an int64 [x] gives [x] back. *)
Theorem C1_decodeSignRotatedValue (v x : Z) :
  0 <= v < 2 ^ 64 -> - 2 ^ 63 <= x < 2 ^ 63 ->
  (Z.land v 1 = 0 -> decodeSignRotatedValue v = Z.shiftr v 1) /\
  (Z.land v 1 <> 0 -> v <> 1 ->
     decodeSignRotatedValue v = uint64 (- Z.shiftr v 1) /\
     int64 (decodeSignRotatedValue v) = - Z.shiftr v 1) /\
  (v = 1 ->
     decodeSignRotatedValue v = 2 ^ 63 /\
     int64 (decodeSignRotatedValue v) = INT64_MIN) /\
  int64 (decodeSignRotatedValue (encodeSignRotatedValue x)) = x.
Proof.
  intros Hv Hx. repeat split.
  - apply decodeSignRotatedValue_even.
  - apply decodeSignRotatedValue_odd; assumption.
  - rewrite decodeSignRotatedValue_odd by assumption.
    rewrite shiftr_1_div2.
    assert (Hd : 1 <= v / 2 < 2 ^ 63).
    { rewrite land_1_mod2 in H.
      pose proof (Z.div_mod v 2 ltac:(lia)).
      pose proof (Z.mod_pos_bound v 2 ltac:(lia)). lia. }
    rewrite uint64_neg by lia. rewrite int64_high by lia. lia.
  - subst v. reflexivity.
  - subst v. reflexivity.
  - apply decode_encode_SignRotatedValue. assumption.
Qed.

Lemma C1_decodeSignRotatedValue_witness :
  (Z.land 7 1 = 0 -> decodeSignRotatedValue 7 = Z.shiftr 7 1) /\
  (Z.land 7 1 <> 0 -> 7 <> 1 ->
     decodeSignRotatedValue 7 = uint64 (- Z.shiftr 7 1) /\
     int64 (decodeSignRotatedValue 7) = - Z.shiftr 7 1) /\
  (7 = 1 ->
     decodeSignRotatedValue 7 = 2 ^ 63 /\
     int64 (decodeSignRotatedValue 7) = INT64_MIN) /\
  int64 (decodeSignRotatedValue (encodeSignRotatedValue (-3))) = -3.
Proof. apply (C1_decodeSignRotatedValue 7 (-3)); lia. Defined.

(** ** Alignment fields *)

Lemma decodeAlignment_0 : decodeAlignment 0 = Ok 0.
Proof. reflexivity. Qed.

Lemma decodeAlignment_pow2 (k : Z) :
  0 <= k < 30 -> decodeAlignment (k + 1) = Ok (2 ^ k).
Proof.
  intros Hk.
  assert (Hn : exists n : nat, (n < 30)%nat /\ k = Z.of_nat n).
  { exists (Z.to_nat k). split; lia. }
  destruct Hn as (n & Hn & ->).
  do 30 (destruct n as [| n]; [reflexivity |]). lia.
Qed.

(** C6, as stated, fails: the alignment 2^30 is a power of two, its field is
    log2(2^30)+1 = 31, and [(1 << 31) >> 1] on a 32-bit [int] does not give
    2^30 back. *)
Lemma C6_counterexample :
  decodeAlignment (Z.log2 (2 ^ 30) + 1) <> Ok (2 ^ 30).
Proof. vm_compute. discriminate. Qed.

(** ** Legacy attribute words *)

Lemma attr_alignment_field (w : Z) :
  uint32 (Z.shiftr (Z.land w (Z.shiftl 65535 16)) 16) = (w / 2 ^ 16) mod 2 ^ 16.
Proof.
  change 65535 with (Z.ones 16).
  rewrite Z.shiftr_land.
  rewrite Z.shiftr_shiftl_l by lia. change (16 - 16) with 0.
  rewrite Z.shiftl_0_r.
  rewrite Z.land_ones by lia. rewrite Z.shiftr_div_pow2 by lia.
  apply uint32_small.
  pose proof (Z.mod_pos_bound (w / 2 ^ 16) (2 ^ 16) ltac:(lia)). lia.
Qed.

Lemma attr_raw_bits (w i : Z) :
  0 <= i ->
  Z.testbit
    (Z.lor (Z.shiftr (Z.land w (Z.shiftl 1048575 32)) 11) (Z.land w 65535)) i =
  ((i <? 16) && Z.testbit w i)
  || ((21 <=? i) && (i <? 41) && Z.testbit w (i + 11)).
Proof.
  intros Hi.
  change 1048575 with (Z.ones 20). change 65535 with (Z.ones 16).
  rewrite Z.lor_spec, Z.shiftr_spec, !Z.land_spec by lia.
  rewrite Z.shiftl_spec by lia.
  rewrite (Z.testbit_ones_nonneg 16 i) by lia.
  assert (Hf : Z.testbit (Z.ones 20) (i + 11 - 32) = (21 <=? i) && (i <? 41)).
  { destruct (Z.leb_spec 21 i).
    - rewrite Z.testbit_ones_nonneg by lia.
      destruct (Z.ltb_spec (i + 11 - 32) 20), (Z.ltb_spec i 41);
        try lia; reflexivity.
    - rewrite Z.testbit_neg_r by lia. reflexivity. }
  rewrite Hf.
  destruct (i <? 16), (21 <=? i), (i <? 41), (Z.testbit w i),
    (Z.testbit w (i + 11)); reflexivity.
Qed.

(** C7, as stated, fails: in the word [4 << 16] bits 16..31 hold 4, which
    read as log2(alignment)+1 is the alignment 8; the decoder hands the
    alignment 4 to the builder. *)
Lemma C7_counterexample :
  decodeLLVMAttributesForBitcode [] (Z.shiftl 4 16) =
    [addAlignmentAttr 4; addRawValue 0] /\
  log2_coded_alignment ((Z.shiftl 4 16 / 2 ^ 16) mod 2 ^ 16) = 8.
Proof. split; reflexivity. Qed.

(** C7 (amended): for every 64-bit encoded-attributes word [w], the legacy
    attribute decoder adds to the builder the alignment held in bits 16..31
    of [w] as a raw 16-bit number (no alignment when they are zero), and then
    the raw attribute bits: bits 0..15 of [w] in place, and bits 32..51 of
    [w] shifted down by 11, to bits 21..40. *)
Theorem C7_decodeLLVMAttributesForBitcode (B : AttrBuilder) (w : Z) :
  0 <= w < 2 ^ 64 ->
  exists Raw,
    decodeLLVMAttributesForBitcode B w =
      B ++ (if (w / 2 ^ 16) mod 2 ^ 16 =? 0 then []
            else [addAlignmentAttr ((w / 2 ^ 16) mod 2 ^ 16)])
        ++ [addRawValue Raw] /\
    forall i, 0 <= i ->
      Z.testbit Raw i =
        ((i <? 16) && Z.testbit w i)
        || ((21 <=? i) && (i <? 41) && Z.testbit w (i + 11)).
Proof.
  intros _.
  exists (Z.lor (Z.shiftr (Z.land w (Z.shiftl 1048575 32)) 11)
                (Z.land w 65535)).
  split.
  - unfold decodeLLVMAttributesForBitcode.
    rewrite attr_alignment_field.
    destruct ((w / 2 ^ 16) mod 2 ^ 16 =? 0).
    + rewrite app_nil_l. reflexivity.
    + rewrite <- app_assoc. reflexivity.
  - intros i Hi. apply attr_raw_bits. exact Hi.
Qed.

Lemma C7_decodeLLVMAttributesForBitcode_witness :
  exists Raw,
    decodeLLVMAttributesForBitcode [] 4295229443 =
      [] ++ (if (4295229443 / 2 ^ 16) mod 2 ^ 16 =? 0 then []
             else [addAlignmentAttr ((4295229443 / 2 ^ 16) mod 2 ^ 16)])
         ++ [addRawValue Raw] /\
    forall i, 0 <= i ->
      Z.testbit Raw i =
        ((i <? 16) && Z.testbit 4295229443 i)
        || ((21 <=? i) && (i <? 41) && Z.testbit 4295229443 (i + 11)).
Proof. apply (C7_decodeLLVMAttributesForBitcode [] 4295229443). lia. Defined.

(** ** The materializer *)

(** C8: for every global value [GV] of the module, [isMaterializable]
    returns true if and only if [GV] is a function that is a declaration
    (has no body) and has an entry in [DeferredFunctionInfo]; for a global
    value that is not a function it returns false.  The reader is left
    unchanged. *)
Theorem C8_isMaterializable (R : BitcodeReader) (GV : nat) (G : GlobalObj) :
  Globals R !! GV = Some (Some G) ->
  exists b : bool,
    isMaterializable GV R = (Ok b, R) /\
    (b = true <->
       G_kind G = GK_Function /\ G_blocks G = [] /\
       is_Some (DeferredFunctionInfo R !! GV)) /\
    (G_kind G <> GK_Function -> b = false).
Proof.
  intros HG.
  unfold isMaterializable, bind, get, deref. rewrite HG. cbn.
  destruct (G_kind G) eqn:Hk; cbn.
  - exists false. repeat split; try discriminate. intros (? & _); discriminate.
  - exists (Function_isDeclaration G
            && bool_decide (is_Some (DeferredFunctionInfo R !! GV))).
    split; [reflexivity |]. split; [| congruence].
    rewrite andb_true_iff, bool_decide_eq_true.
    unfold Function_isDeclaration.
    destruct (G_blocks G); split; intros Hb.
    + destruct Hb; auto.
    + destruct Hb as (_ & _ & Hd). auto.
    + destruct Hb; discriminate.
    + destruct Hb as (_ & Hn & _). discriminate.
  - exists false. repeat split; try discriminate. intros (? & _); discriminate.
Qed.

(** ** Stream initialisation *)

Lemma land_3_mod4 (n : Z) : Z.land n 3 = n mod 4.
Proof. change 3 with (Z.ones 2). rewrite Z.land_ones by lia. reflexivity. Qed.

(** C10: when the reader is initialised from a fully resident buffer, a
    buffer whose size in bytes is not a multiple of 4 is rejected with
    InvalidBitcodeSignature whatever its bytes are and whatever the wrapper
    and signature checks would say of them; nothing of it is parsed and the
    reader is left unchanged. *)
Theorem C10_InitStreamFromBuffer
    (isBitcode isBitcodeWrapper : list Z -> bool)
    (SkipBitcodeWrapperHeader : list Z -> bool -> option (nat * nat))
    (ParseTopLevelBlocks : list Z -> M unit)
    (Buffer : list Z) (R : BitcodeReader) :
  size Buffer mod 4 <> 0 ->
  LazyStreamer R = false ->
  InitStreamFromBuffer isBitcodeWrapper SkipBitcodeWrapperHeader Buffer
    = Err InvalidBitcodeSignature /\
  ParseBitcodeInto isBitcode isBitcodeWrapper SkipBitcodeWrapperHeader
    ParseTopLevelBlocks Buffer R = (Err InvalidBitcodeSignature, R).
Proof.
  intros Hsz Hlazy.
  assert (Hinit : InitStreamFromBuffer isBitcodeWrapper
                    SkipBitcodeWrapperHeader Buffer
                  = Err InvalidBitcodeSignature).
  { unfold InitStreamFromBuffer, nonzero. rewrite land_3_mod4.
    destruct (Z.eqb_spec (size Buffer mod 4) 0); [contradiction | reflexivity]. }
  split; [exact Hinit |].
  unfold ParseBitcodeInto, InitStream, bind, get, lift.
  rewrite Hlazy, Hinit. reflexivity.
Qed.

(** ** Laws of the reader monad *)

Lemma bind_assoc {A B C} (m : M A) (k : A -> M B) (k' : B -> M C) R :
  bind (bind m k) k' R = bind m (fun a => bind (k a) k') R.
Proof. unfold bind. destruct (m R) as [[a | e |] R']; reflexivity. Qed.

Lemma bind_bind_ext {A B C} (m : M A) (k1 : A -> M C) (k2 : A -> M B)
    (k' : B -> M C) R :
  (forall a R', k1 a R' = bind (k2 a) k' R') ->
  bind m k1 R = bind (bind m k2) k' R.
Proof.
  intros Hk. unfold bind. destruct (m R) as [[a | e |] R']; auto.
Qed.

Lemma bind_ext {A B} (m : M A) (k1 k2 : A -> M B) R :
  (forall a R', k1 a R' = k2 a R') -> bind m k1 R = bind m k2 R.
Proof.
  intros Hk. unfold bind. destruct (m R) as [[a | e |] R']; auto.
Qed.

(** ** The legacy type table *)

Lemma ParseOldTypeTable_scan_split (es : list Entry) (endFails : bool) :
  forall L R,
    ParseOldTypeTable_scan es endFails L R =
    bind (ParseOldTypeTable_walk es L) (ParseOldTypeTable_end endFails) R.
Proof.
  induction es as [| e es IH]; intros L R.
  - reflexivity.
  - destruct e as [Code Record | ID B |]; cbn [ParseOldTypeTable_scan
      ParseOldTypeTable_walk].
    + apply bind_bind_ext. intros [u | ResultTy] R1.
      * apply IH.
      * apply bind_bind_ext. intros sz R2.
        destruct (sz <=? NextTypeID L); [reflexivity |].
        apply bind_bind_ext. intros Cur R3.
        destruct ResultTy as [T |], Cur as [C |]; apply IH.
    + destruct (B_skipFails B); [reflexivity | apply IH].
    + apply IH.
Qed.

Lemma uint32_add_l (a b : Z) : uint32 (uint32 a + b) = uint32 (a + b).
Proof. unfold uint32. apply Zplus_mod_idemp_l. Qed.

Lemma uint32_add_r (a b : Z) : uint32 (a + uint32 b) = uint32 (a + b).
Proof. unfold uint32. apply Zplus_mod_idemp_r. Qed.

Lemma shiftCount_bind {A} (n : Z) (m : M A) (k1 k2 : A -> M OldTypeScan) R :
  (forall a R', k1 a R' = shiftCount n (k2 a R')) ->
  bind m k1 R = shiftCount n (bind m k2 R).
Proof.
  intros Hk. unfold bind. destruct (m R) as [[a | e |] R']; auto.
Qed.

Lemma ParseOldTypeTable_walk_count (es : list Entry) :
  forall nt n0 ra R n,
    ParseOldTypeTable_walk es (mkOldTypeScan nt (uint32 (n + n0)) ra) R =
    shiftCount n (ParseOldTypeTable_walk es (mkOldTypeScan nt (uint32 n0) ra) R).
Proof.
  induction es as [| e es IH]; intros nt n0 ra R n.
  - cbn. rewrite uint32_add_r. reflexivity.
  - destruct e as [Code Record | ID B |]; cbn [ParseOldTypeTable_walk
      NextTypeID NumTypesRead ReadAnyTypes].
    + apply shiftCount_bind. intros [u | ResultTy] R1.
      * apply IH.
      * apply shiftCount_bind. intros sz R2.
        destruct (sz <=? nt); [reflexivity |].
        apply shiftCount_bind. intros Cur R3.
        destruct ResultTy as [T |], Cur as [C |]; try apply IH.
        apply shiftCount_bind. intros _ R4.
        rewrite !uint32_add_l.
        replace (n + n0 + 1) with (n + (n0 + 1)) by lia.
        apply IH.
    + destruct (B_skipFails B); [reflexivity | apply IH].
    + apply IH.
Qed.

Lemma uint32_range (x : Z) : 0 <= uint32 x < 2 ^ 32.
Proof. unfold uint32. apply Z.mod_pos_bound. lia. Qed.

Lemma uint32_parity (x : Z) : uint32 x mod 2 = x mod 2.
Proof.
  unfold uint32. apply Z.mod_mod_divide.
  exists (2 ^ 31). reflexivity.
Qed.

(** The first scan of [oldTypeBlock_loop] reads five types into a table of
    six; every later scan finds the table cut back to two slots by NUMENTRY,
    grown again to six by the reference to type #5, and reads four types
    once more. *)
Lemma oldTypeBlock_loop_first :
  ParseOldTypeTable_scan (B_entries oldTypeBlock_loop) false
    (mkOldTypeScan 0 0 false) newReader
  = (Ok (RestartScan 5), set_TypeList oldTypeBlock_loop_table newReader).
Proof. vm_compute. reflexivity. Qed.

Lemma oldTypeBlock_loop_next (n : Z) :
  0 <= n < 2 ^ 32 -> n mod 2 = 1 ->
  ParseOldTypeTable_scan (B_entries oldTypeBlock_loop) false
    (mkOldTypeScan 0 n false) (set_TypeList oldTypeBlock_loop_table newReader)
  = (Ok (RestartScan (uint32 (n + 4))),
     set_TypeList oldTypeBlock_loop_table newReader).
Proof.
  intros Hn Hodd.
  rewrite ParseOldTypeTable_scan_split.
  unfold bind at 1.
  replace n with (uint32 (n + 0)) at 1
    by (rewrite Z.add_0_r; apply uint32_small; exact Hn).
  rewrite ParseOldTypeTable_walk_count.
  replace (ParseOldTypeTable_walk (B_entries oldTypeBlock_loop)
             (mkOldTypeScan 0 (uint32 0) false)
             (set_TypeList oldTypeBlock_loop_table newReader))
    with (Ok (mkOldTypeScan 6 4 true),
          set_TypeList oldTypeBlock_loop_table newReader)
    by (vm_compute; reflexivity).
  cbn [shiftCount NextTypeID NumTypesRead ReadAnyTypes].
  unfold ParseOldTypeTable_end, bind, get, ret.
  cbn [NextTypeID NumTypesRead ReadAnyTypes].
  change (size (TypeList (set_TypeList oldTypeBlock_loop_table newReader)))
    with 6.
  change (6 =? 6) with true. cbn [negb].
  destruct (Z.eqb_spec (uint32 (n + 4)) 6) as [Heq | Hne].
  - exfalso. pose proof (uint32_parity (n + 4)) as Hp.
    rewrite Heq in Hp.
    replace (n + 4) with (n + 2 * 2) in Hp by lia.
    rewrite Z.mod_add in Hp by lia. rewrite Hodd in Hp. discriminate.
  - reflexivity.
Qed.

Lemma oldTypeBlock_loop_scans (fuel : nat) :
  forall n, 0 <= n < 2 ^ 32 -> n mod 2 = 1 ->
    ParseOldTypeTable_scans fuel oldTypeBlock_loop n
      (set_TypeList oldTypeBlock_loop_table newReader)
    = (Ok None, set_TypeList oldTypeBlock_loop_table newReader).
Proof.
  induction fuel as [| fuel IH]; intros n Hn Hodd.
  - reflexivity.
  - cbn [ParseOldTypeTable_scans]. unfold bind.
    change (B_endFails oldTypeBlock_loop) with false.
    rewrite oldTypeBlock_loop_next by assumption.
    apply IH.
    + apply uint32_range.
    + rewrite uint32_parity.
      replace (n + 4) with (n + 2 * 2) by lia.
      rewrite Z.mod_add by lia. exact Hodd.
Qed.

(** C3 (the code departs from the claim): on the legacy type block
    [oldTypeBlock_loop] the scans of [ParseOldTypeTable] never end: however
    many scans are allowed, the function has not returned; and on
    [oldTypeBlock_hole] it returns success with an empty slot in the type
    table. *)
Theorem C3_ParseOldTypeTable_restarts_forever :
  (forall fuel : nat,
     fst (ParseOldTypeTable fuel oldTypeBlock_loop newReader) = Ok None) /\
  (exists R',
     ParseOldTypeTable 2 oldTypeBlock_hole newReader = (Ok (Some tt), R') /\
     TypeList R' = [Some Int32Ty; None; Some Int32Ty]).
Proof.
  split.
  - intros fuel. unfold ParseOldTypeTable.
    change (B_enterFails oldTypeBlock_loop) with false. cbv iota.
    unfold bind at 1. unfold get at 1.
    change (negb (size (TypeList newReader) =? 0)) with false. cbv iota.
    destruct fuel as [| fuel]; [reflexivity |].
    cbn [ParseOldTypeTable_scans]. unfold bind.
    change (B_endFails oldTypeBlock_loop) with false.
    rewrite oldTypeBlock_loop_first.
    rewrite oldTypeBlock_loop_scans; [reflexivity | lia | reflexivity].
  - eexists. split; vm_compute; reflexivity.
Qed.

Lemma C8_isMaterializable_witness :
  exists b : bool,
    isMaterializable 0 sampleReader = (Ok b, sampleReader) /\
    (b = true <->
       G_kind sampleFunction = GK_Function /\ G_blocks sampleFunction = [] /\
       is_Some (DeferredFunctionInfo sampleReader !! 0%nat)) /\
    (G_kind sampleFunction <> GK_Function -> b = false).
Proof.
  apply (C8_isMaterializable sampleReader 0 sampleFunction). reflexivity.
Defined.

Lemma C10_InitStreamFromBuffer_witness :
  InitStreamFromBuffer (fun _ => false) (fun _ _ => None) buffer5
    = Err InvalidBitcodeSignature /\
  ParseBitcodeInto (fun _ => true) (fun _ => false) (fun _ _ => None)
    (fun _ => ret tt) buffer5 newReader
    = (Err InvalidBitcodeSignature, newReader).
Proof.
  apply (C10_InitStreamFromBuffer (fun _ => true) (fun _ => false)
           (fun _ _ => None) (fun _ => ret tt) buffer5 newReader).
  - vm_compute. discriminate.
  - reflexivity.
Defined.

(** ** Function bodies: the table lengths *)

Lemma bind_Ok {A B} (m : M A) (k : A -> M B) R b R' :
  bind m k R = (Ok b, R') ->
  exists a R1, m R = (Ok a, R1) /\ k a R1 = (Ok b, R').
Proof.
  unfold bind. destruct (m R) as [[a | e |] R1]; intros Hk;
    try discriminate. eauto.
Qed.

Lemma length_vresize {A} (n : Z) (l : list (option A)) :
  length (vresize n l) = Z.to_nat n.
Proof. unfold vresize. apply length_resize. Qed.

(** C5, as stated, fails: a body with a record of an unknown code makes
    [ParseFunctionBody] return InvalidValue with the argument of the function
    still in the value table. *)
Lemma C5_counterexample :
  exists R',
    ParseFunctionBody sampleHost 0 body_unknown sampleReader
      = (Err InvalidValue, R') /\
    length (ValueList R') <> length (ValueList sampleReader).
Proof. eexists. split; [vm_compute; reflexivity | vm_compute; discriminate]. Qed.

(** The truncations at the end of [ParseFunctionBody] are on its success
    path. *)
Lemma ParseFunctionBody_success_lengths (H : Host) (F : nat) (B : Block)
    (R R' : BitcodeReader) :
  ParseFunctionBody H F B R = (Ok tt, R') ->
  length (ValueList R') = length (ValueList R) /\
  length (MDValueList R') = length (MDValueList R) /\
  FunctionBBs R' = [].
Proof.
  unfold ParseFunctionBody. intros HP.
  destruct (B_enterFails B); [discriminate |].
  apply bind_Ok in HP as (u0 & R0 & H0 & HP).
  injection H0 as _ <-.
  apply bind_Ok in HP as (N & R1 & H1 & HP).
  injection H1 as <- <-.
  apply bind_Ok in HP as (N' & R2 & H2 & HP).
  injection H2 as <- <-.
  apply bind_Ok in HP as (G & R3 & _ & HP).
  apply bind_Ok in HP as (u4 & R4 & _ & HP).
  apply bind_Ok in HP as (NV & R5 & _ & HP).
  apply bind_Ok in HP as (L & R6 & _ & HP).
  apply bind_Ok in HP as (Back & R7 & _ & HP).
  assert (Hend :
    forall R8,
      (ValueList_shrinkTo (size (ValueList R)) ;;
       MDValueList_shrinkTo (size (MDValueList R)) ;;
       modify (set_FunctionBBs [])) R8 = (Ok tt, R') ->
      length (ValueList R') = length (ValueList R) /\
      length (MDValueList R') = length (MDValueList R) /\
      FunctionBBs R' = []).
  { intros R8 He. injection He as <-. cbn.
    rewrite !length_vresize. unfold size. rewrite !Nat2Z.id. auto. }
  assert (Hres :
    (do BAFRI <- get (fun R => BlockAddrFwdRefs R !! F);
     match BAFRI with
     | Some RefList =>
         resolveBlockAddrFwdRefs F RefList ;;
         modify (fun R => set_BlockAddrFwdRefs (delete F (BlockAddrFwdRefs R)) R)
     | None => ret tt
     end ;;
     ValueList_shrinkTo (size (ValueList R)) ;;
     MDValueList_shrinkTo (size (MDValueList R)) ;;
     modify (set_FunctionBBs [])) R7 = (Ok tt, R') ->
    length (ValueList R') = length (ValueList R) /\
    length (MDValueList R') = length (MDValueList R) /\
    FunctionBBs R' = []).
  { intros He.
    apply bind_Ok in He as (BAFRI & R8 & _ & He).
    apply bind_Ok in He as (u9 & R9 & _ & He).
    exact (Hend R9 He). }
  destruct Back; try exact (Hres HP).
  destruct Parent; [exact (Hres HP) |].
  apply bind_Ok in HP as (? & ? & _ & HP). discriminate.
Qed.

(** C5 (amended): for every invocation of [ParseFunctionBody] that returns
    success, the value-table length after the call equals its length before
    the call, the metadata value table is likewise back at the length
    captured at entry, and the function-local basic-block list is freed.
    This does not extend to the error returns: there is a body, of one
    record of an unknown code, on which the call fails with InvalidValue
    and leaves a value table of another length than before the call. *)
Theorem C5_ParseFunctionBody_lengths :
  (forall (H : Host) (F : nat) (B : Block) (R R' : BitcodeReader),
     ParseFunctionBody H F B R = (Ok tt, R') ->
     length (ValueList R') = length (ValueList R) /\
     length (MDValueList R') = length (MDValueList R) /\
     FunctionBBs R' = []) /\
  (exists R',
     ParseFunctionBody sampleHost 0 body_unknown sampleReader
       = (Err InvalidValue, R') /\
     length (ValueList R') <> length (ValueList sampleReader)).
Proof.
  split.
  - intros H F B R R' HP.
    apply (ParseFunctionBody_success_lengths H F B R R' HP).
  - eexists. split; [vm_compute; reflexivity |].
    vm_compute. discriminate.
Qed.

Lemma C5_ParseFunctionBody_lengths_witness :
  exists R',
    ParseFunctionBody sampleHost 0 body_ret sampleReader = (Ok tt, R') /\
    length (ValueList R') = length (ValueList sampleReader) /\
    length (MDValueList R') = length (MDValueList sampleReader) /\
    FunctionBBs R' = [].
Proof.
  eexists. split; [vm_compute; reflexivity |].
  eapply (proj1 C5_ParseFunctionBody_lengths sampleHost 0%nat body_ret
            sampleReader).
  vm_compute. reflexivity.
Defined.

(** ** Function bodies: the current block *)

(** The end of the loop body with no current block: the instruction is
    deleted, no block changes, and the parse fails. *)
Lemma ParseFunctionBody_append_no_block (Inst : nat) (L : FnLocals)
    (R : BitcodeReader) :
  CurBB L = None ->
  ParseFunctionBody_append Inst L R
    = (Err InvalidInstructionWithNoBB,
       set_Insts (<[Inst := None]> (Insts R)) R).
Proof.
  intros HBB. unfold ParseFunctionBody_append. rewrite HBB. reflexivity.
Qed.

(** Registering a value never touches the blocks. *)
Lemma AssignValue_Blocks (V : Value) (Idx : Z) (R : BitcodeReader) :
  Blocks (snd (AssignValue V Idx R)) = Blocks R.
Proof.
  unfold AssignValue, bind, get, modify, ret. cbn.
  destruct (uint32 Idx =? _); [reflexivity |].
  destruct (_ <=? uint32 Idx); cbn;
    (destruct (at_ _ _ _) as [[[PHC |] | |] R1] eqn:Hat;
     unfold at_, deref in Hat; destruct (elt _ _); inversion Hat; subst;
     try reflexivity;
     destruct (isaConstant PHC); try reflexivity;
     destruct PHC; reflexivity).
Qed.

(** The end of the loop body with a current block: whenever it succeeds the
    instruction has been appended to that block, and the current block has
    moved on exactly when the instruction is a terminator. *)
Lemma ParseFunctionBody_append_block (Inst BB : nat) (L L' : FnLocals)
    (R R' : BitcodeReader) (O : InstObj) (B : BasicBlockObj) :
  CurBB L = Some BB ->
  Insts R !! Inst = Some (Some O) ->
  Blocks R !! BB = Some B ->
  ParseFunctionBody_append Inst L R = (Ok L', R') ->
  Blocks R' = <[BB := mkBasicBlockObj (BB_parent B) (BB_name B)
                        (BB_insts B ++ [Inst])]> (Blocks R) /\
  (if isaTerminatorInst (I_inst O)
   then CurBBNo L' = uint32 (CurBBNo L + 1) /\
        CurBB L' = (if uint32 (CurBBNo L + 1) <? size (FunctionBBs R)
                    then default None (elt (FunctionBBs R)
                                         (uint32 (CurBBNo L + 1)))
                    else None)
   else CurBBNo L' = CurBBNo L /\ CurBB L' = CurBB L).
Proof.
  intros HBB HI HB HA. unfold ParseFunctionBody_append in HA.
  rewrite HBB in HA.
  apply bind_Ok in HA as (O' & R1 & HO & HA).
  unfold getInst, bind, get, deref in HO. rewrite HI in HO. cbn in HO.
  injection HO as <- <-.
  apply bind_Ok in HA as (u & R2' & Hpush & HA).
  unfold BasicBlock_push_back, bind, get, deref in Hpush. rewrite HB in Hpush.
  cbn in Hpush. injection Hpush as Hu HR2. subst R2'. clear Hu.
  apply bind_Ok in HA as (L1 & R3 & Hterm & HA).
  set (R2 := set_Blocks _ R) in *.
  assert (HR3 : R3 = R2 /\
          (if isaTerminatorInst (I_inst O)
           then CurBBNo L1 = uint32 (CurBBNo L + 1) /\
                CurBB L1 = (if uint32 (CurBBNo L + 1) <? size (FunctionBBs R)
                            then default None (elt (FunctionBBs R)
                                                 (uint32 (CurBBNo L + 1)))
                            else None)
           else CurBBNo L1 = CurBBNo L /\ CurBB L1 = CurBB L)).
  { destruct (isaTerminatorInst (I_inst O)).
    - apply bind_Ok in Hterm as (BBs & R4 & HBBs & Hterm).
      injection HBBs as <- <-.
      apply bind_Ok in Hterm as (Cur & R5 & HCur & Hterm).
      injection Hterm as <- <-. cbn [CurBB CurBBNo].
      change (FunctionBBs R2) with (FunctionBBs R) in HCur.
      destruct (uint32 (CurBBNo L + 1) <? size (FunctionBBs R)).
      + unfold at_, deref in HCur.
        destruct (elt (FunctionBBs R) (uint32 (CurBBNo L + 1)));
          [| discriminate].
        cbv beta iota in HCur. unfold ret in HCur.
        injection HCur as <- <-. auto.
      + injection HCur as <- <-. auto.
    - injection Hterm as <- <-. auto. }
  destruct HR3 as (-> & Hloc).
  destruct (negb (isVoidTy (I_type O))).
  - apply bind_Ok in HA as (u4 & R4 & HAV & HA).
    injection HA as <- <-. cbn [CurBB CurBBNo].
    split; [| exact Hloc].
    pose proof (AssignValue_Blocks (InstructionV Inst (I_type O))
                  (NextValueNo L1) R2) as HBl.
    rewrite HAV in HBl. exact HBl.
  - injection HA as <- <-. split; [reflexivity | exact Hloc].
Qed.

(** The legacy 'unwind' arm adds its landing pad to the current block
    before the end of the loop body is reached: with no current block the
    access is undefined. *)
Lemma UNWIND_2_7_no_block (H : Host) (F : nat) (Record : list Z)
    (L : FnLocals) (R : BitcodeReader) :
  CurBB L = None ->
  fst (ParseFunctionBody_record H F FUNC_CODE_INST_UNWIND_2_7 Record L R)
    = Undef.
Proof.
  intros HBB. unfold ParseFunctionBody_record.
  change (bitc.FunctionCodes_of FUNC_CODE_INST_UNWIND_2_7) with
    (@None bitc.FunctionCodes).
  change (FUNC_CODE_INST_UNWIND_2_7 =? FUNC_CODE_INST_UNWIND_2_7) with true.
  cbv iota. rewrite HBB.
  unfold bind at 1.
  assert (HG : exists V R1,
            getOrInsertFunction (chars "__gcc_personality_v0")
              (FunctionTy Int32Ty [] true) R = (Ok V, R1)).
  { unfold getOrInsertFunction, bind, get.
    destruct (getNamedValue _ _ _) as [V |].
    - destruct (Ty_eqb _ _); eauto.
    - cbn. eauto. }
  destruct HG as (V & R1 & ->). reflexivity.
Qed.

(** C9 (the code departs from the claim): a function body whose first
    record is the legacy 'unwind' (code 14), with no DECLAREBLOCKS before
    it, does not fail with InvalidInstructionWithNoBB: the arm dereferences
    the null current block, which is undefined; a 'ret' record in the same
    place is rejected with InvalidInstructionWithNoBB as the claim says. *)
Theorem C9_unwind_before_any_block :
  fst (ParseFunctionBody sampleHost 0 body_unwind sampleReader) = Undef /\
  fst (ParseFunctionBody sampleHost 0 body_ret_no_block sampleReader)
    = Err InvalidInstructionWithNoBB.
Proof. split; vm_compute; reflexivity. Qed.

(** ** Records of unknown codes *)

(** C2, as stated, fails: in a FUNCTION block a record of an unknown code is
    rejected with InvalidValue, in a CONSTANTS block it puts an undef of
    the current type into the value table, and in a METADATA block, right
    after a METADATA_NAME record, it makes the named node. *)
Lemma C2_counterexample :
  bitc.FunctionCodes_of 99 = None /\
  ParseFunctionBody_record sampleHost 0 99 [] sampleLocals sampleReader
    = (Err InvalidValue, sampleReader) /\
  bitc.ConstantsCodes_of 99 = None /\
  exists R',
    ParseConstants sampleHost constants_unknown sampleReader = (Ok tt, R') /\
    ValueList R' = ValueList sampleReader ++ [Some (UndefValue Int32Ty)] /\
  ParseMetadata_recognized 99 = false /\
  exists R'',
    ParseMetadata metadata_unknown_after_name sampleReader = (Ok tt, R'') /\
    NamedMetadata sampleReader = [] /\
    NamedMetadata R'' = [([120], [])].
Proof.
  split; [reflexivity |]. split; [vm_compute; reflexivity |].
  split; [reflexivity |].
  eexists. split; [vm_compute; reflexivity |].
  split; [vm_compute; reflexivity |].
  split; [reflexivity |].
  eexists. split; [vm_compute; reflexivity |].
  split; vm_compute; reflexivity.
Qed.

(** C2 (amended): a record whose code is not one of the case labels of the
    switch is ignored (the parse goes on with the next entry, the reader
    state unchanged) in a MODULE, PARAMATTR, legacy TYPE_SYMTAB,
    VALUE_SYMTAB or METADATA_ATTACHMENT block, and in a METADATA block when
    it is the record the switch is reached with.  The record that directly
    follows a METADATA_NAME record never reaches the switch: the NAME arm
    reads it as the operand list of the named node whatever its code, so
    there a record of an unknown code is treated as the record of any other
    code with the same fields, and with no fields it makes the named node
    with no operand.  In a CONSTANTS block a record of an unknown code is
    read as an UNDEF of the current type, which takes the next slot of the
    value table; in a FUNCTION block it is rejected with InvalidValue, in a
    TYPE block with InvalidValue and in a legacy TYPE block, at every point
    of a scan, with InvalidTYPETable. *)
Theorem C2_unknown_records (H : Host) (F : nat) (Code : Z) (Record : list Z)
    (es : list Entry) (endFails : bool) (R : BitcodeReader)
    (ML : ModuleLocals) (FL : FnLocals) (n : Z) (CurTy : Ty) (TypeName : Str)
    (Scan : OldTypeScan) :
  (bitc.ModuleCodes_of Code = None ->
     ParseModule_record Code Record ML R = (Ok ML, R)) /\
  (bitc.AttributeCodes_of Code = None ->
     ParseAttributeBlock_loop (ERecord Code Record :: es) endFails R
       = ParseAttributeBlock_loop es endFails R) /\
  (bitc.TypeSymtabCodes_of Code = None ->
     ParseOldTypeSymbolTable_loop (ERecord Code Record :: es) endFails R
       = ParseOldTypeSymbolTable_loop es endFails R) /\
  (bitc.ValueSymtabCodes_of Code = None ->
     ParseValueSymbolTable_loop (ERecord Code Record :: es) endFails R
       = ParseValueSymbolTable_loop es endFails R) /\
  (ParseMetadata_recognized Code = false ->
     ParseMetadata_loop (ERecord Code Record :: es) endFails n R
       = ParseMetadata_loop es endFails n R) /\
  (forall NameCode Name,
     bitc.MetadataCodes_of NameCode = Some bitc.METADATA_NAME ->
     (forall Code',
        ParseMetadata_loop
          (ERecord NameCode Name :: ERecord Code Record :: es) endFails n R
        = ParseMetadata_loop
            (ERecord NameCode Name :: ERecord Code' Record :: es)
            endFails n R) /\
     ParseMetadata_loop
       (ERecord NameCode Name :: ERecord Code [] :: es) endFails n R
     = ParseMetadata_loop es endFails n
         (set_NamedMetadata
            (NamedMetadata_add (map (fun c => c mod 256) Name) []
               (NamedMetadata_add (map (fun c => c mod 256) Name) []
                  (NamedMetadata R))) R)) /\
  (ParseMetadataAttachment_recognized Code = false ->
     ParseMetadataAttachment_loop (ERecord Code Record :: es) endFails R
       = ParseMetadataAttachment_loop es endFails R) /\
  (ParseConstants_recognized Code = false ->
     ParseConstants_record H Code Record (Some CurTy) R
       = (Ok (inr (UndefValue CurTy)), R) /\
     ParseConstants_loop H (ERecord Code Record :: es) endFails (Some CurTy) n R
       = (AssignValue (UndefValue CurTy) n ;;
          ParseConstants_loop H es endFails (Some CurTy) (uint32 (n + 1))) R) /\
  (ParseFunctionBody_recognized Code = false ->
     ParseFunctionBody_record H F Code Record FL R = (Err InvalidValue, R) /\
     ParseFunctionBody_loop H F (ERecord Code Record :: es) endFails FL R
       = (Err InvalidValue, R)) /\
  (bitc.TypeCodes_of Code = None ->
     ParseTypeTableBody_loop (ERecord Code Record :: es) endFails n TypeName R
       = (Err InvalidValue, R)) /\
  (ParseOldTypeTable_recognized Code = false ->
     ParseOldTypeTable_scan (ERecord Code Record :: es) endFails Scan R
       = (Err InvalidTYPETable, R)).
Proof.
  repeat split.
  - intros HC. unfold ParseModule_record. rewrite HC. reflexivity.
  - intros HC. cbn [ParseAttributeBlock_loop].
    unfold ParseAttributeBlock_record. rewrite HC. reflexivity.
  - intros HC. cbn [ParseOldTypeSymbolTable_loop].
    unfold ParseOldTypeSymbolTable_record. rewrite HC. reflexivity.
  - intros HC. cbn [ParseValueSymbolTable_loop].
    unfold ParseValueSymbolTable_record. rewrite HC. reflexivity.
  - intros HC. cbn [ParseMetadata_loop].
    unfold ParseMetadata_recognized in HC. unfold ParseMetadata_record.
    destruct (bitc.MetadataCodes_of Code) as [[] |]; try discriminate;
      destruct es; reflexivity.
  - intros Code'. cbn [ParseMetadata_loop]. rewrite H0.
    unfold ParseMetadata_record. rewrite H0. reflexivity.
  - cbn [ParseMetadata_loop]. rewrite H0.
    unfold ParseMetadata_record. rewrite H0. reflexivity.
  - intros HC. cbn [ParseMetadataAttachment_loop].
    unfold ParseMetadataAttachment_recognized in HC.
    unfold ParseMetadataAttachment_record.
    destruct (bitc.MetadataCodes_of Code) as [[] |]; try discriminate;
      reflexivity.
  - unfold ParseConstants_recognized in H0. unfold ParseConstants_record.
    destruct (bitc.ConstantsCodes_of Code) as [[] |]; try discriminate;
      reflexivity.
  - unfold ParseConstants_recognized in H0. cbn [ParseConstants_loop].
    unfold ParseConstants_record.
    destruct (bitc.ConstantsCodes_of Code) as [[] |]; try discriminate;
      reflexivity.
  - unfold ParseFunctionBody_recognized in H0.
    unfold ParseFunctionBody_record.
    destruct (bitc.FunctionCodes_of Code); [discriminate |].
    rewrite H0. reflexivity.
  - unfold ParseFunctionBody_recognized in H0. cbn [ParseFunctionBody_loop].
    unfold ParseFunctionBody_record.
    destruct (bitc.FunctionCodes_of Code); [discriminate |].
    rewrite H0. reflexivity.
  - intros HC. cbn [ParseTypeTableBody_loop].
    unfold ParseTypeTableBody_record. rewrite HC. reflexivity.
  - intros HC. cbn [ParseOldTypeTable_scan].
    unfold ParseOldTypeTable_recognized in HC.
    unfold ParseOldTypeTable_record.
    destruct (Code =? TYPE_CODE_STRUCT_OLD_3_0); [discriminate |].
    destruct (bitc.TypeCodes_of Code) as [[] |]; try discriminate;
      reflexivity.
Qed.

Lemma C2_unknown_records_witness :
  ParseModule_record 99 [] (mkModuleLocals [] []) sampleReader
    = (Ok (mkModuleLocals [] []), sampleReader) /\
  ParseFunctionBody_record sampleHost 0 99 [] sampleLocals sampleReader
    = (Err InvalidValue, sampleReader) /\
  ParseConstants_record sampleHost 99 [] (Some Int32Ty) sampleReader
    = (Ok (inr (UndefValue Int32Ty)), sampleReader).
Proof.
  pose proof (C2_unknown_records sampleHost 0 99 [] [] false sampleReader
                (mkModuleLocals [] []) sampleLocals 0 Int32Ty []
                (mkOldTypeScan 0 0 false))
    as (HM & _ & _ & _ & _ & _ & _ & HC & HF & _).
  split; [apply HM; reflexivity |].
  split; [apply HF; reflexivity | apply HC; reflexivity].
Defined.

(** ** Atomic instruction records *)

(** A step of a computation whose result is known. *)
Lemma bind_eq_Ok {A B} (m : M A) (k : A -> M B) (R R1 : BitcodeReader) (a : A) :
  m R = (Ok a, R1) -> bind m k R = k a R1.
Proof. intros Hm. unfold bind. rewrite Hm. reflexivity. Qed.


Lemma orError_Some {A} (e : BitcodeError) (m : M (option A))
    (R R1 : BitcodeReader) (a : A) :
  m R = (Ok (Some a), R1) -> orError e m R = (Ok a, R1).
Proof. intros Hm. unfold orError. rewrite (bind_eq_Ok _ _ _ _ _ Hm). reflexivity. Qed.



Section Atomic.
Variable H : Host.






End Atomic.


(** ** Vectors and records *)

Lemma size_nonneg {A} (l : list A) : 0 <= size l.
Proof. unfold size. lia. Qed.

Lemma size_app_one {A} (l : list A) (x : A) : size (l ++ [x]) = size l + 1.
Proof. unfold size. rewrite length_app. cbn. lia. Qed.

Lemma elt_lookup {A} (l : list A) (i : Z) :
  0 <= i < size l -> elt l i = l !! Z.to_nat i.
Proof.
  intros Hi. unfold elt.
  destruct (Z.leb_spec 0 i), (Z.ltb_spec i (size l)); try lia. reflexivity.
Qed.

Lemma elt_out {A} (l : list A) (i : Z) : size l <= i -> elt l i = None.
Proof.
  intros Hi. unfold elt.
  destruct (Z.leb_spec 0 i), (Z.ltb_spec i (size l)); try lia; reflexivity.
Qed.

Lemma elt_is_Some {A} (l : list A) (i : Z) :
  0 <= i < size l -> exists x, elt l i = Some x.
Proof.
  intros Hi. rewrite elt_lookup by exact Hi.
  apply lookup_lt_is_Some_2. unfold size in Hi. lia.
Qed.

Lemma elt_app_last {A} (l : list A) (x : A) : elt (l ++ [x]) (size l) = Some x.
Proof.
  rewrite elt_lookup by (rewrite size_app_one; pose proof (size_nonneg l); lia).
  unfold size. rewrite Nat2Z.id. apply list_lookup_middle. reflexivity.
Qed.

Lemma elt_app_lt {A} (l : list A) (x : A) (j : Z) :
  0 <= j < size l -> elt (l ++ [x]) j = elt l j.
Proof.
  intros Hj. rewrite !elt_lookup by (rewrite ?size_app_one; lia).
  apply lookup_app_l. unfold size in Hj. lia.
Qed.

Lemma size_vset {A} (i : Z) (x : A) (l : list A) : size (vset i x l) = size l.
Proof. unfold size, vset. rewrite length_insert. reflexivity. Qed.

Lemma elt_vset_eq {A} (i : Z) (x : A) (l : list A) :
  0 <= i < size l -> elt (vset i x l) i = Some x.
Proof.
  intros Hi. rewrite elt_lookup by (rewrite size_vset; exact Hi).
  unfold vset. apply list_lookup_insert_eq. unfold size in Hi. lia.
Qed.

Lemma elt_vset_ne {A} (i j : Z) (x : A) (l : list A) :
  0 <= i -> 0 <= j -> i <> j -> elt (vset i x l) j = elt l j.
Proof.
  intros Hi Hj Hij. unfold elt. rewrite size_vset.
  destruct ((0 <=? j) && (j <? size l)); [| reflexivity].
  unfold vset. apply list_lookup_insert_ne. lia.
Qed.

Lemma size_vresize {A} (n : Z) (l : list (option A)) :
  0 <= n -> size (vresize n l) = n.
Proof. intros Hn. unfold size. rewrite length_vresize. lia. Qed.

Lemma elt_vresize_lt {A} (n j : Z) (l : list (option A)) :
  0 <= j < size l -> j < n -> elt (vresize n l) j = elt l j.
Proof.
  intros Hj Hn. rewrite !elt_lookup by (rewrite ?size_vresize; lia).
  unfold vresize. apply lookup_resize; unfold size in Hj; lia.
Qed.

Lemma elt_vresize_new {A} (n j : Z) (l : list (option A)) :
  size l <= j < n -> elt (vresize n l) j = Some None.
Proof.
  intros Hj. pose proof (size_nonneg l).
  rewrite elt_lookup by (rewrite size_vresize; lia).
  unfold vresize. apply lookup_resize_new; unfold size in Hj; lia.
Qed.

Lemma uint32_bounds (x : Z) : 0 <= uint32 x < 2 ^ 32.
Proof. unfold uint32. apply Z.mod_pos_bound. lia. Qed.

Lemma uint32_idem (x : Z) : uint32 (uint32 x) = uint32 x.
Proof. unfold uint32. apply Z.mod_mod. lia. Qed.

Lemma uint32_succ (x : Z) :
  uint32 x < 2 ^ 32 - 1 -> uint32 (uint32 x + 1) = uint32 x + 1.
Proof.
  intros Hx. pose proof (uint32_bounds x). unfold uint32 at 1.
  apply Z.mod_small. lia.
Qed.

(** ** The value table *)

(** What [AssignValue] does to the table. *)
Lemma AssignValue_table (V : Value) (Idx : Z) (R : BitcodeReader) :
  uint32 Idx < 2 ^ 32 - 1 ->
  exists R',
    AssignValue V Idx R = (Ok tt, R') /\
    elt (ValueList R') (uint32 Idx) = Some (Some V) /\
    size (ValueList R') = Z.max (size (ValueList R)) (uint32 Idx + 1) /\
    forall j, 0 <= j < size (ValueList R) -> j <> uint32 Idx ->
      elt (ValueList R') j = elt (ValueList R) j.
Proof.
  intros Hmax. pose proof (uint32_bounds Idx) as Hi.
  pose proof (size_nonneg (ValueList R)) as Hsz.
  unfold AssignValue. cbv zeta. unfold bind at 1, get.
  destruct (Z.eqb_spec (uint32 Idx) (size (ValueList R))) as [He | Hne].
  - eexists. split; [reflexivity |]. cbn [ValueList set_ValueList].
    rewrite He. split; [apply elt_app_last |].
    split; [rewrite size_app_one; lia |].
    intros j Hj _. apply elt_app_lt. exact Hj.
  - destruct (Z.leb_spec (size (ValueList R)) (uint32 Idx)) as [Hge | Hlt].
    + (* the table is resized; the new slot is empty *)
      unfold bind, modify, get, at_, deref. cbn [ValueList set_ValueList].
      rewrite uint32_succ by exact Hmax.
      rewrite elt_vresize_new by lia. cbn.
      eexists. split; [reflexivity |]. cbn [ValueList set_ValueList].
      rewrite size_vset, size_vresize by lia.
      split; [apply elt_vset_eq; rewrite size_vresize; lia |].
      split; [lia |].
      intros j Hj Hjne. rewrite elt_vset_ne by lia.
      apply elt_vresize_lt; lia.
    + destruct (elt_is_Some (ValueList R) (uint32 Idx)) as [o Ho]; [lia |].
      assert (Hfin : forall R0, ValueList R0 = ValueList R ->
                elt (ValueList (set_ValueList
                       (vset (uint32 Idx) (Some V) (ValueList R0)) R0))
                    (uint32 Idx) = Some (Some V) /\
                size (ValueList (set_ValueList
                       (vset (uint32 Idx) (Some V) (ValueList R0)) R0))
                  = Z.max (size (ValueList R)) (uint32 Idx + 1) /\
                forall j, 0 <= j < size (ValueList R) -> j <> uint32 Idx ->
                  elt (ValueList (set_ValueList
                         (vset (uint32 Idx) (Some V) (ValueList R0)) R0)) j
                    = elt (ValueList R) j).
      { intros R0 HR0. cbn [ValueList set_ValueList]. rewrite HR0.
        rewrite size_vset.
        split; [apply elt_vset_eq; lia |]. split; [lia |].
        intros j Hj Hjne. apply elt_vset_ne; lia. }
      unfold bind, modify, get, at_, deref, ret. rewrite Ho.
      destruct o as [PHC |].
      * destruct (isaConstant PHC).
        -- eexists. split; [reflexivity |]. apply (Hfin (set_ResolveConstants _ R)).
           reflexivity.
        -- destruct PHC; cbn; (eexists; split; [reflexivity |]);
             apply (Hfin R); reflexivity.
      * eexists. split; [reflexivity |]. apply (Hfin R). reflexivity.
Qed.

Lemma at_elt_ok {A} (l : list A) (i : Z) (x : A) (R : BitcodeReader) :
  elt l i = Some x -> at_ l i R = (Ok x, R).
Proof. intros He. unfold at_. rewrite He. reflexivity. Qed.

(** A lookup of a filled slot returns its value and leaves the reader as it
    is. *)
Lemma getValueFwdRef_filled (V : Value) (Idx : Z) (T : option Ty)
    (R : BitcodeReader) :
  elt (ValueList R) (uint32 Idx) = Some (Some V) ->
  getValueFwdRef Idx T R = (Ok (Some V), R).
Proof.
  intros He. unfold getValueFwdRef. cbv zeta.
  unfold bind at 1, get. unfold bind at 1.
  destruct (Z.leb_spec (size (ValueList R)) (uint32 Idx)) as [Hge | Hlt].
  - rewrite elt_out in He by exact Hge. discriminate.
  - unfold ret at 1. unfold bind, get. rewrite (at_elt_ok _ _ _ _ He).
    reflexivity.
Qed.

Lemma getConstantFwdRef_filled (V : Value) (Idx : Z) (T : Ty)
    (R : BitcodeReader) :
  elt (ValueList R) (uint32 Idx) = Some (Some V) ->
  isaConstant V = true ->
  getConstantFwdRef Idx T R = (Ok V, R).
Proof.
  intros He HC. unfold getConstantFwdRef. cbv zeta.
  unfold bind at 1, get. unfold bind at 1.
  destruct (Z.leb_spec (size (ValueList R)) (uint32 Idx)) as [Hge | Hlt].
  - rewrite elt_out in He by exact Hge. discriminate.
  - unfold ret at 1. unfold bind, get. rewrite (at_elt_ok _ _ _ _ He).
    rewrite HC. reflexivity.
Qed.

(** X1: The value table, insert then look up: [AssignValue V Idx] leaves [V] in
    slot [Idx], where [getValueFwdRef] (and [getConstantFwdRef], for a
    constant) finds it without changing the reader; the table has grown to
    [Idx + 1] slots when it was shorter and no other slot has changed. *)
Theorem AssignValue_getValueFwdRef (V : Value) (Idx : Z) (T : option Ty)
    (CT : Ty) (R : BitcodeReader) :
  uint32 Idx < 2 ^ 32 - 1 ->
  exists R',
    AssignValue V Idx R = (Ok tt, R') /\
    getValueFwdRef Idx T R' = (Ok (Some V), R') /\
    (isaConstant V = true -> getConstantFwdRef Idx CT R' = (Ok V, R')) /\
    size (ValueList R') = Z.max (size (ValueList R)) (uint32 Idx + 1) /\
    forall j, 0 <= j < size (ValueList R) -> j <> uint32 Idx ->
      elt (ValueList R') j = elt (ValueList R) j.
Proof.
  intros Hmax.
  destruct (AssignValue_table V Idx R Hmax) as (R' & HA & He & Hsz & Hfr).
  exists R'. split; [exact HA |].
  split; [apply getValueFwdRef_filled; exact He |].
  split; [intros HC; apply getConstantFwdRef_filled; assumption |].
  split; assumption.
Qed.

Lemma AssignValue_getValueFwdRef_witness :
  exists R',
    AssignValue (UndefValue Int32Ty) 3 sampleReader = (Ok tt, R') /\
    getValueFwdRef 3 None R' = (Ok (Some (UndefValue Int32Ty)), R') /\
    (isaConstant (UndefValue Int32Ty) = true ->
     getConstantFwdRef 3 Int32Ty R' = (Ok (UndefValue Int32Ty), R')) /\
    size (ValueList R')
      = Z.max (size (ValueList sampleReader)) (uint32 3 + 1) /\
    forall j, 0 <= j < size (ValueList sampleReader) -> j <> uint32 3 ->
      elt (ValueList R') j = elt (ValueList sampleReader) j.
Proof.
  apply (AssignValue_getValueFwdRef (UndefValue Int32Ty) 3 None Int32Ty
           sampleReader).
  reflexivity.
Defined.

(** After the resize of a forward reference the slot exists and is empty. *)
Lemma emptySlot_resized {A} (l : list (option A)) (i : Z) :
  0 <= i -> emptySlot l i ->
  elt (if size l <=? i then vresize (i + 1) l else l) i = Some None.
Proof.
  intros Hi [He | He].
  - destruct (Z.leb_spec (size l) i) as [Hge | Hlt].
    + apply elt_vresize_new. lia.
    + destruct (elt_is_Some l i) as [x Hx]; [lia |]. congruence.
  - destruct (Z.leb_spec (size l) i) as [Hge | Hlt].
    + rewrite elt_out in He by exact Hge. discriminate.
    + exact He.
Qed.

Lemma size_resized {A} (l : list (option A)) (i : Z) :
  0 <= i ->
  size (if size l <=? i then vresize (i + 1) l else l) = Z.max (size l) (i + 1).
Proof.
  intros Hi. destruct (Z.leb_spec (size l) i).
  - rewrite size_vresize by lia. lia.
  - lia.
Qed.

(** The first steps of a forward reference: the table is resized when the
    index is past its end, and the slot is read. *)
Lemma ValueList_slot (Idx : Z) (R : BitcodeReader) {B}
    (k : option Value -> M B) :
  uint32 Idx < 2 ^ 32 - 1 ->
  emptySlot (ValueList R) (uint32 Idx) ->
  ((if size (ValueList R) <=? uint32 Idx
    then modify (fun R => set_ValueList
                   (vresize (uint32 (uint32 Idx + 1)) (ValueList R)) R)
    else ret tt) ;;
   do V <- bind (get ValueList) (fun l => at_ l (uint32 Idx)); k V) R
  = k None (set_ValueList
              (if size (ValueList R) <=? uint32 Idx
               then vresize (uint32 Idx + 1) (ValueList R)
               else ValueList R) R).
Proof.
  intros Hmax He. pose proof (uint32_bounds Idx) as Hi.
  pose proof (emptySlot_resized _ _ (proj1 Hi) He) as Hslot.
  rewrite uint32_succ by exact Hmax.
  destruct (size (ValueList R) <=? uint32 Idx);
    unfold bind, modify, ret, get; cbn [ValueList set_ValueList];
    rewrite (at_elt_ok _ _ _ _ Hslot).
  - reflexivity.
  - destruct R; reflexivity.
Qed.

(** X2: A forward reference to a value: [getValueFwdRef] on an empty slot makes
    an [Argument] placeholder of the type asked for and keeps it in the
    slot, so that a second reference gets the same placeholder; the
    definition that comes later replaces it and queues nothing for the
    constant resolver.  With no type given the result is null, yet the table
    has still been resized. *)
Theorem getValueFwdRef_forward (V : Value) (Idx : Z) (T T' : Ty)
    (R : BitcodeReader) :
  uint32 Idx < 2 ^ 32 - 1 ->
  emptySlot (ValueList R) (uint32 Idx) ->
  exists R1 R2 R3,
    let P := Argument None (NextId R) T in
    getValueFwdRef Idx (Some T) R = (Ok (Some P), R1) /\
    getValueFwdRef Idx (Some T') R1 = (Ok (Some P), R1) /\
    AssignValue V Idx R1 = (Ok tt, R2) /\
    elt (ValueList R2) (uint32 Idx) = Some (Some V) /\
    ResolveConstants R2 = ResolveConstants R /\
    getValueFwdRef Idx None R = (Ok None, R3) /\
    size (ValueList R3) = Z.max (size (ValueList R)) (uint32 Idx + 1).
Proof.
  intros Hmax He. pose proof (uint32_bounds Idx) as Hi.
  pose proof (emptySlot_resized _ _ (proj1 Hi) He) as Hslot.
  pose proof (size_resized (ValueList R) _ (proj1 Hi)) as Hsz.
  set (l1 := if size (ValueList R) <=? uint32 Idx
             then vresize (uint32 Idx + 1) (ValueList R)
             else ValueList R) in *.
  assert (Hin : 0 <= uint32 Idx < size l1) by lia.
  set (P := Argument None (NextId R) T).
  set (R1 := set_ValueList (vset (uint32 Idx) (Some P) l1)
               (set_NextId (S (NextId R)) (set_ValueList l1 R))).
  assert (H1 : getValueFwdRef Idx (Some T) R = (Ok (Some P), R1)).
  { unfold getValueFwdRef. cbv zeta. unfold bind at 1, get.
    rewrite (ValueList_slot Idx R _ Hmax He). reflexivity. }
  assert (HP : elt (ValueList R1) (uint32 Idx) = Some (Some P)).
  { cbn [R1 ValueList set_ValueList]. apply elt_vset_eq. exact Hin. }
  destruct (AssignValue_table V Idx R1 Hmax) as (R2 & HA & HV & _ & _).
  exists R1, R2, (set_ValueList l1 R). cbv zeta. fold P.
  split; [exact H1 |].
  split; [apply getValueFwdRef_filled; exact HP |].
  split; [exact HA |]. split; [exact HV |].
  split.
  - (* the placeholder is an Argument: nothing is queued *)
    unfold AssignValue in HA. cbv zeta in HA. unfold bind at 1, get in HA.
    assert (Hs1 : size (ValueList R1) = size l1).
    { cbn [R1 ValueList set_ValueList]. apply size_vset. }
    destruct (Z.eqb_spec (uint32 Idx) (size (ValueList R1))); [lia |].
    destruct (Z.leb_spec (size (ValueList R1)) (uint32 Idx)); [lia |].
    unfold bind, ret, get in HA. rewrite (at_elt_ok _ _ _ _ HP) in HA.
    cbn in HA. injection HA as <-. reflexivity.
  - split.
    + unfold getValueFwdRef. cbv zeta. unfold bind at 1, get.
      rewrite (ValueList_slot Idx R _ Hmax He). reflexivity.
    + exact Hsz.
Qed.

Lemma getValueFwdRef_forward_witness :
  exists R1 R2 R3,
    let P := Argument None (NextId sampleReader) Int32Ty in
    getValueFwdRef 5 (Some Int32Ty) sampleReader = (Ok (Some P), R1) /\
    getValueFwdRef 5 (Some Int8Ty) R1 = (Ok (Some P), R1) /\
    AssignValue (UndefValue Int32Ty) 5 R1 = (Ok tt, R2) /\
    elt (ValueList R2) (uint32 5) = Some (Some (UndefValue Int32Ty)) /\
    ResolveConstants R2 = ResolveConstants sampleReader /\
    getValueFwdRef 5 None sampleReader = (Ok None, R3) /\
    size (ValueList R3)
      = Z.max (size (ValueList sampleReader)) (uint32 5 + 1).
Proof.
  apply (getValueFwdRef_forward (UndefValue Int32Ty) 5 Int32Ty Int8Ty
           sampleReader).
  - reflexivity.
  - left. reflexivity.
Defined.

(** X3: A forward reference to a constant: [getConstantFwdRef] on an empty slot
    makes a placeholder constant and keeps it in the slot; the definition
    that comes later takes the slot and queues the placeholder, with the
    index, for [ResolveConstantForwardRefs]. *)
Theorem getConstantFwdRef_forward (V : Value) (Idx : Z) (T T' : Ty)
    (R : BitcodeReader) :
  uint32 Idx < 2 ^ 32 - 1 ->
  emptySlot (ValueList R) (uint32 Idx) ->
  exists R1 R2,
    let C := ConstantPlaceHolder (NextId R) T in
    getConstantFwdRef Idx T R = (Ok C, R1) /\
    getConstantFwdRef Idx T' R1 = (Ok C, R1) /\
    AssignValue V Idx R1 = (Ok tt, R2) /\
    elt (ValueList R2) (uint32 Idx) = Some (Some V) /\
    ResolveConstants R2 = ResolveConstants R ++ [(C, uint32 Idx)].
Proof.
  intros Hmax He. pose proof (uint32_bounds Idx) as Hi.
  pose proof (emptySlot_resized _ _ (proj1 Hi) He) as Hslot.
  pose proof (size_resized (ValueList R) _ (proj1 Hi)) as Hsz.
  set (l1 := if size (ValueList R) <=? uint32 Idx
             then vresize (uint32 Idx + 1) (ValueList R)
             else ValueList R) in *.
  assert (Hin : 0 <= uint32 Idx < size l1) by lia.
  set (C := ConstantPlaceHolder (NextId R) T).
  set (R1 := set_ValueList (vset (uint32 Idx) (Some C) l1)
               (set_NextId (S (NextId R)) (set_ValueList l1 R))).
  assert (H1 : getConstantFwdRef Idx T R = (Ok C, R1)).
  { unfold getConstantFwdRef. cbv zeta. unfold bind at 1, get.
    rewrite (ValueList_slot Idx R _ Hmax He). reflexivity. }
  assert (HP : elt (ValueList R1) (uint32 Idx) = Some (Some C)).
  { cbn [R1 ValueList set_ValueList]. apply elt_vset_eq. exact Hin. }
  destruct (AssignValue_table V Idx R1 Hmax) as (R2 & HA & HV & _ & _).
  exists R1, R2. cbv zeta. fold C.
  split; [exact H1 |].
  split; [apply getConstantFwdRef_filled; [exact HP | reflexivity] |].
  split; [exact HA |]. split; [exact HV |].
  unfold AssignValue in HA. cbv zeta in HA. unfold bind at 1, get in HA.
  assert (Hs1 : size (ValueList R1) = size l1).
  { cbn [R1 ValueList set_ValueList]. apply size_vset. }
  destruct (Z.eqb_spec (uint32 Idx) (size (ValueList R1))); [lia |].
  destruct (Z.leb_spec (size (ValueList R1)) (uint32 Idx)); [lia |].
  unfold bind, ret, get in HA. rewrite (at_elt_ok _ _ _ _ HP) in HA.
  cbn in HA. injection HA as <-. reflexivity.
Qed.

Lemma getConstantFwdRef_forward_witness :
  exists R1 R2,
    let C := ConstantPlaceHolder (NextId sampleReader) Int32Ty in
    getConstantFwdRef 5 Int32Ty sampleReader = (Ok C, R1) /\
    getConstantFwdRef 5 Int8Ty R1 = (Ok C, R1) /\
    AssignValue (UndefValue Int32Ty) 5 R1 = (Ok tt, R2) /\
    elt (ValueList R2) (uint32 5) = Some (Some (UndefValue Int32Ty)) /\
    ResolveConstants R2
      = ResolveConstants sampleReader ++ [(C, uint32 5)].
Proof.
  apply (getConstantFwdRef_forward (UndefValue Int32Ty) 5 Int32Ty Int8Ty
           sampleReader).
  - reflexivity.
  - left. reflexivity.
Defined.

(** ** The metadata value table *)

Lemma MDValueList_slot (Idx : Z) (R : BitcodeReader) {B}
    (k : option Value -> M B) :
  uint32 Idx < 2 ^ 32 - 1 ->
  emptySlot (MDValueList R) (uint32 Idx) ->
  ((if size (MDValueList R) <=? uint32 Idx
    then modify (fun R => set_MDValueList
                   (vresize (uint32 (uint32 Idx + 1)) (MDValueList R)) R)
    else ret tt) ;;
   do V <- bind (get MDValueList) (fun l => at_ l (uint32 Idx)); k V) R
  = k None (set_MDValueList
              (if size (MDValueList R) <=? uint32 Idx
               then vresize (uint32 Idx + 1) (MDValueList R)
               else MDValueList R) R).
Proof.
  intros Hmax He. pose proof (uint32_bounds Idx) as Hi.
  pose proof (emptySlot_resized _ _ (proj1 Hi) He) as Hslot.
  rewrite uint32_succ by exact Hmax.
  destruct (size (MDValueList R) <=? uint32 Idx);
    unfold bind, modify, ret, get; cbn [MDValueList set_MDValueList];
    rewrite (at_elt_ok _ _ _ _ Hslot).
  - reflexivity.
  - destruct R; reflexivity.
Qed.

Lemma MDValueList_getValueFwdRef_filled (V : Value) (Idx : Z)
    (R : BitcodeReader) :
  elt (MDValueList R) (uint32 Idx) = Some (Some V) ->
  MDValueList_getValueFwdRef Idx R = (Ok V, R).
Proof.
  intros He. unfold MDValueList_getValueFwdRef. cbv zeta.
  unfold bind at 1, get. unfold bind at 1.
  destruct (Z.leb_spec (size (MDValueList R)) (uint32 Idx)) as [Hge | Hlt].
  - rewrite elt_out in He by exact Hge. discriminate.
  - unfold ret at 1. unfold bind, get. rewrite (at_elt_ok _ _ _ _ He).
    reflexivity.
Qed.

(** X4: A forward reference to a metadata node: [getValueFwdRef] on an empty
    slot of the metadata table makes a temporary node and keeps it in the
    slot; a second reference gets the same node; the definition that comes
    later takes the slot, where a lookup then finds it.  A slot that holds
    a value that is not a node cannot be assigned again: the cast of the
    old value is undefined. *)
Theorem MDValueList_forward (V Old : Value) (Idx : Z) (R : BitcodeReader) :
  uint32 Idx < 2 ^ 32 - 1 ->
  (emptySlot (MDValueList R) (uint32 Idx) ->
   exists R1 R2,
     let N := MDNodeTemporary (NextId R) in
     MDValueList_getValueFwdRef Idx R = (Ok N, R1) /\
     MDValueList_getValueFwdRef Idx R1 = (Ok N, R1) /\
     MDValueList_AssignValue V Idx R1 = (Ok tt, R2) /\
     MDValueList_getValueFwdRef Idx R2 = (Ok V, R2) /\
     size (MDValueList R2) = Z.max (size (MDValueList R)) (uint32 Idx + 1)) /\
  (elt (MDValueList R) (uint32 Idx) = Some (Some Old) ->
   isaMDNode Old = false ->
   MDValueList_AssignValue V Idx R = (Undef, R)).
Proof.
  intros Hmax. pose proof (uint32_bounds Idx) as Hi. split.
  - intros He.
    pose proof (emptySlot_resized _ _ (proj1 Hi) He) as Hslot.
    pose proof (size_resized (MDValueList R) _ (proj1 Hi)) as Hsz.
    set (l1 := if size (MDValueList R) <=? uint32 Idx
               then vresize (uint32 Idx + 1) (MDValueList R)
               else MDValueList R) in *.
    assert (Hin : 0 <= uint32 Idx < size l1) by lia.
    set (N := MDNodeTemporary (NextId R)).
    set (R1 := set_MDValueList (vset (uint32 Idx) (Some N) l1)
                 (set_NextId (S (NextId R)) (set_MDValueList l1 R))).
    set (R2 := set_MDValueList
                 (vset (uint32 Idx) (Some V) (MDValueList R1)) R1).
    assert (HP : elt (MDValueList R1) (uint32 Idx) = Some (Some N)).
    { cbn [R1 MDValueList set_MDValueList]. apply elt_vset_eq. exact Hin. }
    assert (Hs1 : size (MDValueList R1) = size l1).
    { cbn [R1 MDValueList set_MDValueList]. apply size_vset. }
    exists R1, R2. cbv zeta. fold N.
    split.
    { unfold MDValueList_getValueFwdRef. cbv zeta. unfold bind at 1, get.
      rewrite (MDValueList_slot Idx R _ Hmax He). reflexivity. }
    split; [apply MDValueList_getValueFwdRef_filled; exact HP |].
    split.
    { unfold MDValueList_AssignValue. cbv zeta. unfold bind at 1, get.
      destruct (Z.eqb_spec (uint32 Idx) (size (MDValueList R1))); [lia |].
      destruct (Z.leb_spec (size (MDValueList R1)) (uint32 Idx)); [lia |].
      unfold bind, ret, get. rewrite (at_elt_ok _ _ _ _ HP). reflexivity. }
    split.
    { apply MDValueList_getValueFwdRef_filled.
      cbn [R2 MDValueList set_MDValueList]. apply elt_vset_eq. lia. }
    cbn [R2 MDValueList set_MDValueList]. rewrite size_vset. lia.
  - intros He HO.
    assert (Hlt : uint32 Idx < size (MDValueList R)).
    { destruct (Z.leb_spec (size (MDValueList R)) (uint32 Idx)) as [Hge |];
        [| assumption].
      rewrite elt_out in He by exact Hge. discriminate. }
    unfold MDValueList_AssignValue. cbv zeta. unfold bind at 1, get.
    destruct (Z.eqb_spec (uint32 Idx) (size (MDValueList R))); [lia |].
    destruct (Z.leb_spec (size (MDValueList R)) (uint32 Idx)); [lia |].
    unfold bind, ret, get. rewrite (at_elt_ok _ _ _ _ He). rewrite HO.
    reflexivity.
Qed.

Lemma MDValueList_forward_witness :
  exists R1 R2,
    let N := MDNodeTemporary (NextId sampleReader) in
    MDValueList_getValueFwdRef 2 sampleReader = (Ok N, R1) /\
    MDValueList_getValueFwdRef 2 R1 = (Ok N, R1) /\
    MDValueList_AssignValue (MDString []) 2 R1 = (Ok tt, R2) /\
    MDValueList_getValueFwdRef 2 R2 = (Ok (MDString []), R2) /\
    size (MDValueList R2)
      = Z.max (size (MDValueList sampleReader)) (uint32 2 + 1).
Proof.
  apply (proj1 (MDValueList_forward (MDString []) (MDString []) 2
                  sampleReader eq_refl)).
  left. reflexivity.
Defined.

(** ** Type lookups *)

(** X5: [getTypeByID]: an ID past the end of the type table gives null and
    changes nothing; an ID in the table always gives a type and never
    changes the length of the table: the type of the slot when it has one,
    else a new opaque struct with no name, which is kept in the slot, so that
    a second lookup gives the same type and changes nothing. *)
Theorem getTypeByID_lookup (ID : Z) (R : BitcodeReader) :
  (size (TypeList R) <= uint32 ID -> getTypeByID ID R = (Ok None, R)) /\
  (uint32 ID < size (TypeList R) ->
   exists T R',
     getTypeByID ID R = (Ok (Some T), R') /\
     getTypeByID ID R' = (Ok (Some T), R') /\
     size (TypeList R') = size (TypeList R) /\
     (forall T0, elt (TypeList R) (uint32 ID) = Some (Some T0) ->
        T = T0 /\ R' = R) /\
     (elt (TypeList R) (uint32 ID) = Some None ->
        T = IdentifiedStructTy (length (StructTypes R)) /\
        StructTypes R' = StructTypes R ++ [mkStructInfo [] None] /\
        TypeList R' = vset (uint32 ID) (Some T) (TypeList R))).
Proof.
  pose proof (uint32_bounds ID) as Hi. split.
  - intros Hge. unfold getTypeByID. cbv zeta. unfold bind, get.
    destruct (Z.leb_spec (size (TypeList R)) (uint32 ID)); [reflexivity | lia].
  - intros Hlt.
    assert (Hfilled : forall T0 R0,
              elt (TypeList R0) (uint32 ID) = Some (Some T0) ->
              getTypeByID ID R0 = (Ok (Some T0), R0)).
    { intros T0 R0 He. unfold getTypeByID. cbv zeta. unfold bind at 1, get.
      destruct (Z.leb_spec (size (TypeList R0)) (uint32 ID)) as [Hge |].
      - rewrite elt_out in He by exact Hge. discriminate.
      - unfold bind, get. rewrite (at_elt_ok _ _ _ _ He). reflexivity. }
    destruct (elt_is_Some (TypeList R) (uint32 ID)) as [[T0 |] He]; [lia | |].
    + exists T0, R. rewrite (Hfilled _ _ He).
      split; [reflexivity |]. split; [reflexivity |]. split; [reflexivity |].
      split.
      * intros T1 H1. rewrite He in H1. injection H1 as <-. auto.
      * intros H1. rewrite He in H1. discriminate.
    + set (T := IdentifiedStructTy (length (StructTypes R))).
      set (R' := set_TypeList (vset (uint32 ID) (Some T) (TypeList R))
                   (set_StructTypes
                      (StructTypes R ++ [mkStructInfo [] None]) R)).
      assert (H1 : getTypeByID ID R = (Ok (Some T), R')).
      { unfold getTypeByID. cbv zeta. unfold bind at 1, get.
        destruct (Z.leb_spec (size (TypeList R)) (uint32 ID)); [lia |].
        unfold bind, get. rewrite (at_elt_ok _ _ _ _ He). reflexivity. }
      exists T, R'. split; [exact H1 |].
      split.
      { apply Hfilled. cbn [R' TypeList set_TypeList].
        apply elt_vset_eq. lia. }
      split; [cbn [R' TypeList set_TypeList]; apply size_vset |].
      split.
      * intros T1 HT1. rewrite He in HT1. discriminate.
      * intros _. split; [reflexivity |]. split; reflexivity.
Qed.

Lemma getTypeByID_lookup_witness :
  getTypeByID 7 sampleReader = (Ok None, sampleReader) /\
  exists T R',
    getTypeByID 1 sampleReader = (Ok (Some T), R') /\
    getTypeByID 1 R' = (Ok (Some T), R') /\
    size (TypeList R') = size (TypeList sampleReader).
Proof.
  split.
  - apply (proj1 (getTypeByID_lookup 7 sampleReader)). vm_compute. discriminate.
  - destruct (proj2 (getTypeByID_lookup 1 sampleReader) eq_refl)
      as (T & R' & H1 & H2 & H3 & _).
    exists T, R'. auto.
Defined.

(** X6: [getTypeByIDOrNull], of the legacy type table: an ID past the end of the
    type table makes the table grow to [ID + 1] slots, the old slots kept and
    the new ones null, and gives null; an ID in the table gives what the slot
    holds, null included, and changes nothing. *)
Theorem getTypeByIDOrNull_lookup (ID : Z) (R : BitcodeReader) :
  (size (TypeList R) <= uint32 ID -> uint32 ID < 2 ^ 32 - 1 ->
   exists R',
     getTypeByIDOrNull ID R = (Ok None, R') /\
     size (TypeList R') = uint32 ID + 1 /\
     (forall j, 0 <= j < size (TypeList R) ->
        elt (TypeList R') j = elt (TypeList R) j) /\
     (forall j, size (TypeList R) <= j <= uint32 ID ->
        elt (TypeList R') j = Some None)) /\
  (forall T, elt (TypeList R) (uint32 ID) = Some T ->
     getTypeByIDOrNull ID R = (Ok T, R)).
Proof.
  pose proof (uint32_bounds ID) as Hi.
  pose proof (size_nonneg (TypeList R)) as Hsz. split.
  - intros Hge Hmax.
    exists (set_TypeList (vresize (uint32 ID + 1) (TypeList R)) R).
    split.
    { unfold getTypeByIDOrNull. cbv zeta. unfold bind at 1, get.
      destruct (Z.leb_spec (size (TypeList R)) (uint32 ID)); [| lia].
      rewrite uint32_succ by exact Hmax.
      unfold bind, modify, get. cbn [TypeList set_TypeList].
      rewrite (at_elt_ok _ _ None) by (apply elt_vresize_new; lia).
      reflexivity. }
    cbn [TypeList set_TypeList].
    split; [apply size_vresize; lia |].
    split.
    + intros j Hj. apply elt_vresize_lt; lia.
    + intros j Hj. apply elt_vresize_new. lia.
  - intros T He.
    unfold getTypeByIDOrNull. cbv zeta. unfold bind at 1, get.
    destruct (Z.leb_spec (size (TypeList R)) (uint32 ID)) as [Hge |].
    + rewrite elt_out in He by exact Hge. discriminate.
    + unfold bind, ret, get. rewrite (at_elt_ok _ _ _ _ He). reflexivity.
Qed.

Lemma getTypeByIDOrNull_lookup_witness :
  (exists R',
     getTypeByIDOrNull 5 sampleReader = (Ok None, R') /\
     size (TypeList R') = uint32 5 + 1) /\
  getTypeByIDOrNull 0 sampleReader = (Ok (Some Int32Ty), sampleReader).
Proof.
  split.
  - destruct (proj1 (getTypeByIDOrNull_lookup 5 sampleReader))
      as (R' & H1 & H2 & _).
    + vm_compute. discriminate.
    + reflexivity.
    + exists R'. auto.
  - apply (proj2 (getTypeByIDOrNull_lookup 0 sampleReader)). reflexivity.
Defined.

(** ** Strings and decoders *)

(** X7: [ConvertToString] fails exactly when the start index is past the end of
    the record (a start at the end gives no character); otherwise it
    appends one character, a value below 256, for each record element from
    the start index on. *)
Theorem ConvertToString_chars (Record : list Z) (Idx : Z) (Result : Str) :
  0 <= Idx ->
  (ConvertToString Record Idx Result = None <-> size Record < Idx) /\
  (Idx <= size Record ->
   exists Chars,
     ConvertToString Record Idx Result = Some (Result ++ Chars) /\
     size Chars = size Record - Idx /\
     (forall i c, elt Chars i = Some c ->
        0 <= c < 256 /\
        exists r, elt Record (Idx + i) = Some r /\ c = r mod 256)).
Proof.
  intros HIdx. unfold ConvertToString. split.
  - destruct (Z.ltb_spec (size Record) Idx); split; intros; try lia;
      try discriminate; reflexivity.
  - intros Hle. destruct (Z.ltb_spec (size Record) Idx); [lia |].
    eexists. split; [reflexivity |].
    split.
    + unfold size in *. rewrite length_map, length_drop. lia.
    + intros i c Hc.
      assert (Hi : 0 <= i < size (map (fun c => c mod 256)
                                    (drop (Z.to_nat Idx) Record))).
      { unfold elt in Hc.
        destruct (Z.leb_spec 0 i), (Z.ltb_spec i (size (map (fun c => c mod 256)
                                    (drop (Z.to_nat Idx) Record))));
          cbn in Hc; try discriminate. lia. }
      rewrite elt_lookup in Hc by exact Hi.
      rewrite list_lookup_fmap in Hc.
      destruct (drop (Z.to_nat Idx) Record !! Z.to_nat i) as [r |] eqn:Hr;
        [| discriminate].
      cbn in Hc. injection Hc as <-.
      split; [apply Z.mod_pos_bound; lia |].
      exists r. split; [| reflexivity].
      rewrite lookup_drop in Hr.
      pose proof (lookup_lt_Some _ _ _ Hr) as Hlen.
      rewrite elt_lookup by (unfold size; lia).
      rewrite <- Hr. f_equal. lia.
Qed.

Lemma ConvertToString_chars_witness :
  (ConvertToString [104; 105] 3 [] = None <-> size [104; 105] < 3) /\
  exists Chars,
    ConvertToString [1; 360; 105] 1 [] = Some ([] ++ Chars) /\
    size Chars = size [1; 360; 105] - 1.
Proof.
  split.
  - apply (proj1 (ConvertToString_chars [104; 105] 3 [] ltac:(lia))).
  - destruct (proj2 (ConvertToString_chars [1; 360; 105] 1 [] ltac:(lia)))
      as (Chars & H1 & H2 & _).
    + vm_compute. discriminate.
    + exists Chars. auto.
Defined.

(** Case analysis on a small number: the codes of a decoder below a
    bound. *)
Ltac decide_code p :=
  repeat first
    [ reflexivity | discriminate | lia | tauto
    | destruct p as [p | p |]; cbn in * ].

(** X8: [GetDecodedBinaryOpcode] returns, for the codes 0..12, the operator
    of the code on an integer type (ADD, SUB, MUL, UDIV, SDIV, UREM, SREM,
    SHL, LSHR, ASHR, AND, OR, XOR) and, on a floating-point (or vector of
    floating-point) type, its floating-point counterpart: FADD, FSUB, FMUL,
    FDIV and FREM for ADD, SUB, MUL, SDIV and SREM, while UDIV, UREM, the
    shifts and the logic operators are returned unchanged.  So the result
    is a floating-point operator exactly for the codes 0, 1, 2, 4 and 6 on
    a floating-point type.  The codes above XOR (12) are rejected, whatever
    the type. *)
Theorem GetDecodedBinaryOpcode_fp (Val : Z) (T : Ty) :
  GetDecodedBinaryOpcode Val T
    = (if isFPOrFPVectorTy T then fpCounterpart else id)
        <$> (intBinaryOps !! Z.to_nat (uint32 Val)) /\
  (uint32 Val ∈ [3; 5; 7; 8; 9; 10; 11; 12] ->
     GetDecodedBinaryOpcode Val T = intBinaryOps !! Z.to_nat (uint32 Val)) /\
  (GetDecodedBinaryOpcode Val T = None <-> 13 <= uint32 Val) /\
  (forall Opc, GetDecodedBinaryOpcode Val T = Some Opc ->
     isFPBinaryOp Opc
       = isFPOrFPVectorTy T
         && bool_decide (uint32 Val ∈ [0; 1; 2; 4; 6])).
Proof.
  unfold GetDecodedBinaryOpcode. cbv zeta.
  pose proof (uint32_bounds Val) as Hz. revert Hz.
  generalize (uint32 Val) as z. intros z Hz.
  destruct z as [| p | p]; [| | lia].
  - split; [destruct (isFPOrFPVectorTy T); reflexivity |].
    split; [intros Hin; exfalso; revert Hin;
            rewrite !elem_of_cons, elem_of_nil; lia |].
    split; [split; [discriminate | lia] |].
    intros Opc HO. injection HO as <-.
    destruct (isFPOrFPVectorTy T); reflexivity.
  - split; [| split; [| split]].
    + destruct (isFPOrFPVectorTy T);
        do 4 (try (destruct p as [p | p |])); try reflexivity;
        (rewrite (proj2 (lookup_ge_None intBinaryOps _)); [reflexivity |];
         cbn [length intBinaryOps]; lia).
    + intros Hin.
      do 4 (try (destruct p as [p | p |])); try reflexivity;
        exfalso; revert Hin; rewrite !elem_of_cons, elem_of_nil; lia.
    + split; intros HN; decide_code p.
    + intros Opc HO.
      destruct (isFPOrFPVectorTy T);
        do 4 (try (destruct p as [p | p |]; cbn in HO));
        try discriminate; injection HO as <-; reflexivity.
Qed.

Lemma GetDecodedBinaryOpcode_fp_witness :
  GetDecodedBinaryOpcode 3 FloatTy = Some Instruction.UDiv /\
  GetDecodedBinaryOpcode 4 FloatTy = Some Instruction.FDiv /\
  isFPBinaryOp Instruction.FAdd
    = isFPOrFPVectorTy FloatTy && bool_decide (uint32 0 ∈ [0; 1; 2; 4; 6]) /\
  isFPBinaryOp Instruction.UDiv
    = isFPOrFPVectorTy FloatTy && bool_decide (uint32 3 ∈ [0; 1; 2; 4; 6]).
Proof.
  split; [| split; [| split]].
  - apply (proj1 (proj2 (GetDecodedBinaryOpcode_fp 3 FloatTy))).
    rewrite !elem_of_cons. left. reflexivity.
  - apply (proj1 (GetDecodedBinaryOpcode_fp 4 FloatTy)).
  - apply (proj2 (proj2 (proj2 (GetDecodedBinaryOpcode_fp 0 FloatTy)))).
    reflexivity.
  - apply (proj2 (proj2 (proj2 (GetDecodedBinaryOpcode_fp 3 FloatTy)))).
    reflexivity.
Defined.

(** X9: The codes a decoder does not know: a cast opcode above BITCAST (11) and
    an atomic read-modify-write operation above UMIN (10) are reported as
    bad; a thread-local mode decodes to not-thread-local only for the code
    0, and a synchronisation scope to single-thread only for the code 0;
    an ordering above ACQREL (5) decodes to sequentially consistent, a
    linkage above 15 to external and a visibility above 2 to default. *)
Theorem GetDecoded_unknown_codes (Val : Z) :
  (GetDecodedCastOpcode Val = None <-> 12 <= uint32 Val) /\
  (GetDecodedRMWOperation Val = AtomicRMWInst.BAD_BINOP
     <-> 11 <= uint32 Val) /\
  (GetDecodedThreadLocalMode Val = GlobalValue.NotThreadLocal
     <-> uint32 Val = 0) /\
  (GetDecodedSynchScope Val = SingleThread <-> uint32 Val = 0) /\
  (6 <= uint32 Val -> GetDecodedOrdering Val = SequentiallyConsistent) /\
  (16 <= uint32 Val -> GetDecodedLinkage Val = GlobalValue.ExternalLinkage) /\
  (3 <= uint32 Val ->
     GetDecodedVisibility Val = GlobalValue.DefaultVisibility).
Proof.
  unfold GetDecodedCastOpcode, GetDecodedRMWOperation,
    GetDecodedThreadLocalMode, GetDecodedSynchScope, GetDecodedOrdering,
    GetDecodedLinkage, GetDecodedVisibility.
  pose proof (uint32_bounds Val) as Hz. revert Hz.
  generalize (uint32 Val) as z. intros z Hz.
  destruct z as [| p | p]; [| | lia].
  - repeat split; intros; try discriminate; try lia; reflexivity.
  - repeat split; intros HN; decide_code p.
Qed.

Lemma GetDecoded_unknown_codes_witness :
  GetDecodedOrdering 9 = SequentiallyConsistent /\
  GetDecodedLinkage 40 = GlobalValue.ExternalLinkage /\
  GetDecodedVisibility 3 = GlobalValue.DefaultVisibility /\
  GetDecodedCastOpcode 12 = None.
Proof.
  pose proof (GetDecoded_unknown_codes 9) as (_ & _ & _ & _ & H9 & _).
  pose proof (GetDecoded_unknown_codes 40) as (_ & _ & _ & _ & _ & H40 & _).
  pose proof (GetDecoded_unknown_codes 3) as (_ & _ & _ & _ & _ & _ & H3).
  pose proof (GetDecoded_unknown_codes 12) as (H12 & _).
  split; [apply H9; vm_compute; discriminate |].
  split; [apply H40; vm_compute; discriminate |].
  split; [apply H3; vm_compute; discriminate |].
  apply H12. vm_compute. discriminate.
Defined.

(** ** Constants blocks *)

(** Inversion of a successful computation, step by step. *)
Ltac inv_Ok H :=
  repeat first
    [ discriminate H
    | match type of H with
      | bind _ _ _ = (Ok _, _) =>
          let a := fresh "a" in let R := fresh "R" in let Hm := fresh "Hm" in
          apply bind_Ok in H as (a & R & Hm & H)
      | (let '(_, _) := ?p in _) _ = (Ok _, _) => destruct p
      | (if ?c then _ else _) _ = (Ok _, _) => destruct c
      | (match ?x with _ => _ end) _ = (Ok _, _) => destruct x
      | (if ?c then _ else _) = (Ok _, _) => destruct c
      | (match ?x with _ => _ end) = (Ok _, _) => destruct x
      end ].

Section ConstantsCount.
Variable H : Host.

Lemma ParseConstants_record_inl (Code : Z) (Record : list Z)
    (CurTy : option Ty) (R R1 : BitcodeReader) (T : option Ty) :
  ParseConstants_record H Code Record CurTy R = (Ok (inl T), R1) ->
  isConstantValueCode Code = false.
Proof.
  unfold ParseConstants_record, isConstantValueCode.
  destruct (bitc.ConstantsCodes_of Code) as [[] |]; intros HP;
    try reflexivity; exfalso; inv_Ok HP.
Qed.

Lemma ParseConstants_record_inr (Code : Z) (Record : list Z)
    (CurTy : option Ty) (R R1 : BitcodeReader) (V : Value) :
  ParseConstants_record H Code Record CurTy R = (Ok (inr V), R1) ->
  isConstantValueCode Code = true.
Proof.
  unfold ParseConstants_record, isConstantValueCode.
  destruct (bitc.ConstantsCodes_of Code) as [[] |]; intros HP;
    try reflexivity; exfalso; inv_Ok HP.
Qed.

Lemma ParseConstants_loop_count (es : list Entry) (endFails : bool) :
  forall (CurTy : option Ty) (n : Z) (R R' : BitcodeReader),
    0 <= n ->
    n + countRecords isConstantValueCode es < 2 ^ 32 ->
    ParseConstants_loop H es endFails CurTy n R = (Ok tt, R') ->
    size (ValueList R') = n + countRecords isConstantValueCode es /\
    ResolveConstants R' = [].
Proof.
  induction es as [| e es IH]; intros CurTy n R R' Hn Hlt HP.
  - cbn in HP. destruct endFails; [discriminate |].
    apply bind_Ok in HP as (sz & R1 & Hsz & HP).
    injection Hsz as <- <-.
    destruct (Z.eqb_spec n (size (ValueList R))); [| discriminate].
    injection HP as <-. cbn. split; [lia | reflexivity].
  - assert (Hc : 0 <= countRecords isConstantValueCode es).
    { clear. induction es as [| [] es IH]; cbn; try lia.
      destruct (isConstantValueCode Code); lia. }
    destruct e as [Code Record | ID B |]; cbn [ParseConstants_loop] in HP.
    + cbn [countRecords] in Hlt |- *.
      apply bind_Ok in HP as ([T | V] & R1 & Hrec & HP).
      * rewrite (ParseConstants_record_inl _ _ _ _ _ _ Hrec) in Hlt |- *.
        apply (IH _ _ _ _ Hn Hlt HP).
      * rewrite (ParseConstants_record_inr _ _ _ _ _ _ Hrec) in Hlt |- *.
        apply bind_Ok in HP as (u & R2 & HA & HP).
        assert (Hu : uint32 (n + 1) = n + 1).
        { unfold uint32. apply Z.mod_small. lia. }
        rewrite Hu in HP.
        apply IH in HP; [| lia | lia]. destruct HP as (Hs & Hr).
        split; [lia | exact Hr].
    + cbn [countRecords] in Hlt |- *.
      destruct (B_skipFails B); [discriminate |].
      apply (IH _ _ _ _ Hn Hlt HP).
    + cbn [countRecords] in Hlt |- *. apply (IH _ _ _ _ Hn Hlt HP).
Qed.

End ConstantsCount.

(** X10: A constants block that parses adds exactly one value to the value table
    for each of its records other than SETTYPE, whatever their codes, and
    leaves no constant to resolve: a forward reference past the last
    constant of the block makes the parse fail. *)
Theorem ParseConstants_count (H : Host) (B : Block) (R R' : BitcodeReader) :
  size (ValueList R) + countRecords isConstantValueCode (B_entries B)
    < 2 ^ 32 ->
  ParseConstants H B R = (Ok tt, R') ->
  size (ValueList R')
    = size (ValueList R) + countRecords isConstantValueCode (B_entries B) /\
  ResolveConstants R' = [].
Proof.
  intros Hlt HP. unfold ParseConstants in HP.
  destruct (B_enterFails B); [discriminate |].
  apply bind_Ok in HP as (n & R1 & Hn & HP). injection Hn as <- <-.
  apply (ParseConstants_loop_count H _ _ _ _ _ _ (size_nonneg _) Hlt HP).
Qed.

Lemma ParseConstants_count_witness :
  exists R',
    ParseConstants sampleHost constants_unknown sampleReader = (Ok tt, R') /\
    size (ValueList R')
      = size (ValueList sampleReader)
        + countRecords isConstantValueCode (B_entries constants_unknown) /\
    ResolveConstants R' = [].
Proof.
  eexists. split; [vm_compute; reflexivity |].
  apply (ParseConstants_count sampleHost constants_unknown sampleReader).
  - vm_compute. reflexivity.
  - vm_compute. reflexivity.
Defined.

(** ** The type table *)

Lemma countRecords_nonneg (p : Z -> bool) (es : list Entry) :
  0 <= countRecords p es.
Proof.
  induction es as [| [] es IH]; cbn; try lia. destruct (p Code); lia.
Qed.

Lemma ParseTypeTableBody_record_inl (Code : Z) (Record : list Z)
    (NumRecords : Z) (TypeName Nm : Str) (R R1 : BitcodeReader) :
  ParseTypeTableBody_record Code Record NumRecords TypeName R
    = (Ok (inl Nm), R1) ->
  isTypeCode Code = false.
Proof.
  unfold ParseTypeTableBody_record, isTypeCode.
  destruct (bitc.TypeCodes_of Code) as [[] |]; intros HP;
    try reflexivity; exfalso; inv_Ok HP.
Qed.

Lemma ParseTypeTableBody_record_inr (Code : Z) (Record : list Z)
    (NumRecords : Z) (TypeName : Str) (r : Ty * Str) (R R1 : BitcodeReader) :
  ParseTypeTableBody_record Code Record NumRecords TypeName R
    = (Ok (inr r), R1) ->
  isTypeCode Code = true.
Proof.
  unfold ParseTypeTableBody_record, isTypeCode.
  destruct (bitc.TypeCodes_of Code) as [[] |]; intros HP;
    try reflexivity; exfalso; inv_Ok HP.
Qed.

Lemma ParseTypeTableBody_loop_count (es : list Entry) (endFails : bool) :
  forall (n : Z) (TypeName : Str) (R R' : BitcodeReader),
    0 <= n ->
    n + countRecords isTypeCode es < 2 ^ 32 ->
    ParseTypeTableBody_loop es endFails n TypeName R = (Ok tt, R') ->
    size (TypeList R') = n + countRecords isTypeCode es.
Proof.
  induction es as [| e es IH]; intros n TypeName R R' Hn Hlt HP.
  - cbn in HP. destruct endFails; [discriminate |].
    apply bind_Ok in HP as (sz & R1 & Hsz & HP).
    injection Hsz as <- <-.
    destruct (Z.eqb_spec n (size (TypeList R))); [| discriminate].
    injection HP as <-. cbn. lia.
  - pose proof (countRecords_nonneg isTypeCode es) as Hc.
    destruct e as [Code Record | ID B |]; cbn [ParseTypeTableBody_loop] in HP;
      cbn [countRecords] in Hlt |- *.
    + apply bind_Ok in HP as ([Nm | [ResultTy Nm]] & R1 & Hrec & HP).
      * rewrite (ParseTypeTableBody_record_inl _ _ _ _ _ _ _ Hrec) in Hlt |- *.
        apply (IH _ _ _ _ Hn Hlt HP).
      * rewrite (ParseTypeTableBody_record_inr _ _ _ _ _ _ _ Hrec) in Hlt |- *.
        apply bind_Ok in HP as (sz & R2 & Hsz & HP).
        injection Hsz as <- <-.
        destruct (size (TypeList R1) <=? n); [discriminate |].
        apply bind_Ok in HP as (u & R3 & Hm & HP).
        assert (Hu : uint32 (n + 1) = n + 1).
        { unfold uint32. apply Z.mod_small. lia. }
        rewrite Hu in HP.
        apply IH in HP; [| lia | lia]. lia.
    + destruct (B_skipFails B); [discriminate |].
      apply (IH _ _ _ _ Hn Hlt HP).
    + apply (IH _ _ _ _ Hn Hlt HP).
Qed.

(** X11: A type block is parsed into an empty type table only, and when it
    parses the table has exactly one slot for each of its records other
    than NUMENTRY and STRUCT_NAME: the number of slots announced and the
    number of types read must agree. *)
Theorem ParseTypeTable_count (B : Block) (R R' : BitcodeReader) :
  countRecords isTypeCode (B_entries B) < 2 ^ 32 ->
  ParseTypeTable B R = (Ok tt, R') ->
  TypeList R = [] /\
  size (TypeList R') = countRecords isTypeCode (B_entries B).
Proof.
  intros Hlt HP. unfold ParseTypeTable in HP.
  destruct (B_enterFails B); [discriminate |].
  unfold ParseTypeTableBody in HP.
  apply bind_Ok in HP as (ne & R1 & Hne & HP). injection Hne as <- <-.
  destruct (Z.eqb_spec (size (TypeList R)) 0) as [Hz | Hnz];
    [| discriminate].
  cbn [negb] in HP. split.
  - destruct (TypeList R); [reflexivity | discriminate].
  - apply (ParseTypeTableBody_loop_count _ _ 0 _ _ _ ltac:(lia) Hlt HP).
Qed.

Lemma ParseTypeTable_count_witness :
  exists R',
    ParseTypeTable (block [ERecord 1 [2]; ERecord 7 [32]; ERecord 8 [0]])
      newReader = (Ok tt, R') /\
    TypeList newReader = [] /\
    size (TypeList R')
      = countRecords isTypeCode
          (B_entries (block [ERecord 1 [2]; ERecord 7 [32]; ERecord 8 [0]])).
Proof.
  eexists. split; [vm_compute; reflexivity |].
  apply (ParseTypeTable_count
           (block [ERecord 1 [2]; ERecord 7 [32]; ERecord 8 [0]]) newReader).
  - vm_compute. reflexivity.
  - vm_compute. reflexivity.
Defined.

(** ** Attribute blocks *)

Lemma readOldAttributes_pure (Record : list Z) (R : BitcodeReader) :
  exists Attrs, readOldAttributes Record R = (Ok Attrs, R).
Proof.
  assert (Hn : forall (n : nat) Record,
            (length Record <= n)%nat ->
            exists Attrs, readOldAttributes Record R = (Ok Attrs, R)).
  { clear Record. induction n as [| n IH]; intros Record Hlen.
    - destruct Record; [| cbn in Hlen; lia]. eexists. reflexivity.
    - destruct Record as [| Index [| Word Record]];
        try (eexists; reflexivity).
      destruct (IH Record) as (Attrs & HA); [cbn in Hlen; lia |].
      cbn [readOldAttributes]. unfold bind. rewrite HA.
      eexists. reflexivity. }
  apply (Hn (length Record)). lia.
Qed.

Lemma ParseAttributeBlock_loop_count (es : list Entry) (endFails : bool) :
  forall (R R' : BitcodeReader),
    ParseAttributeBlock_loop es endFails R = (Ok tt, R') ->
    size (MAttributes R')
      = size (MAttributes R) + countRecords isAttributeEntryCode es.
Proof.
  induction es as [| e es IH]; intros R R' HP.
  - cbn in HP. destruct endFails; [discriminate |].
    injection HP as <-. cbn. lia.
  - destruct e as [Code Record | ID B |]; cbn [ParseAttributeBlock_loop] in HP;
      cbn [countRecords].
    + apply bind_Ok in HP as (u & R1 & Hrec & HP).
      apply IH in HP. rewrite HP.
      unfold ParseAttributeBlock_record, isAttributeEntryCode in *.
      destruct (bitc.AttributeCodes_of Code) as [[] |].
      * destruct (Z.odd (size Record)); [discriminate |].
        destruct (readOldAttributes_pure Record R) as (Attrs & HA).
        unfold bind in Hrec. rewrite HA in Hrec.
        injection Hrec as _ <-. cbn [MAttributes set_MAttributes].
        rewrite size_app_one. lia.
      * injection Hrec as _ <-. cbn [MAttributes set_MAttributes].
        rewrite size_app_one. lia.
      * injection Hrec as _ <-. lia.
    + destruct (B_skipFails B); [discriminate |]. apply (IH _ _ HP).
    + apply (IH _ _ HP).
Qed.

(** X12: An attribute block is parsed into an empty attribute table only, and
    when it parses the table holds one attribute set for each ENTRY record of
    the block, old or new; once a block has added a set, any later attribute
    block that can be entered is rejected with InvalidMultipleBlocks and
    changes nothing. *)
Theorem ParseAttributeBlock_count (B B2 : Block) (R R' : BitcodeReader) :
  ParseAttributeBlock B R = (Ok tt, R') ->
  MAttributes R = [] /\
  size (MAttributes R') = countRecords isAttributeEntryCode (B_entries B) /\
  (0 < countRecords isAttributeEntryCode (B_entries B) ->
   B_enterFails B2 = false ->
   ParseAttributeBlock B2 R' = (Err InvalidMultipleBlocks, R')).
Proof.
  intros HP. unfold ParseAttributeBlock in HP.
  destruct (B_enterFails B); [discriminate |].
  apply bind_Ok in HP as (ne & R1 & Hne & HP). injection Hne as <- <-.
  destruct (Z.eqb_spec (size (MAttributes R)) 0) as [Hz | Hnz];
    [| discriminate].
  cbn [negb] in HP. apply ParseAttributeBlock_loop_count in HP.
  rewrite Hz in HP. split.
  - destruct (MAttributes R); [reflexivity | discriminate].
  - split; [lia |].
    intros Hpos HB2. unfold ParseAttributeBlock. rewrite HB2.
    unfold bind, get.
    destruct (Z.eqb_spec (size (MAttributes R')) 0); [lia | reflexivity].
Qed.

Lemma ParseAttributeBlock_count_witness :
  exists R',
    ParseAttributeBlock (block [ERecord 1 [0; 1]]) newReader = (Ok tt, R') /\
    size (MAttributes R')
      = countRecords isAttributeEntryCode
          (B_entries (block [ERecord 1 [0; 1]])) /\
    ParseAttributeBlock (block []) R' = (Err InvalidMultipleBlocks, R').
Proof.
  eexists. split; [vm_compute; reflexivity |].
  destruct (ParseAttributeBlock_count (block [ERecord 1 [0; 1]]) (block [])
              newReader _ eq_refl) as (_ & H2 & H3).
  split; [exact H2 |]. apply H3; reflexivity.
Defined.

(** ** The instructions built from records *)


Lemma emit_eq (H : Host) (I : Instruction) (R : BitcodeReader) :
  emit H I R
    = (Ok (length (Insts R)),
       set_InstructionList (InstructionList R ++ [length (Insts R)])
         (set_Insts
            (Insts R ++ [Some (mkInstObj I (InstType H I) [] None [])]) R)).
Proof. reflexivity. Qed.



Lemma at_inv {A} (l : list A) (i : Z) (x : A) (R R' : BitcodeReader) :
  at_ l i R = (Ok x, R') -> elt l i = Some x /\ R' = R.
Proof.
  unfold at_, deref. destruct (elt l i); [| discriminate].
  intros HE. injection HE as <- <-. split; reflexivity.
Qed.

Lemma lift_inv {A} (r : res A) (x : A) (R R' : BitcodeReader) :
  lift r R = (Ok x, R') -> r = Ok x /\ R' = R.
Proof. unfold lift. intros HE. injection HE as -> <-. split; reflexivity. Qed.

Lemma emit_inv (H : Host) (Inst : Instruction) (I : nat)
    (R R' : BitcodeReader) :
  emit H Inst R = (Ok I, R') ->
  Insts R' !! I = Some (Some (mkInstObj Inst (InstType H Inst) [] None [])).
Proof.
  rewrite emit_eq. intros HE. injection HE as <- <-.
  cbn [Insts set_Insts set_InstructionList].
  apply list_lookup_middle. reflexivity.
Qed.

(** An accepted ALLOCA, LOAD or STORE record builds an instruction whose
    alignment is the decoded alignment field of the record. *)
Lemma record_alignment (H : Host) (F : nat) (Code : Z) (Record : list Z)
    (L : FnLocals) (R R' : BitcodeReader) (I : nat) (f : Z) :
  ParseFunctionBody_record H F Code Record L R = (Ok (inr I), R') ->
  alignmentField Code Record = Some f ->
  0 <= f < 2 ^ 32 ->
  exists O A,
    Insts R' !! I = Some (Some O) /\
    Instruction_getAlignment (I_inst O) = Some A /\
    decodeAlignment f = Ok A.
Proof.
  unfold ParseFunctionBody_record, alignmentField. cbv zeta.
  destruct (bitc.FunctionCodes_of Code) as [[] |]; try discriminate;
    intros HP Hf Hr.
  - (* ALLOCA *)
    apply bind_Ok in HP as (I0 & R1 & HP & Hret).
    injection Hret as <- <-.
    destruct (negb (size Record =? 4)); [discriminate |].
    apply bind_Ok in HP as (R0 & Ra & H0 & HP).
    apply bind_Ok in HP as (R1' & Rb & H1 & HP).
    apply bind_Ok in HP as (R2 & Rc & H2 & HP).
    apply bind_Ok in HP as (R3 & Rd & H3 & HP).
    apply at_inv in H3 as (H3 & ->).
    rewrite Hf in H3. injection H3 as <-.
    apply bind_Ok in HP as (T & Re & HT & HP).
    apply bind_Ok in HP as (OpTy & Rf & HO & HP).
    apply bind_Ok in HP as (Size & Rg & HS & HP).
    destruct T as [[] |]; try discriminate.
    destruct Size as [Size |]; try discriminate.
    apply bind_Ok in HP as (A & Rh & HA & HP).
    apply lift_inv in HA as (HA & ->).
    apply emit_inv in HP.
    rewrite uint32_small in HA by exact Hr.
    eexists _, A. split; [exact HP |]. split; [reflexivity | exact HA].
  - (* LOAD *)
    apply bind_Ok in HP as (I0 & R1 & HP & Hret).
    injection Hret as <- <-.
    apply bind_Ok in HP as ([Op OpNum] & Ra & Hop & HP).
    destruct (OpNum + 2 =? size Record) eqn:Hsz; [| discriminate].
    apply Z.eqb_eq in Hsz. cbn [negb] in HP.
    apply bind_Ok in HP as (Vol & Rb & HV & HP).
    apply bind_Ok in HP as (AF & Rc & HAF & HP).
    apply at_inv in HAF as (HAF & ->).
    replace (size Record - 2) with OpNum in Hf by lia.
    rewrite Hf in HAF. injection HAF as <-.
    apply bind_Ok in HP as (A & Rd & HA & HP).
    apply lift_inv in HA as (HA & ->).
    apply emit_inv in HP.
    eexists _, A. split; [exact HP |]. split; [reflexivity | exact HA].
  - (* STORE *)
    apply bind_Ok in HP as (I0 & R1 & HP & Hret).
    injection Hret as <- <-.
    apply bind_Ok in HP as ([Ptr OpNum] & Ra & Hop & HP).
    apply bind_Ok in HP as (ElTy & Rb & HE & HP).
    apply bind_Ok in HP as ([Val OpNum'] & Rc & Hval & HP).
    destruct (OpNum' + 2 =? size Record) eqn:Hsz; [| discriminate].
    apply Z.eqb_eq in Hsz. cbn [negb] in HP.
    apply bind_Ok in HP as (Vol & Rd & HV & HP).
    apply bind_Ok in HP as (AF & Re & HAF & HP).
    apply at_inv in HAF as (HAF & ->).
    replace (size Record - 2) with OpNum' in Hf by lia.
    rewrite Hf in HAF. injection HAF as <-.
    apply bind_Ok in HP as (A & Rf & HA & HP).
    apply lift_inv in HA as (HA & ->).
    apply emit_inv in HP.
    eexists _, A. split; [exact HP |]. split; [reflexivity | exact HA].
Qed.

(** C6 (amended): for every alignment [a] that is zero or a power of two
    below 2^30, the alignment field [log2(a)+1] of ALLOCA, LOAD and STORE
    records (0 for [a = 0]) decodes through [(1 << field) >> 1] back to [a]:
    the field 0 decodes to the alignment 0, and every ALLOCA, LOAD or STORE
    record that the function block accepts with the field [log2(a)+1]
    (0 for [a = 0]) builds an instruction of alignment [a]. *)
Theorem C6_decodeAlignment (k : Z) :
  0 <= k < 30 ->
  decodeAlignment (Z.log2 (2 ^ k) + 1) = Ok (2 ^ k) /\
  decodeAlignment 0 = Ok 0 /\
  forall (H : Host) (F : nat) (Code : Z) (Record : list Z) (L : FnLocals)
         (R R' : BitcodeReader) (I : nat) (a : Z),
    a = 2 ^ k \/ a = 0 ->
    alignmentField Code Record = Some (if a =? 0 then 0 else Z.log2 a + 1) ->
    ParseFunctionBody_record H F Code Record L R = (Ok (inr I), R') ->
    exists O,
      Insts R' !! I = Some (Some O) /\
      Instruction_getAlignment (I_inst O) = Some a.
Proof.
  intros Hk.
  assert (Hp : decodeAlignment (Z.log2 (2 ^ k) + 1) = Ok (2 ^ k)).
  { rewrite Z.log2_pow2 by lia. apply decodeAlignment_pow2. exact Hk. }
  split; [exact Hp |]. split; [apply decodeAlignment_0 |].
  intros H F Code Record L R R' I a Ha Hf HP.
  assert (Hd : decodeAlignment (if a =? 0 then 0 else Z.log2 a + 1) = Ok a
               /\ 0 <= (if a =? 0 then 0 else Z.log2 a + 1) < 2 ^ 32).
  { destruct Ha as [-> | ->].
    - assert (Hnz : (2 ^ k =? 0) = false).
      { apply Z.eqb_neq. pose proof (Z.pow_pos_nonneg 2 k). lia. }
      rewrite Hnz. split; [exact Hp |].
      rewrite Z.log2_pow2 by lia. lia.
    - split; [apply decodeAlignment_0 | cbn; lia]. }
  destruct Hd as (Hd & Hr).
  destruct (record_alignment _ _ _ _ _ _ _ _ _ HP Hf Hr)
    as (O & A & HI & HA & HD).
  exists O. split; [exact HI |]. rewrite HA. congruence.
Qed.

Lemma C6_decodeAlignment_witness :
  decodeAlignment (Z.log2 (2 ^ 4) + 1) = Ok (2 ^ 4) /\
  decodeAlignment 0 = Ok 0 /\
  exists O,
    Insts (snd (ParseFunctionBody_record sampleHost 0 20 [0; 5; 0]
                  sampleLocals sampleReader)) !! 0%nat = Some (Some O) /\
    Instruction_getAlignment (I_inst O) = Some 16.
Proof.
  pose proof (C6_decodeAlignment 4 ltac:(lia)) as (H1 & H2 & H3).
  split; [exact H1 |]. split; [exact H2 |].
  apply (H3 sampleHost 0%nat 20 [0; 5; 0] sampleLocals sampleReader _
            0%nat 16).
  - left. reflexivity.
  - reflexivity.
  - vm_compute. reflexivity.
Defined.

(** ** Deferred function bodies and the materializer *)

(** X13: The two queries of the materializer exclude each other: a global value
    is materializable or dematerializable only if it is a function recorded
    in [DeferredFunctionInfo], materializable when it has no body and
    dematerializable when it has one; neither query changes the reader. *)
Theorem isMaterializable_isDematerializable (R : BitcodeReader) (GV : nat)
    (G : GlobalObj) :
  Globals R !! GV = Some (Some G) ->
  exists m d : bool,
    isMaterializable GV R = (Ok m, R) /\
    isDematerializable GV R = (Ok d, R) /\
    m && d = false /\
    (m || d = true <->
       G_kind G = GK_Function /\ is_Some (DeferredFunctionInfo R !! GV)) /\
    (m = true -> G_blocks G = []) /\
    (d = true -> G_blocks G <> []).
Proof.
  intros HG. unfold isMaterializable, isDematerializable, bind, get, deref.
  rewrite HG. cbn.
  destruct (G_kind G) eqn:Hk; cbn;
    try (exists false, false; repeat split; try discriminate;
         intros (? & _); discriminate).
  unfold Function_isDeclaration.
  destruct (G_blocks G) eqn:Hb; cbn.
  - exists (bool_decide (is_Some (DeferredFunctionInfo R !! GV))), false.
    rewrite andb_false_r, orb_false_r, bool_decide_eq_true.
    repeat split; try discriminate; try reflexivity; tauto.
  - exists false, (bool_decide (is_Some (DeferredFunctionInfo R !! GV))).
    cbn [andb orb]. rewrite bool_decide_eq_true.
    repeat split; try discriminate; try reflexivity; tauto.
Qed.

Lemma isMaterializable_isDematerializable_witness :
  exists m d : bool,
    isMaterializable 0 sampleReader = (Ok m, sampleReader) /\
    isDematerializable 0 sampleReader = (Ok d, sampleReader) /\
    m && d = false.
Proof.
  destruct (isMaterializable_isDematerializable sampleReader 0 sampleFunction
              eq_refl) as (m & d & H1 & H2 & H3 & _).
  exists m, d. auto.
Defined.

(** X14: [RememberAndSkipFunctionBody] with no prototype left fails with
    InsufficientFunctionProtos and changes nothing.  Otherwise it takes the
    last prototype off [FunctionsWithBodies] and records the position of its
    body, and does so even when skipping the block then fails with
    InvalidRecord; when the skip succeeds, a function without a body has
    become materializable. *)
Theorem RememberAndSkipFunctionBody_defers (CurBit : Z) (B : Block)
    (R : BitcodeReader) :
  (FunctionsWithBodies R = [] ->
   RememberAndSkipFunctionBody CurBit B R
     = (Err InsufficientFunctionProtos, R)) /\
  (forall Fs Fn G,
     FunctionsWithBodies R = Fs ++ [Fn] ->
     exists R',
       RememberAndSkipFunctionBody CurBit B R
         = (if B_skipFails B then Err InvalidRecord else Ok tt, R') /\
       FunctionsWithBodies R' = Fs /\
       DeferredFunctionInfo R' = <[Fn := CurBit]> (DeferredFunctionInfo R) /\
       (Globals R !! Fn = Some (Some G) ->
        G_kind G = GK_Function -> G_blocks G = [] ->
        isMaterializable Fn R' = (Ok true, R'))).
Proof.
  unfold RememberAndSkipFunctionBody. split.
  - intros HF. unfold bind, get. rewrite HF. reflexivity.
  - intros Fs Fn G HF.
    exists (set_DeferredFunctionInfo
              (<[Fn := CurBit]> (DeferredFunctionInfo R))
              (set_FunctionsWithBodies Fs R)).
    split.
    { unfold bind, get, modify. rewrite HF, last_snoc, removelast_last.
      destruct (B_skipFails B); reflexivity. }
    split; [reflexivity |]. split; [reflexivity |].
    intros HG Hk Hb.
    unfold isMaterializable, bind, get, deref.
    cbn [Globals set_DeferredFunctionInfo set_FunctionsWithBodies
           DeferredFunctionInfo].
    rewrite HG. cbn. rewrite Hk. unfold Function_isDeclaration. rewrite Hb.
    cbn. rewrite bool_decide_eq_true_2; [reflexivity |].
    rewrite lookup_insert_eq. eauto.
Qed.

Lemma RememberAndSkipFunctionBody_defers_witness :
  RememberAndSkipFunctionBody 64 (block []) newReader
    = (Err InsufficientFunctionProtos, newReader) /\
  exists R',
    RememberAndSkipFunctionBody 64 (block [])
      (set_FunctionsWithBodies [0%nat] sampleReader) = (Ok tt, R') /\
    isMaterializable 0 R' = (Ok true, R').
Proof.
  split.
  - apply (proj1 (RememberAndSkipFunctionBody_defers 64 (block []) newReader)).
    reflexivity.
  - destruct (proj2 (RememberAndSkipFunctionBody_defers 64 (block [])
                       (set_FunctionsWithBodies [0%nat] sampleReader))
                [] 0%nat sampleFunction eq_refl)
      as (R' & H1 & _ & _ & H4).
    exists R'. split; [exact H1 |].
    apply H4; reflexivity.
Defined.

(** ** The target triple *)

Lemma ConvertToString_0 (Record : list Z) :
  ConvertToString Record 0 [] = Some (map (fun c => c mod 256) Record).
Proof.
  unfold ConvertToString. pose proof (size_nonneg Record).
  destruct (Z.ltb_spec (size Record) 0); [lia | reflexivity].
Qed.

Lemma parseModuleTriple_loop_prefix (es rest : list Entry) (endFails : bool) :
  forallb skippable es = true ->
  forall Triple, exists Triple',
    parseModuleTriple_loop (es ++ rest) endFails Triple
      = parseModuleTriple_loop rest endFails Triple'.
Proof.
  induction es as [| e es IH]; intros Hs Triple.
  - exists Triple. reflexivity.
  - cbn in Hs. apply andb_true_iff in Hs as (He & Hs).
    destruct e as [Code Record | ID B |]; cbn [app parseModuleTriple_loop].
    + destruct (bitc.ModuleCodes_of Code) as [[] |]; try apply (IH Hs).
      rewrite ConvertToString_0. apply (IH Hs).
    + cbn in He. destruct (B_skipFails B); [discriminate |]. apply (IH Hs).
    + apply (IH Hs).
Qed.

Lemma parseModuleTriple_loop_rest (es : list Entry) (Triple : Str) :
  forallb skippable es = true ->
  existsb isTripleRecord es = false ->
  parseModuleTriple_loop es false Triple = Ok Triple.
Proof.
  induction es as [| e es IH]; intros Hs Ht; [reflexivity |].
  cbn in Hs, Ht. apply andb_true_iff in Hs as (He & Hs).
  apply orb_false_iff in Ht as (Hte & Ht).
  destruct e as [Code Record | ID B |]; cbn [parseModuleTriple_loop].
  - cbn in Hte.
    destruct (bitc.ModuleCodes_of Code) as [[] |]; try apply (IH Hs Ht).
    discriminate.
  - cbn in He. destruct (B_skipFails B); [discriminate |]. apply (IH Hs Ht).
  - apply (IH Hs Ht).
Qed.

(** X15: [parseModuleTriple] on a module block whose sub-blocks can be skipped:
    the result is the string of the last TRIPLE record of the block, one
    character for each element of the record, whatever the other records
    are; with no TRIPLE record it is the empty string.  No record makes it
    fail.  It is the string the module parser itself stores as the target
    triple when it reads that record. *)
Theorem parseModuleTriple_last (B : Block) :
  B_enterFails B = false ->
  B_endFails B = false ->
  forallb skippable (B_entries B) = true ->
  (existsb isTripleRecord (B_entries B) = false ->
   parseModuleTriple B = Ok []) /\
  (forall es Code Record es',
     B_entries B = es ++ ERecord Code Record :: es' ->
     isTripleRecord (ERecord Code Record) = true ->
     existsb isTripleRecord es' = false ->
     parseModuleTriple B = Ok (map (fun c => c mod 256) Record) /\
     forall L R, exists R',
       ParseModule_record Code Record L R = (Ok L, R') /\
       TargetTriple R' = map (fun c => c mod 256) Record).
Proof.
  intros Henter Hend Hs. unfold parseModuleTriple. rewrite Henter, Hend.
  split.
  - intros Ht. apply parseModuleTriple_loop_rest; assumption.
  - intros es Code Record es' HB HT Ht. rewrite HB in Hs |- *.
    rewrite forallb_app in Hs. apply andb_true_iff in Hs as (Hs1 & Hs2).
    cbn in Hs2.
    destruct (parseModuleTriple_loop_prefix es (ERecord Code Record :: es')
                false Hs1 []) as (T' & ->).
    cbn [parseModuleTriple_loop]. cbn in HT.
    destruct (bitc.ModuleCodes_of Code) as [[] |] eqn:HC; try discriminate.
    rewrite ConvertToString_0.
    split; [apply parseModuleTriple_loop_rest; assumption |].
    intros L R. unfold ParseModule_record.
    rewrite HC, ConvertToString_0. eexists. split; reflexivity.
Qed.

Lemma parseModuleTriple_last_witness :
  parseModuleTriple (block [ERecord 1 [0]; ERecord 2 [97]; ERecord 2 [98; 355];
                            ERecord 3 [99]])
    = Ok (map (fun c => c mod 256) [98; 355]).
Proof.
  apply (proj2 (parseModuleTriple_last
                  (block [ERecord 1 [0]; ERecord 2 [97]; ERecord 2 [98; 355];
                          ERecord 3 [99]])
                  eq_refl eq_refl eq_refl)
           [ERecord 1 [0]; ERecord 2 [97]] 2 [98; 355] [ERecord 3 [99]]
           eq_refl eq_refl eq_refl).
Defined.

(** ** Error messages *)

(** X16: No two error codes of the reader have the same message, and no message
    is empty. *)
Theorem message_injective (E1 E2 : BitcodeError) :
  (message E1 = message E2 -> E1 = E2) /\ message E1 <> EmptyString.
Proof.
  split.
  - destruct E1, E2; intros HE; try reflexivity; discriminate HE.
  - destruct E1; discriminate.
Qed.

Lemma message_injective_witness :
  InvalidConstantReference = InvalidConstantReference /\
  message InvalidConstantReference <> EmptyString.
Proof.
  split.
  - apply (proj1 (message_injective InvalidConstantReference
                    InvalidConstantReference)).
    reflexivity.
  - apply (proj2 (message_injective InvalidConstantReference InvalidValue)).
Defined.

(** ** Initializers of globals and aliases *)

Lemma resolveGlobalInits_pending (W : list (nat * Z)) :
  forall R,
    Forall (fun p => size (ValueList R) <= p.2) W ->
    resolveGlobalInits W R = (Ok tt, set_GlobalInits (GlobalInits R ++ W) R).
Proof.
  induction W as [| [GV ValID] W IH]; intros R HW.
  - cbn. rewrite app_nil_r. destruct R; reflexivity.
  - apply Forall_cons in HW as (Hp & HW). cbn in Hp.
    cbn [resolveGlobalInits]. unfold bind at 1, get.
    destruct (Z.leb_spec (size (ValueList R)) ValID); [| lia].
    unfold bind at 1, modify. rewrite IH by exact HW.
    cbn [GlobalInits set_GlobalInits]. rewrite <- app_assoc. reflexivity.
Qed.

Lemma resolveAliasInits_pending (W : list (nat * Z)) :
  forall R Map,
    Forall (fun p => size (ValueList R) <= p.2) W ->
    resolveAliasInits W Map R
      = (Ok Map, set_AliasInits (AliasInits R ++ W) R).
Proof.
  induction W as [| [GA ValID] W IH]; intros R Map HW.
  - cbn. rewrite app_nil_r. destruct R; reflexivity.
  - apply Forall_cons in HW as (Hp & HW). cbn in Hp.
    cbn [resolveAliasInits]. unfold bind at 1, get. unfold bind at 1.
    destruct (Z.leb_spec (size (ValueList R)) ValID); [| lia].
    unfold bind at 1, modify, ret. rewrite IH by exact HW.
    cbn [AliasInits set_AliasInits]. rewrite <- app_assoc. reflexivity.
Qed.

(** X17: Initializers whose value is not in the value table yet stay pending:
    when every queued initializer of a global or an alias refers past the
    end of the value table, [ResolveGlobalAndAliasInits] succeeds and only
    reverses the two queues; a second call restores them. *)
Theorem ResolveGlobalAndAliasInits_pending (fuel : nat) (R : BitcodeReader) :
  Forall (fun p => size (ValueList R) <= p.2) (GlobalInits R) ->
  Forall (fun p => size (ValueList R) <= p.2) (AliasInits R) ->
  let R' := set_AliasInits (rev (AliasInits R))
              (set_GlobalInits (rev (GlobalInits R)) R) in
  ResolveGlobalAndAliasInits fuel R = (Ok (Some tt), R') /\
  ResolveGlobalAndAliasInits fuel R' = (Ok (Some tt), R).
Proof.
  assert (Hone : forall R0,
            Forall (fun p => size (ValueList R0) <= p.2) (GlobalInits R0) ->
            Forall (fun p => size (ValueList R0) <= p.2) (AliasInits R0) ->
            ResolveGlobalAndAliasInits fuel R0
              = (Ok (Some tt),
                 set_AliasInits (rev (AliasInits R0))
                   (set_GlobalInits (rev (GlobalInits R0)) R0))).
  { intros R0 HG HA. unfold ResolveGlobalAndAliasInits.
    unfold bind at 1, get. unfold bind at 1. unfold bind at 1, modify.
    unfold bind at 1. unfold bind at 1.
    rewrite resolveGlobalInits_pending
      by (cbn [ValueList set_GlobalInits set_AliasInits];
          apply Forall_rev; exact HG).
    unfold bind at 1.
    rewrite resolveAliasInits_pending
      by (cbn [ValueList set_GlobalInits set_AliasInits];
          apply Forall_rev; exact HA).
    rewrite map_to_list_empty. reflexivity. }
  intros HG HA R'. split; [apply Hone; assumption |].
  rewrite Hone.
  - subst R'. cbn [GlobalInits AliasInits set_GlobalInits set_AliasInits].
    rewrite !rev_involutive. destruct R; reflexivity.
  - subst R'. cbn [ValueList GlobalInits set_GlobalInits set_AliasInits].
    apply Forall_rev. exact HG.
  - subst R'. cbn [ValueList AliasInits set_GlobalInits set_AliasInits].
    apply Forall_rev. exact HA.
Qed.

Lemma ResolveGlobalAndAliasInits_pending_witness :
  let R := set_GlobalInits [(0%nat, 7); (0%nat, 9)] sampleReader in
  let R' := set_AliasInits (rev (AliasInits R))
              (set_GlobalInits (rev (GlobalInits R)) R) in
  ResolveGlobalAndAliasInits 0 R = (Ok (Some tt), R') /\
  ResolveGlobalAndAliasInits 0 R' = (Ok (Some tt), R).
Proof.
  apply (ResolveGlobalAndAliasInits_pending 0
           (set_GlobalInits [(0%nat, 7); (0%nat, 9)] sampleReader)).
  - repeat constructor; vm_compute; discriminate.
  - constructor.
Defined.

(** X18: The initializer processed first is the last one queued.  When its value
    is in the table but is not a constant, [ResolveGlobalAndAliasInits]
    fails with ExpectedConstant, and both queues are left empty: the
    initializers not yet processed are dropped with the local work lists. *)
Theorem ResolveGlobalAndAliasInits_not_constant (fuel : nat)
    (R : BitcodeReader) (Is : list (nat * Z)) (GV : nat) (ValID : Z)
    (V : option Value) :
  GlobalInits R = Is ++ [(GV, ValID)] ->
  elt (ValueList R) ValID = Some V ->
  default false (isaConstant <$> V) = false ->
  ResolveGlobalAndAliasInits fuel R
    = (Err ExpectedConstant, set_AliasInits [] (set_GlobalInits [] R)).
Proof.
  intros HG He HV. unfold ResolveGlobalAndAliasInits.
  unfold bind at 1, get. unfold bind at 1. unfold bind at 1, modify.
  unfold bind at 1. unfold bind at 1.
  rewrite HG, rev_unit. cbn [resolveGlobalInits].
  unfold bind at 1. unfold bind at 1, get.
  cbn [ValueList set_GlobalInits set_AliasInits].
  assert (Hlt : ValID < size (ValueList R)).
  { destruct (Z.leb_spec (size (ValueList R)) ValID) as [Hge |];
      [| assumption].
    rewrite elt_out in He by exact Hge. discriminate. }
  destruct (Z.leb_spec (size (ValueList R)) ValID); [lia |].
  unfold bind, get. cbn [ValueList set_GlobalInits set_AliasInits].
  rewrite (at_elt_ok _ _ _ _ He).
  destruct V as [C |]; [| reflexivity].
  cbn in HV. rewrite HV. reflexivity.
Qed.

Lemma ResolveGlobalAndAliasInits_not_constant_witness :
  let R := set_AliasInits [(0%nat, 0)]
             (set_GlobalInits [(0%nat, 0); (0%nat, 1)]
                (set_ValueList [Some (UndefValue Int32Ty);
                                Some (BasicBlock 0)] sampleReader)) in
  ResolveGlobalAndAliasInits 1 R
    = (Err ExpectedConstant, set_AliasInits [] (set_GlobalInits [] R)).
Proof.
  apply (ResolveGlobalAndAliasInits_not_constant 1
           (set_AliasInits [(0%nat, 0)]
             (set_GlobalInits [(0%nat, 0); (0%nat, 1)]
                (set_ValueList [Some (UndefValue Int32Ty);
                                Some (BasicBlock 0)] sampleReader)))
           [(0%nat, 0)] 0%nat 1 (Some (BasicBlock 0)));
    reflexivity.
Defined.


(** ** Symbol tables *)

(** The reader tables a symbol table has no business with. *)
Lemma tables_bind {A B} (m : M A) (k : A -> M B) :
  (forall R, sameTables R (snd (m R))) ->
  (forall a R, sameTables R (snd (k a R))) ->
  forall R, sameTables R (snd (bind m k R)).
Proof.
  intros Hm Hk R. unfold bind. specialize (Hm R).
  destruct (m R) as [[a | e |] R1]; cbn in Hm |- *; try exact Hm.
  specialize (Hk a R1). unfold sameTables in *.
  destruct Hm as (H1 & H2 & H3), Hk as (K1 & K2 & K3).
  rewrite K1, K2, K3. auto.
Qed.

Lemma sameTables_refl (R : BitcodeReader) : sameTables R R.
Proof. unfold sameTables. auto. Qed.

Ltac tables :=
  repeat first
    [ apply sameTables_refl
    | solve [unfold sameTables; cbn; auto]
    | apply tables_bind; intros
    | match goal with
      | |- forall R, _ => intros
      | |- sameTables _ (snd ((if ?c then _ else _) _)) => destruct c
      | |- sameTables _ (snd ((match ?x with _ => _ end) _)) => destruct x
      | |- sameTables _ (snd (let '(_, _) := ?p in _)) => destruct p
      end ].

Lemma updGlobal_tables (id : nat) (f : GlobalObj -> GlobalObj)
    (R : BitcodeReader) :
  sameTables R (snd (updGlobal id f R)).
Proof.
  revert R. unfold updGlobal, getGlobal, get, deref, modify, ret, undefined.
  tables.
Qed.

Lemma Value_setName_tables (V : Value) (Name : Str) (R : BitcodeReader) :
  sameTables R (snd (Value_setName V Name R)).
Proof.
  revert R. unfold Value_setName.
  destruct V; try (intros; apply sameTables_refl);
    try (intros; apply updGlobal_tables).
  - destruct Parent; intros; [apply updGlobal_tables | apply sameTables_refl].
  - unfold get, deref, modify, ret, undefined. tables.
  - unfold get, deref, modify, ret, undefined. tables.
Qed.

Lemma ParseValueSymbolTable_record_tables (Code : Z) (Record : list Z)
    (R : BitcodeReader) :
  sameTables R (snd (ParseValueSymbolTable_record Code Record R)).
Proof.
  revert R. unfold ParseValueSymbolTable_record.
  destruct (bitc.ValueSymtabCodes_of Code) as [[] |];
    [| | intros; apply sameTables_refl].
  - destruct (ConvertToString Record 1 []) as [ValueName |];
      [| intros; apply sameTables_refl].
    apply tables_bind; [unfold at_, deref; tables |]. intros R0.
    apply tables_bind; [tables |]. intros sz.
    destruct (sz <=? uint32 R0); [tables |].
    apply tables_bind; [unfold at_, deref; tables |]. intros V R.
    apply Value_setName_tables.
  - destruct (ConvertToString Record 1 []) as [ValueName |];
      [| intros; apply sameTables_refl].
    apply tables_bind; [unfold at_, deref; tables |]. intros R0.
    apply tables_bind;
      [unfold orError, getBasicBlock, at_, deref; cbv zeta; tables |].
    intros BB R. apply Value_setName_tables.
Qed.

(** X21: A value symbol table only gives names: whatever the block holds and
    whatever the outcome of the parse, the value table, the type table and
    the metadata table are left as they were. *)
Theorem ParseValueSymbolTable_tables (B : Block) (R : BitcodeReader) :
  let R' := snd (ParseValueSymbolTable B R) in
  ValueList R' = ValueList R /\ TypeList R' = TypeList R /\
  MDValueList R' = MDValueList R.
Proof.
  change (sameTables R (snd (ParseValueSymbolTable B R))).
  unfold ParseValueSymbolTable.
  destruct (B_enterFails B); [apply sameTables_refl |].
  generalize (B_entries B) as es. intros es. revert R.
  induction es as [| e es IH]; intros R.
  - cbn. destruct (B_endFails B); apply sameTables_refl.
  - destruct e as [Code Record | ID B' |]; cbn [ParseValueSymbolTable_loop].
    + apply tables_bind; [apply ParseValueSymbolTable_record_tables |].
      intros _. exact IH.
    + destruct (B_skipFails B'); [apply sameTables_refl | apply IH].
    + apply IH.
Qed.

(** X22: A VST_ENTRY record names the value of the slot it gives: a record with
    no value id, or with an id past the end of the value table, is rejected
    with InvalidRecord and changes nothing; for a global value of the table
    the name becomes the characters of the record after the id. *)
Theorem VST_ENTRY_names (Code : Z) (Record : list Z) (R : BitcodeReader) :
  bitc.ValueSymtabCodes_of Code = Some bitc.VST_CODE_ENTRY ->
  (Record = [] ->
   ParseValueSymbolTable_record Code Record R = (Err InvalidRecord, R)) /\
  (forall ID Name,
Record = ID :: Name ->
     (size (ValueList R) <= uint32 ID ->
      ParseValueSymbolTable_record Code Record R = (Err InvalidRecord, R)) /\
     (forall id T G,
        elt (ValueList R) (uint32 ID) = Some (Some (Function id T)) ->
        Globals R !! id = Some (Some G) ->
        ParseValueSymbolTable_record Code Record R
          = (Ok tt,
             set_Globals
               (<[id := Some (set_G_name (map (fun c => c mod 256) Name) G)]>
                  (Globals R)) R))).
Proof.
  intros HC. unfold ParseValueSymbolTable_record. rewrite HC. split.
  - intros ->. reflexivity.
  - intros ID Name ->.
    assert (HS : ConvertToString (ID :: Name) 1 []
                 = Some (map (fun c => c mod 256) Name)).
    { unfold ConvertToString. pose proof (size_nonneg Name).
      destruct (Z.ltb_spec (size (ID :: Name)) 1) as [Hlt |]; [| reflexivity].
      unfold size in *. cbn [length] in Hlt. lia. }
    rewrite HS.
    assert (H0 : forall R0, at_ (ID :: Name) 0 R0 = (Ok ID, R0)).
    { intros R0. apply at_elt_ok. unfold elt.
      pose proof (size_nonneg Name).
      destruct (Z.ltb_spec 0 (size (ID :: Name))) as [| Hge]; [reflexivity |].
      unfold size in *. cbn [length] in Hge. lia. }
    split.
    + intros Hge. unfold bind at 1. rewrite H0. unfold bind at 1, get.
      destruct (Z.leb_spec (size (ValueList R)) (uint32 ID)); [reflexivity | lia].
    + intros id T G He HG.
      unfold bind at 1. rewrite H0. unfold bind at 1, get.
      destruct (Z.leb_spec (size (ValueList R)) (uint32 ID)) as [Hge |].
      { rewrite elt_out in He by exact Hge. discriminate. }
      unfold bind, get. rewrite (at_elt_ok _ _ _ _ He).
      cbn. unfold updGlobal, getGlobal, bind, get, deref, modify, ret.
      rewrite HG. reflexivity.
Qed.

Lemma VST_ENTRY_names_witness :
  ParseValueSymbolTable_record 1 [] sampleReader
    = (Err InvalidRecord, sampleReader) /\
  ParseValueSymbolTable_record 1 [9; 102] sampleReader
    = (Err InvalidRecord, sampleReader) /\
  ParseValueSymbolTable_record 1 [0; 102] sampleReader
    = (Ok tt,
       set_Globals
         (<[0%nat := Some (set_G_name (map (fun c => c mod 256) [102])
                             sampleFunction)]> (Globals sampleReader))
         sampleReader).
Proof.
  split; [| split].
  - apply (proj1 (VST_ENTRY_names 1 [] sampleReader eq_refl)). reflexivity.
  - apply (proj1 (proj2 (VST_ENTRY_names 1 [9; 102] sampleReader eq_refl)
                    9 [102] eq_refl)).
    vm_compute. discriminate.
  - apply (proj2 (proj2 (VST_ENTRY_names 1 [0; 102] sampleReader eq_refl)
                    0 [102] eq_refl)
             0%nat (PointerTy (FunctionTy VoidTy [IntegerTy 32] false) 0)
             sampleFunction); reflexivity.
Defined.

(** ** The legacy type symbol table *)

Lemma ConvertToString_1 (ID : Z) (Name : list Z) :
  ConvertToString (ID :: Name) 1 [] = Some (map (fun c => c mod 256) Name).
Proof.
  unfold ConvertToString. pose proof (size_nonneg Name).
  destruct (Z.ltb_spec (size (ID :: Name)) 1) as [Hlt |]; [| reflexivity].
  unfold size in *. cbn [length] in Hlt. lia.
Qed.

Lemma at_head (ID : Z) (Name : list Z) (R : BitcodeReader) :
  at_ (ID :: Name) 0 R = (Ok ID, R).
Proof.
  apply at_elt_ok. unfold elt. pose proof (size_nonneg Name).
  destruct (Z.ltb_spec 0 (size (ID :: Name))) as [| Hge]; [reflexivity |].
  unfold size in *. cbn [length] in Hge. lia.
Qed.

(** What a TST_ENTRY record does to an identified struct type of the
    table. *)
Lemma TST_ENTRY_struct (Code ID : Z) (Name : list Z) (R : BitcodeReader)
    (n : nat) (si : StructInfo) :
  bitc.TypeSymtabCodes_of Code = Some bitc.TST_CODE_ENTRY ->
  elt (TypeList R) (uint32 ID) = Some (Some (IdentifiedStructTy n)) ->
  StructTypes R !! n = Some si ->
  ParseOldTypeSymbolTable_record Code (ID :: Name) R
    = (Ok tt,
       match StructName si with
       | [] => set_StructTypes
                 (<[n := mkStructInfo (map (fun c => c mod 256) Name)
                           (StructBody si)]> (StructTypes R)) R
       | _ => R
       end).
Proof.
  intros HC He Hsi. unfold ParseOldTypeSymbolTable_record.
  rewrite HC, ConvertToString_1.
  unfold bind at 1. rewrite at_head. unfold bind at 1, get.
  destruct (Z.leb_spec (size (TypeList R)) (uint32 ID)) as [Hge |].
  { rewrite elt_out in He by exact Hge. discriminate. }
  unfold bind at 1. unfold bind at 1. unfold bind at 1, get.
  rewrite (at_elt_ok _ _ _ _ He). cbn [deref]. unfold ret at 1.
  unfold bind at 1. unfold bind at 1, get. rewrite Hsi. cbn [deref].
  unfold ret at 1.
  destruct (StructName si) eqn:Hn; [| reflexivity].
  unfold StructType_setName, bind, get, deref, modify, ret. rewrite Hsi.
  reflexivity.
Qed.

(** X23: The first name of a type stays: a TST_ENTRY record names an identified
    struct type of the type table that has no name yet, and leaves one that
    has a name as it is; so of two entries for the same type the first with
    a name that is not empty decides.  An entry for a type that is not a
    struct is ignored, and one for a type id past the end of the table is
    rejected with InvalidRecord. *)
Theorem TST_ENTRY_first_name (Code ID : Z) (Name1 Name2 : list Z)
    (es : list Entry) (endFails : bool) (R : BitcodeReader) :
  bitc.TypeSymtabCodes_of Code = Some bitc.TST_CODE_ENTRY ->
  (forall n si,
     elt (TypeList R) (uint32 ID) = Some (Some (IdentifiedStructTy n)) ->
     StructTypes R !! n = Some si ->
     StructName si = [] ->
     Name1 <> [] ->
     ParseOldTypeSymbolTable_loop
       (ERecord Code (ID :: Name1) :: ERecord Code (ID :: Name2) :: es)
       endFails R
     = ParseOldTypeSymbolTable_loop es endFails
         (set_StructTypes
            (<[n := mkStructInfo (map (fun c => c mod 256) Name1)
                      (StructBody si)]> (StructTypes R)) R)) /\
  (forall T,
     elt (TypeList R) (uint32 ID) = Some (Some T) ->
     (forall n, T <> IdentifiedStructTy n) ->
     ParseOldTypeSymbolTable_record Code (ID :: Name1) R = (Ok tt, R)) /\
  (size (TypeList R) <= uint32 ID ->
   ParseOldTypeSymbolTable_record Code (ID :: Name1) R
     = (Err InvalidRecord, R)).
Proof.
  intros HC. split; [| split].
  - intros n si He Hsi Hn HN1.
    cbn [ParseOldTypeSymbolTable_loop]. unfold bind at 1.
    rewrite (TST_ENTRY_struct _ _ _ _ _ _ HC He Hsi). rewrite Hn.
    unfold bind at 1.
    erewrite TST_ENTRY_struct;
      [| exact HC | cbn [TypeList set_StructTypes]; exact He
       | cbn [StructTypes set_StructTypes]; apply list_lookup_insert_eq;
         apply (lookup_lt_Some _ _ _ Hsi) ].
    cbn [StructName]. destruct Name1; [contradiction | reflexivity].
  - intros T He HT. unfold ParseOldTypeSymbolTable_record.
    rewrite HC, ConvertToString_1.
    unfold bind at 1. rewrite at_head. unfold bind at 1, get.
    destruct (Z.leb_spec (size (TypeList R)) (uint32 ID)) as [Hge |].
    { rewrite elt_out in He by exact Hge. discriminate. }
    unfold bind, get. rewrite (at_elt_ok _ _ _ _ He). cbn [deref].
    destruct T; try reflexivity. exfalso. eapply HT. reflexivity.
  - intros Hge. unfold ParseOldTypeSymbolTable_record.
    rewrite HC, ConvertToString_1.
    unfold bind at 1. rewrite at_head. unfold bind at 1, get.
    destruct (Z.leb_spec (size (TypeList R)) (uint32 ID)); [reflexivity | lia].
Qed.

Lemma TST_ENTRY_first_name_witness :
  let R := set_TypeList [Some (IdentifiedStructTy 0)]
             (set_StructTypes [mkStructInfo [] None] newReader) in
  ParseOldTypeSymbolTable_loop
    [ERecord 1 [0; 97]; ERecord 1 [0; 98]] false R
  = ParseOldTypeSymbolTable_loop [] false
      (set_StructTypes
         (<[0%nat := mkStructInfo (map (fun c => c mod 256) [97]) None]>
            (StructTypes R)) R).
Proof.
  apply (proj1 (TST_ENTRY_first_name 1 0 [97] [98] [] false
                  (set_TypeList [Some (IdentifiedStructTy 0)]
                     (set_StructTypes [mkStructInfo [] None] newReader))
                  eq_refl)
           0%nat (mkStructInfo [] None));
    try reflexivity.
  discriminate.
Defined.

(** ** Metadata kinds *)

Lemma METADATA_KIND_conflict (Code Kind : Z) (Name : list Z) (n : Z)
    (R : BitcodeReader) :
  bitc.MetadataCodes_of Code = Some bitc.METADATA_KIND ->
  Name <> [] ->
  is_Some (MDKindMap R !! uint32 Kind) ->
  fst (ParseMetadata_record Code (Kind :: Name) None n R)
    = Err ConflictingMETADATA_KINDRecords.
Proof.
  intros HC HN (old & Hold). unfold ParseMetadata_record. rewrite HC.
  destruct (Z.ltb_spec (size (Kind :: Name)) 2) as [Hlt |].
  { destruct Name; [contradiction |]. unfold size in Hlt.
    cbn [length] in Hlt. lia. }
  unfold bind at 1. rewrite at_head. unfold bind at 1.
  unfold getMDKindID, bind, get, modify, ret.
  destruct (indexOf _ _ 0); cbn [MDKindMap set_MDKindNames];
    rewrite Hold; reflexivity.
Qed.

(** X24: A metadata kind number is bound once: a METADATA_KIND record for a
    number that a record has bound already is rejected with
    ConflictingMETADATA_KINDRecords, the same name included; a record of
    fewer than two elements is rejected with InvalidRecord. *)
Theorem METADATA_KIND_once (Code Kind : Z) (Name1 Name2 : list Z)
    (n m : Z) (R R1 : BitcodeReader) :
  bitc.MetadataCodes_of Code = Some bitc.METADATA_KIND ->
  (ParseMetadata_record Code (Kind :: Name1) None n R = (Ok m, R1) ->
   Name2 <> [] ->
   m = n /\
   is_Some (MDKindMap R1 !! uint32 Kind) /\
   fst (ParseMetadata_record Code (Kind :: Name2) None m R1)
     = Err ConflictingMETADATA_KINDRecords) /\
  ParseMetadata_record Code [Kind] None n R = (Err InvalidRecord, R) /\
  ParseMetadata_record Code [] None n R = (Err InvalidRecord, R).
Proof.
  intros HC.
  split; [| unfold ParseMetadata_record; rewrite HC; split; reflexivity].
  intros HP HN2.
  assert (Hs : m = n /\ is_Some (MDKindMap R1 !! uint32 Kind)).
  { unfold ParseMetadata_record in HP. rewrite HC in HP.
    destruct (Z.ltb_spec (size (Kind :: Name1)) 2); [discriminate |].
    apply bind_Ok in HP as (R0' & R2 & H0 & HP).
    rewrite at_head in H0. injection H0 as <- <-.
    apply bind_Ok in HP as (NewKind & R3 & HK & HP).
    apply bind_Ok in HP as (old & R4 & Hold & HP).
    injection Hold as <- <-.
    destruct (MDKindMap R3 !! uint32 Kind) eqn:Hm; [discriminate |].
    apply bind_Ok in HP as (u & R5 & Hmod & HP).
    injection Hmod as _ <-. injection HP as <- <-.
    split; [reflexivity |].
    cbn [MDKindMap set_MDKindMap]. rewrite lookup_insert_eq. eauto. }
  destruct Hs as (-> & Hs). split; [reflexivity |]. split; [exact Hs |].
  apply METADATA_KIND_conflict; assumption.
Qed.

Lemma METADATA_KIND_once_witness :
  exists R1,
    ParseMetadata_record 6 [3; 100] None 0 newReader = (Ok 0, R1) /\
    fst (ParseMetadata_record 6 [3; 100] None 0 R1)
      = Err ConflictingMETADATA_KINDRecords.
Proof.
  eexists. split; [vm_compute; reflexivity |].
  destruct (proj1 (METADATA_KIND_once 6 3 [100] [100] 0 0 newReader _ eq_refl)
              eq_refl) as (_ & _ & H3).
  - discriminate.
  - exact H3.
Defined.

(** ** Function bodies: declared blocks *)

(** X25: DECLAREBLOCKS [n] creates [n] empty blocks in the function, makes them
    the block list of the body and the first of them the current block; the
    number of the current block and the next value number are not touched.
    A record with no element, or announcing no block, is rejected with
    InvalidRecord and changes nothing. *)
Theorem DECLAREBLOCKS_creates (H : Host) (F : nat) (Code : Z)
    (Record : list Z) (L : FnLocals) (R : BitcodeReader) :
  bitc.FunctionCodes_of Code = Some bitc.FUNC_CODE_DECLAREBLOCKS ->
  (Record = [] \/ (exists rest, Record = 0 :: rest) ->
   ParseFunctionBody_record H F Code Record L R = (Err InvalidRecord, R)) /\
  (forall n rest G,
Record = n :: rest ->
     0 < n < 2 ^ 32 ->
     Globals R !! F = Some (Some G) ->
     let ids := seq (length (Blocks R)) (Z.to_nat n) in
     exists R',
       ParseFunctionBody_record H F Code Record L R
         = (Ok (inl (mkFnLocals (NextValueNo L) (Some (length (Blocks R)))
                       (CurBBNo L) (LastLoc L))), R') /\
       FunctionBBs R' = map Some ids /\
       Blocks R'
         = Blocks R ++ replicate (Z.to_nat n) (mkBasicBlockObj F [] []) /\
       Globals R' = <[F := Some (set_G_blocks (G_blocks G ++ ids) G)]>
                      (Globals R) /\
       ValueList R' = ValueList R).
Proof.
  intros HC. unfold ParseFunctionBody_record. rewrite HC. cbv zeta. split.
  - intros [-> | (rest & ->)]; [reflexivity |].
    pose proof (size_nonneg rest).
    destruct (Z.ltb_spec (size (0 :: rest)) 1) as [Hlt |].
    + unfold size in *. cbn [length] in Hlt. lia.
    + unfold bind. rewrite at_head. reflexivity.
  - intros n rest G -> Hn HG.
    set (ids := seq (length (Blocks R)) (Z.to_nat n)).
    pose proof (size_nonneg rest).
    destruct (Z.ltb_spec (size (n :: rest)) 1) as [Hlt |].
    { unfold size in *. cbn [length] in Hlt. lia. }
    unfold bind at 1. rewrite at_head.
    destruct (Z.eqb_spec n 0); [lia |].
    assert (Hu : uint32 n = n) by (unfold uint32; apply Z.mod_small; lia).
    rewrite Hu.
    unfold createBasicBlocks, updGlobal, getGlobal.
    unfold bind, get, modify, deref, ret.
    cbn [Globals set_Blocks Blocks]. rewrite HG.
    cbn [FunctionBBs set_FunctionBBs set_Globals set_Blocks].
    fold ids.
    assert (Hres : resize (Z.to_nat n) None (map Some ids) = map Some ids).
    { apply resize_all_alt. rewrite length_map. unfold ids.
      rewrite length_seq. reflexivity. }
    rewrite Hres.
    assert (Hfirst : elt (map Some ids) 0 = Some (Some (length (Blocks R)))).
    { rewrite elt_lookup.
      - unfold ids. destruct (Z.to_nat n) eqn:Hz; [lia |]. reflexivity.
      - unfold size. rewrite length_map. unfold ids. rewrite length_seq. lia. }
    rewrite (at_elt_ok _ _ _ _ Hfirst).
    eexists. split; [reflexivity |].
    cbn [FunctionBBs Blocks Globals ValueList set_FunctionBBs set_Globals
           set_Blocks].
    auto.
Qed.

Lemma DECLAREBLOCKS_creates_witness :
  ParseFunctionBody_record sampleHost 0 1 [0] sampleLocals sampleReader
    = (Err InvalidRecord, sampleReader) /\
  exists R',
    ParseFunctionBody_record sampleHost 0 1 [2] sampleLocals sampleReader
      = (Ok (inl (mkFnLocals (NextValueNo sampleLocals)
                    (Some (length (Blocks sampleReader)))
                    (CurBBNo sampleLocals) (LastLoc sampleLocals))), R') /\
    FunctionBBs R' = map Some (seq (length (Blocks sampleReader)) (Z.to_nat 2)).
Proof.
  split.
  - apply (proj1 (DECLAREBLOCKS_creates sampleHost 0 1 [0] sampleLocals
                    sampleReader eq_refl)).
    right. exists []. reflexivity.
  - destruct (proj2 (DECLAREBLOCKS_creates sampleHost 0 1 [2] sampleLocals
                       sampleReader eq_refl)
                2 [] sampleFunction eq_refl ltac:(lia) eq_refl)
      as (R' & H1 & H2 & _).
    exists R'. auto.
Defined.

(** ** Module records: functions *)

Lemma elt_cons_0 {A} (a : A) (l : list A) : elt (a :: l) 0 = Some a.
Proof.
  unfold elt. pose proof (size_nonneg l).
  destruct (Z.ltb_spec 0 (size (a :: l))) as [| Hge]; [reflexivity |].
  unfold size in *. cbn [length] in Hge. lia.
Qed.

Lemma elt_cons_pos {A} (a : A) (l : list A) (i : Z) :
  0 < i -> elt (a :: l) i = elt l (i - 1).
Proof.
  intros Hi. unfold elt.
  assert (Hs : size (a :: l) = size l + 1)
    by (unfold size; cbn [length]; lia).
  rewrite Hs.
  destruct (Z.leb_spec 0 i), (Z.leb_spec 0 (i - 1)); try lia.
  destruct (Z.ltb_spec i (size l + 1)), (Z.ltb_spec (i - 1) (size l));
    try lia; cbn [andb]; [| reflexivity].
  replace (Z.to_nat i) with (S (Z.to_nat (i - 1))) by lia. reflexivity.
Qed.

(** The elements of a record given by its first elements. *)
Ltac elt_record :=
  repeat first
    [ apply elt_cons_0
    | rewrite elt_cons_pos by lia; cbn [Z.sub Z.add Z.opp Z.pos_sub Pos.pred_double] ].

Lemma getAttributes_pure (i : Z) (R : BitcodeReader) :
  exists PAL, getAttributes i R = (Ok PAL, R).
Proof.
  unfold getAttributes. cbv zeta. unfold bind, get.
  destruct (Z.ltb_spec (uint32 (uint32 i - 1)) (size (MAttributes R)))
    as [Hlt |]; [| eexists; reflexivity].
  destruct (elt_is_Some (MAttributes R) (uint32 (uint32 i - 1))) as [x Hx].
  { pose proof (uint32_bounds (uint32 i - 1)). lia. }
  exists x. apply at_elt_ok. exact Hx.
Qed.

(** The global object [id] is in the store. *)
Lemma updGlobal_step (id : nat) (f : GlobalObj -> GlobalObj)
    (R : BitcodeReader) (G : GlobalObj) :
  Globals R !! id = Some (Some G) ->
  updGlobal id f R
    = (Ok tt, set_Globals (<[id := Some (f G)]> (Globals R)) R) /\
  Globals (set_Globals (<[id := Some (f G)]> (Globals R)) R) !! id
    = Some (Some (f G)).
Proof.
  intros HG. split.
  - unfold updGlobal, getGlobal, bind, get, deref, modify, ret.
    rewrite HG. reflexivity.
  - cbn [Globals set_Globals]. apply list_lookup_insert_eq.
    apply (lookup_lt_Some _ _ _ HG).
Qed.

Ltac run_at :=
  erewrite bind_eq_Ok by (apply at_elt_ok; elt_record); cbv beta.

Ltac run_upd HG :=
  match goal with
  | |- context [bind (updGlobal ?id ?f) _ ?R] =>
      let HG' := fresh "HG" in
      let Hstep := fresh "Hstep" in
      let Rn := fresh "Rn" in
      let Gn := fresh "Gn" in
      destruct (updGlobal_step id f R _ HG) as (Hstep & HG');
      rewrite (bind_eq_Ok _ _ _ _ _ Hstep); clear Hstep HG;
      rename HG' into HG; cbv beta;
      set (Rn := set_Globals _ R) in *; clearbody Rn;
      set (Gn := f _) in HG; clearbody Gn
  end.

Ltac run_attrs :=
  match goal with
  | |- context [bind (getAttributes ?i) _ ?R] =>
      let PAL := fresh "PAL" in
      let HPAL := fresh "HPAL" in
      destruct (getAttributes_pure i R) as (PAL & HPAL);
      rewrite (bind_eq_Ok _ _ _ _ _ HPAL); clear HPAL; cbv beta
  end.

(** X26: The section and the collector of a MODULE_CODE_FUNCTION record are
    numbers, from 1, into the tables of section names and of collector names
    read so far.  A section number past the table is rejected with
    InvalidID.  The check of the collector number is off by one: the number
    one past the table passes it, and the name is then read past the end
    of the table, which is undefined; only from two past the table on is the
    record rejected with InvalidID. *)
Theorem MODULE_CODE_FUNCTION_gc (Code : Z)
    (r0 r1 r2 r3 r4 r5 r6 r7 r8 : Z) (rest : list Z) (L : ModuleLocals)
    (R R1 : BitcodeReader) (Ret : Ty) (Params : list Ty) (VarArg : bool)
    (AS A : Z) :
  bitc.ModuleCodes_of Code = Some bitc.MODULE_CODE_FUNCTION ->
  getTypeByID r0 R
    = (Ok (Some (PointerTy (FunctionTy Ret Params VarArg) AS)), R1) ->
  decodeAlignment r5 = Ok A ->
  size (SectionTable L) < 2 ^ 64 - 1 ->
  size (GCTable L) < 2 ^ 64 - 2 ->
  let Record := r0 :: r1 :: r2 :: r3 :: r4 :: r5 :: r6 :: r7 :: r8 :: rest in
  (r6 = size (SectionTable L) + 1 ->
   fst (ParseModule_record Code Record L R) = Err InvalidID) /\
  (r6 = 0 -> r8 = size (GCTable L) + 1 ->
   fst (ParseModule_record Code Record L R) = Undef) /\
  (r6 = 0 -> r8 = size (GCTable L) + 2 ->
   fst (ParseModule_record Code Record L R) = Err InvalidID).
Proof.
  intros HC HT HA HmS HmG Record.
  pose proof (size_nonneg (SectionTable L)) as HsS.
  pose proof (size_nonneg (GCTable L)) as HsG.
  assert (Hsz : (size Record <? 8) = false).
  { pose proof (size_nonneg rest). apply Z.ltb_ge.
    unfold Record, size in *. cbn [length]. lia. }
  assert (H8 : Record !! 8%nat = Some r8) by reflexivity.
  subst Record.
  assert (Hu : forall x, 0 <= x < 2 ^ 64 -> uint64 x = x).
  { intros x Hx. unfold uint64. apply Z.mod_small. exact Hx. }
  unfold ParseModule_record. rewrite HC, Hsz.
  run_at.
  erewrite bind_eq_Ok by (apply orError_Some; exact HT). cbv beta iota.
  erewrite bind_eq_Ok by reflexivity. cbv beta.
  match goal with
  | |- context [set_Globals (Globals R1 ++ [Some ?G0]) R1] =>
      assert (HG : Globals (set_Globals (Globals R1 ++ [Some G0]) R1)
                     !! length (Globals R1) = Some (Some G0))
        by (cbn [Globals set_Globals]; apply list_lookup_middle; reflexivity);
      set (G0' := G0) in *; clearbody G0';
      set (R2 := set_Globals (Globals R1 ++ [Some G0']) R1) in *;
      clearbody R2
  end.
  run_at. run_upd HG.
  run_at.
  run_at. run_upd HG.
  run_at. run_attrs. run_upd HG.
  run_at.
  erewrite bind_eq_Ok by (unfold lift; rewrite HA; reflexivity). cbv beta.
  run_upd HG.
  run_at.
  assert (Hnz : forall x, 0 < x -> nonzero x = true).
  { intros x Hx. unfold nonzero. destruct (Z.eqb_spec x 0); [lia | reflexivity]. }
  split; [| split].
  - intros ->. rewrite Hnz by lia. rewrite Hu by lia.
    replace (size (SectionTable L) + 1 - 1) with (size (SectionTable L)) by lia.
    rewrite Z.leb_refl. reflexivity.
  - intros -> ->. change (nonzero 0) with false. cbv iota.
    erewrite bind_eq_Ok by reflexivity. cbv beta.
    run_at. run_upd HG.
    rewrite H8. rewrite Hnz by lia. rewrite Hu by lia.
    replace (size (GCTable L) + 1 - 1) with (size (GCTable L)) by lia.
    rewrite Z.ltb_irrefl.
    unfold bind at 1. unfold bind at 1. unfold at_.
    rewrite elt_out by lia. reflexivity.
  - intros -> ->. change (nonzero 0) with false. cbv iota.
    erewrite bind_eq_Ok by reflexivity. cbv beta.
    run_at. run_upd HG.
    rewrite H8. rewrite Hnz by lia. rewrite Hu by lia.
    replace (size (GCTable L) + 2 - 1) with (size (GCTable L) + 1) by lia.
    destruct (Z.ltb_spec (size (GCTable L)) (size (GCTable L) + 1)); [| lia].
    reflexivity.
Qed.

Lemma MODULE_CODE_FUNCTION_gc_witness :
  let R := set_TypeList [Some (PointerTy (FunctionTy VoidTy [Int32Ty] false) 0)]
             newReader in
  fst (ParseModule_record 8 [0; 0; 1; 0; 0; 0; 0; 0; 1]
         (mkModuleLocals [] []) R) = Undef /\
  fst (ParseModule_record 8 [0; 0; 1; 0; 0; 0; 1; 0; 0]
         (mkModuleLocals [] []) R) = Err InvalidID /\
  fst (ParseModule_record 8 [0; 0; 1; 0; 0; 0; 0; 0; 2]
         (mkModuleLocals [] []) R) = Err InvalidID.
Proof.
  intros R. split; [| split].
  - apply (proj1 (proj2 (MODULE_CODE_FUNCTION_gc 8 0 0 1 0 0 0 0 0 1 []
                           (mkModuleLocals [] []) R R
                           VoidTy [Int32Ty] false 0 0
                           eq_refl eq_refl eq_refl eq_refl eq_refl)));
      reflexivity.
  - apply (proj1 (MODULE_CODE_FUNCTION_gc 8 0 0 1 0 0 0 1 0 0 []
                    (mkModuleLocals [] []) R R
                    VoidTy [Int32Ty] false 0 0
                    eq_refl eq_refl eq_refl eq_refl eq_refl));
      reflexivity.
  - apply (proj2 (proj2 (MODULE_CODE_FUNCTION_gc 8 0 0 1 0 0 0 0 0 2 []
                           (mkModuleLocals [] []) R R
                           VoidTy [Int32Ty] false 0 0
                           eq_refl eq_refl eq_refl eq_refl eq_refl)));
      reflexivity.
Defined.

(** ** Sign-rotated values, as a map on words *)

(** X27: [decodeSignRotatedValue] loses nothing: two different 64-bit words
    never decode to the same value, and every decoded value is a 64-bit
    word again; the even words give the values below 2^63 and the odd words
    the values from 2^63 on. *)
Theorem decodeSignRotatedValue_injective (v w : Z) :
  0 <= v < 2 ^ 64 ->
  0 <= w < 2 ^ 64 ->
  0 <= decodeSignRotatedValue v < 2 ^ 64 /\
  (decodeSignRotatedValue v < 2 ^ 63 <-> v mod 2 = 0) /\
  (decodeSignRotatedValue v = decodeSignRotatedValue w -> v = w).
Proof.
  intros Hv Hw.
  assert (Hcase : forall u, 0 <= u < 2 ^ 64 ->
            (u mod 2 = 0 /\ decodeSignRotatedValue u = u / 2) \/
            (u mod 2 = 1 /\ u <> 1 /\
             decodeSignRotatedValue u = 2 ^ 64 - u / 2) \/
            (u = 1 /\ decodeSignRotatedValue u = 2 ^ 63)).
  { intros u Hu. unfold decodeSignRotatedValue.
    rewrite land_1_mod2, shiftr_1_div2.
    pose proof (Z.mod_pos_bound u 2 ltac:(lia)) as Hm.
    destruct (Z.eqb_spec (u mod 2) 0) as [H0 | H0]; [left; auto |].
    right. destruct (Z.eqb_spec u 1) as [-> | H1]; [right; auto |].
    left. split; [lia |]. split; [exact H1 |].
    cbn [negb]. apply uint64_neg.
    pose proof (Z.div_mod u 2 ltac:(lia)). lia. }
  pose proof (Z.div_mod v 2 ltac:(lia)) as Hdv.
  pose proof (Z.div_mod w 2 ltac:(lia)) as Hdw.
  destruct (Hcase v Hv) as [(Hv0 & ->) | [(Hv1 & Hvn & ->) | (-> & ->)]].
  - split; [lia |]. split; [split; intros; [exact Hv0 | lia] |].
    destruct (Hcase w Hw) as [(Hw0 & ->) | [(Hw1 & Hwn & ->) | (-> & ->)]];
      intros; lia.
  - split; [lia |]. split; [split; intros; lia |].
    destruct (Hcase w Hw) as [(Hw0 & ->) | [(Hw1 & Hwn & ->) | (-> & ->)]];
      intros; lia.
  - split; [lia |]. split; [split; intros HH; [lia | discriminate HH] |].
    destruct (Hcase w Hw) as [(Hw0 & ->) | [(Hw1 & Hwn & ->) | (-> & ->)]];
      intros; lia.
Qed.

Lemma decodeSignRotatedValue_injective_witness :
  0 <= decodeSignRotatedValue 7 < 2 ^ 64 /\
  (decodeSignRotatedValue 7 < 2 ^ 63 <-> 7 mod 2 = 0) /\
  (decodeSignRotatedValue 7 = decodeSignRotatedValue 7 -> 7 = 7).
Proof.
  apply (decodeSignRotatedValue_injective 7 7); lia.
Defined.

(** ** The queues of initializers and aliasees *)

Lemma rev_reverse {A} (l : list A) : rev l = reverse l.
Proof. apply rev_alt. Qed.

Lemma liveGlobal_insert (R : BitcodeReader) (id id' : nat) (G G' : GlobalObj) :
  Globals R !! id = Some (Some G) ->
  liveGlobal R id' ->
  liveGlobal (set_Globals (<[id := Some G']> (Globals R)) R) id'.
Proof.
  intros HG (G0 & HG0). unfold liveGlobal. cbn [Globals set_Globals].
  destruct (decide (id' = id)) as [-> | Hne].
  - exists G'. apply list_lookup_insert_eq. apply (lookup_lt_Some _ _ _ HG).
  - exists G0. rewrite list_lookup_insert_ne by congruence. exact HG0.
Qed.

Lemma pending_not_in_table (R : BitcodeReader) (p : nat * Z) (C : option Value) :
  pendingInit R p -> elt (ValueList R) p.2 = Some C -> False.
Proof.
  unfold pendingInit. intros Hp He. rewrite elt_out in He by exact Hp.
  discriminate.
Qed.

(** The first loop: every entry of the work list is pending or a constant
    of the table. *)
Lemma resolveGlobalInits_spec (W : list (nat * Z)) :
  forall R : BitcodeReader,
    Forall (fun p => pendingInit R p \/ constantInit R p) W ->
    exists R',
      resolveGlobalInits W R = (Ok tt, R') /\
      ValueList R' = ValueList R /\
      AliasInits R' = AliasInits R /\
      GlobalInits R' = GlobalInits R ++ filter (pendingInit R) W /\
      (forall id, liveGlobal R id -> liveGlobal R' id) /\
      (forall id,
         (forall ValID, (id, ValID) ∈ W -> pendingInit R (id, ValID)) ->
         Globals R' !! id = Globals R !! id) /\
      (NoDup W.*1 ->
       forall id ValID C G,
         (id, ValID) ∈ W ->
         elt (ValueList R) ValID = Some (Some C) ->
         Globals R !! id = Some (Some G) ->
         Globals R' !! id = Some (Some (set_G_init (Some C) G))).
Proof.
  induction W as [| [GV ValID] W IH]; intros R HF.
  - exists R. cbn [resolveGlobalInits]. rewrite filter_nil, app_nil_r.
    repeat split; try reflexivity; try tauto.
    intros _ id ValID C G Hin. apply elem_of_nil in Hin. contradiction.
  - apply Forall_cons in HF as (Hhd & HF).
    cbn [resolveGlobalInits].
    rewrite (bind_eq_Ok _ _ R R (size (ValueList R))) by reflexivity.
    destruct (Z.leb_spec (size (ValueList R)) ValID) as [Hge | Hlt].
    + (* not ready: queued again *)
      erewrite bind_eq_Ok by reflexivity.
      set (R1 := set_GlobalInits (GlobalInits R ++ [(GV, ValID)]) R).
      destruct (IH R1 HF)
        as (R' & Hrun & HVL & HAI & HGI & Hlive & Hframe & Hval).
      exists R'. split; [exact Hrun |].
      split; [exact HVL |]. split; [exact HAI |].
      split.
      { rewrite HGI. subst R1. cbn [GlobalInits set_GlobalInits].
        rewrite filter_cons_True by exact Hge.
        rewrite <- app_assoc. reflexivity. }
      split; [exact Hlive |].
      split.
      { intros id Hp. apply Hframe. intros V Hin. apply (Hp V).
        apply elem_of_cons. right. exact Hin. }
      intros Hnd id V C G Hin He HG.
      apply NoDup_cons in Hnd as (_ & Hnd).
      apply elem_of_cons in Hin as [Heq | Hin].
      * injection Heq as -> ->. exfalso.
        apply (pending_not_in_table R (GV, ValID) (Some C) Hge He).
      * apply (Hval Hnd id V C G Hin He HG).
    + (* in the table *)
      destruct Hhd as [Hp | (C & He & HC & G & HG)];
        [unfold pendingInit in Hp; cbn [snd] in Hp; lia |].
      cbn [fst snd] in He, HG.
      destruct (updGlobal_step GV (set_G_init (Some C)) R G HG)
        as (Hupd & HG1).
      erewrite bind_eq_Ok.
      2:{ erewrite bind_eq_Ok
            by (erewrite bind_eq_Ok by reflexivity;
                apply at_elt_ok; exact He).
          cbv beta iota. rewrite HC. exact Hupd. }
      set (R1 := set_Globals
                   (<[GV := Some (set_G_init (Some C) G)]> (Globals R)) R)
        in *.
      assert (HF1 : Forall (fun p => pendingInit R1 p \/ constantInit R1 p) W).
      { eapply Forall_impl; [exact HF |].
        intros p [Hp | (C' & He' & HC' & Hl)]; [left; exact Hp |].
        right. exists C'. split; [exact He' |]. split; [exact HC' |].
        apply (liveGlobal_insert R GV p.1 G _ HG Hl). }
      destruct (IH R1 HF1)
        as (R' & Hrun & HVL & HAI & HGI & Hlive & Hframe & Hval).
      exists R'. split; [exact Hrun |].
      split; [exact HVL |]. split; [exact HAI |].
      split.
      { rewrite HGI. subst R1. cbn [GlobalInits set_Globals].
        rewrite filter_cons_False
          by (unfold pendingInit; cbn [snd]; lia).
        reflexivity. }
      split.
      { intros id Hl. apply Hlive.
        apply (liveGlobal_insert R GV id G _ HG Hl). }
      split.
      { intros id Hp.
        assert (Hne : id <> GV).
        { intros ->. specialize (Hp ValID (list_elem_of_here _ _)).
          unfold pendingInit in Hp. cbn [snd] in Hp. lia. }
        rewrite Hframe.
        - subst R1. cbn [Globals set_Globals].
          apply list_lookup_insert_ne. congruence.
        - intros V Hin. apply (Hp V). apply elem_of_cons. right. exact Hin. }
      intros Hnd id V C' G' Hin He' HG'.
      apply NoDup_cons in Hnd as (Hnotin & Hnd).
      apply elem_of_cons in Hin as [Heq | Hin].
      * injection Heq as -> ->.
        rewrite He in He'. injection He' as <-.
        rewrite HG in HG'. injection HG' as <-.
        rewrite Hframe; [exact HG1 |].
        intros V Hin. exfalso. apply Hnotin.
        apply (list_elem_of_fmap_2 fst _ (GV, V)). exact Hin.
      * assert (Hne : id <> GV).
        { intros ->. apply Hnotin.
          apply (list_elem_of_fmap_2 fst _ (GV, V)). exact Hin. }
        apply (Hval Hnd id V C' G' Hin He').
        subst R1. cbn [Globals set_Globals].
        rewrite list_lookup_insert_ne by congruence. exact HG'.
Qed.

(** The second loop: the aliasees that are in the table are collected, the
    entries that are not are queued again. *)
Lemma resolveAliasInits_spec (W : list (nat * Z)) :
  forall (Map : gmap nat Value) (R : BitcodeReader),
    Forall (fun p => pendingInit R p \/ constantInit R p) W ->
    NoDup W.*1 ->
    (forall p, p ∈ W -> Map !! p.1 = None) ->
    exists Map' R',
      resolveAliasInits W Map R = (Ok Map', R') /\
      ValueList R' = ValueList R /\
      Globals R' = Globals R /\
      GlobalInits R' = GlobalInits R /\
      AliasInits R' = AliasInits R ++ filter (pendingInit R) W /\
      (forall GA C,
         Map' !! GA = Some C <->
         Map !! GA = Some C \/
         exists ValID, (GA, ValID) ∈ W /\
                       elt (ValueList R) ValID = Some (Some C)).
Proof.
  induction W as [| [GA ValID] W IH]; intros Map R HF Hnd Hfresh.
  - exists Map, R. cbn [resolveAliasInits]. rewrite filter_nil, app_nil_r.
    repeat split; try reflexivity.
    + intros HM. left. exact HM.
    + intros [HM | (V & Hin & _)]; [exact HM |].
      apply elem_of_nil in Hin. contradiction.
  - apply Forall_cons in HF as (Hhd & HF).
    apply NoDup_cons in Hnd as (Hnotin & Hnd).
    cbn [resolveAliasInits].
    rewrite (bind_eq_Ok _ _ R R (size (ValueList R))) by reflexivity.
    destruct (Z.leb_spec (size (ValueList R)) ValID) as [Hge | Hlt].
    + erewrite bind_eq_Ok by reflexivity.
      set (R1 := set_AliasInits (AliasInits R ++ [(GA, ValID)]) R).
      destruct (IH Map R1 HF Hnd)
        as (Map' & R' & Hrun & HVL & HGl & HGI & HAI & HM).
      { intros p Hin. apply Hfresh. apply elem_of_cons. right. exact Hin. }
      exists Map', R'. split; [exact Hrun |].
      split; [exact HVL |]. split; [exact HGl |]. split; [exact HGI |].
      split.
      { rewrite HAI. subst R1. cbn [AliasInits set_AliasInits].
        rewrite filter_cons_True by exact Hge.
        rewrite <- app_assoc. reflexivity. }
      intros GA' C. rewrite HM. subst R1. cbn [ValueList set_AliasInits].
      split.
      * intros [HMap | (V & Hin & He)]; [left; exact HMap |].
        right. exists V. split; [| exact He].
        apply elem_of_cons. right. exact Hin.
      * intros [HMap | (V & Hin & He)]; [left; exact HMap |].
        apply elem_of_cons in Hin as [Heq | Hin].
        -- injection Heq as -> ->. exfalso.
           apply (pending_not_in_table R (GA, ValID) (Some C) Hge He).
        -- right. exists V. split; assumption.
    + destruct Hhd as [Hp | (C & He & HC & _)];
        [unfold pendingInit in Hp; cbn [snd] in Hp; lia |].
      cbn [fst snd] in He.
      pose proof (Hfresh (GA, ValID) (list_elem_of_here _ _)) as HGA.
      cbn [fst] in HGA.
      erewrite bind_eq_Ok.
      2:{ erewrite bind_eq_Ok
            by (erewrite bind_eq_Ok by reflexivity;
                apply at_elt_ok; exact He).
          cbv beta iota. rewrite HC, HGA. reflexivity. }
      destruct (IH (<[GA := C]> Map) R HF Hnd)
        as (Map' & R' & Hrun & HVL & HGl & HGI & HAI & HM).
      { intros p Hin. rewrite lookup_insert_ne.
        - apply Hfresh. apply elem_of_cons. right. exact Hin.
        - intros Heq. apply Hnotin. rewrite Heq.
          apply (list_elem_of_fmap_2 fst _ p). exact Hin. }
      exists Map', R'. split; [exact Hrun |].
      split; [exact HVL |]. split; [exact HGl |]. split; [exact HGI |].
      split.
      { rewrite HAI.
        rewrite filter_cons_False
          by (unfold pendingInit; cbn [snd]; lia).
        reflexivity. }
      intros GA' C'. rewrite HM.
      destruct (decide (GA' = GA)) as [-> | Hne].
      * rewrite lookup_insert_eq. rewrite HGA. split.
        -- intros [HMap | (V & Hin & He')].
           ++ injection HMap as <-. right. exists ValID.
              split; [apply list_elem_of_here | exact He].
           ++ exfalso. apply Hnotin.
              apply (list_elem_of_fmap_2 fst _ (GA, V)). exact Hin.
        -- intros [HMap | (V & Hin & He')]; [discriminate |].
           apply elem_of_cons in Hin as [Heq | Hin].
           ++ injection Heq as ->. rewrite He in He'. injection He' as <-.
              left. reflexivity.
           ++ exfalso. apply Hnotin.
              apply (list_elem_of_fmap_2 fst _ (GA, V)). exact Hin.
      * rewrite lookup_insert_ne by congruence. split.
        -- intros [HMap | (V & Hin & He')]; [left; exact HMap |].
           right. exists V. split; [| exact He'].
           apply elem_of_cons. right. exact Hin.
        -- intros [HMap | (V & Hin & He')]; [left; exact HMap |].
           apply elem_of_cons in Hin as [Heq | Hin]; [congruence |].
           right. exists V. split; assumption.
Qed.

Lemma getGlobalObjectInExpr_direct (fuel : nat) (Map : gmap nat Value)
    (C : Value) :
  isGlobalObject C = true ->
  getGlobalObjectInExpr (S fuel) Map C = Ok (Some C).
Proof. destruct C; try discriminate; reflexivity. Qed.

Lemma getGlobalObjectInExpr_loops (fuel : nat) (Map : gmap nat Value)
    (GA : nat) (T : Ty) :
  Map !! GA = Some (GlobalAlias GA T) ->
  getGlobalObjectInExpr fuel Map (GlobalAlias GA T) = Ok None.
Proof.
  intros HM. induction fuel as [| fuel IH]; [reflexivity |].
  cbn [getGlobalObjectInExpr]. rewrite HM. exact IH.
Qed.

(** The last loop, when every aliasee is a global variable or a function. *)
Lemma setAliasees_spec (fuel : nat) (Map : gmap nat Value)
    (Pairs : list (nat * Value)) :
  forall R : BitcodeReader,
    NoDup Pairs.*1 ->
    Forall (fun q => isGlobalObject q.2 = true /\ liveGlobal R q.1) Pairs ->
    exists R',
      setAliasees (S fuel) Map Pairs R = (Ok (Some tt), R') /\
      ValueList R' = ValueList R /\
      GlobalInits R' = GlobalInits R /\
      AliasInits R' = AliasInits R /\
      (forall id, id ∉ Pairs.*1 -> Globals R' !! id = Globals R !! id) /\
      (forall GA C G,
         (GA, C) ∈ Pairs ->
         Globals R !! GA = Some (Some G) ->
         Globals R' !! GA = Some (Some (set_G_init (Some C) G))).
Proof.
  induction Pairs as [| [GA C] Pairs IH]; intros R Hnd HF.
  - exists R. cbn [setAliasees]. repeat split; try reflexivity.
    intros GA C G Hin. apply elem_of_nil in Hin. contradiction.
  - apply NoDup_cons in Hnd as (Hnotin & Hnd).
    apply Forall_cons in HF as ((HC & G & HG) & HF).
    cbn [fst snd] in HC, HG.
    cbn [setAliasees].
    erewrite bind_eq_Ok
      by (unfold lift; rewrite getGlobalObjectInExpr_direct by exact HC;
          reflexivity).
    destruct (updGlobal_step GA (set_G_init (Some C)) R G HG) as (Hupd & HG1).
    rewrite (bind_eq_Ok _ _ _ _ _ Hupd).
    set (R1 := set_Globals
                 (<[GA := Some (set_G_init (Some C) G)]> (Globals R)) R) in *.
    destruct (IH R1 Hnd) as (R' & Hrun & HVL & HGI & HAI & Hframe & Hval).
    { eapply Forall_impl; [exact HF |].
      intros q (Hq & Hl). split; [exact Hq |].
      apply (liveGlobal_insert R GA q.1 G _ HG Hl). }
    exists R'. split; [exact Hrun |].
    split; [exact HVL |]. split; [exact HGI |]. split; [exact HAI |].
    split.
    + intros id Hid. rewrite fmap_cons, not_elem_of_cons in Hid.
      destruct Hid as (Hne & Hid). cbn [fst] in Hne.
      rewrite (Hframe id Hid). subst R1. cbn [Globals set_Globals].
      apply list_lookup_insert_ne. congruence.
    + intros GA' C' G' Hin HG'.
      apply elem_of_cons in Hin as [Heq | Hin].
      * injection Heq as -> ->. rewrite HG in HG'. injection HG' as <-.
        rewrite (Hframe GA Hnotin). exact HG1.
      * assert (Hne : GA' <> GA).
        { intros ->. apply Hnotin.
          apply (list_elem_of_fmap_2 fst _ (GA, C')). exact Hin. }
        apply (Hval GA' C' G' Hin). subst R1. cbn [Globals set_Globals].
        rewrite list_lookup_insert_ne by congruence. exact HG'.
Qed.

(** The last loop, when one of the aliasees is its own alias. *)
Lemma setAliasees_self (fuel : nat) (Map : gmap nat Value)
    (GA : nat) (T : Ty) (Pairs : list (nat * Value)) :
  Map !! GA = Some (GlobalAlias GA T) ->
  forall R : BitcodeReader,
    (GA, GlobalAlias GA T) ∈ Pairs ->
    Forall (fun q => q = (GA, GlobalAlias GA T) \/
                     (isGlobalObject q.2 = true /\ liveGlobal R q.1)) Pairs ->
    fst (setAliasees fuel Map Pairs R) = Ok None.
Proof.
  intros HM. induction Pairs as [| [GA' C] Pairs IH]; intros R Hin HF.
  - apply elem_of_nil in Hin. contradiction.
  - apply Forall_cons in HF as (Hhd & HF).
    cbn [setAliasees].
    destruct Hhd as [Heq | (HC & G & HG)].
    + injection Heq as -> ->.
      unfold bind, lift. rewrite getGlobalObjectInExpr_loops by exact HM.
      reflexivity.
    + cbn [fst snd] in HC, HG.
      apply elem_of_cons in Hin as [Heq | Hin].
      { injection Heq as <- <-. discriminate. }
      destruct fuel as [| fuel]; [reflexivity |].
      erewrite bind_eq_Ok
        by (unfold lift; rewrite getGlobalObjectInExpr_direct by exact HC;
            reflexivity).
      destruct (updGlobal_step GA' (set_G_init (Some C)) R G HG)
        as (Hupd & HG1).
      rewrite (bind_eq_Ok _ _ _ _ _ Hupd).
      apply IH; [exact Hin |].
      eapply Forall_impl; [exact HF |].
      intros q [Hq | (Hq & Hl)]; [left; exact Hq |].
      right. split; [exact Hq |].
      apply (liveGlobal_insert R GA' q.1 G _ HG Hl).
Qed.

Lemma ResolveGlobalAndAliasInits_unfold (fuel : nat) (R : BitcodeReader) :
  ResolveGlobalAndAliasInits fuel R
  = (resolveGlobalInits (reverse (GlobalInits R)) ;;
     do AliasInit <- resolveAliasInits (reverse (AliasInits R)) ∅;
     setAliasees fuel AliasInit (map_to_list AliasInit))
      (set_AliasInits [] (set_GlobalInits [] R)).
Proof.
  unfold ResolveGlobalAndAliasInits. rewrite <- !rev_reverse. reflexivity.
Qed.

Lemma NoDup_fst_reverse (l : list (nat * Z)) :
  NoDup l.*1 -> NoDup (reverse l).*1.
Proof. intros Hnd. rewrite fmap_reverse, reverse_Permutation. exact Hnd. Qed.

(** X19: [ResolveGlobalAndAliasInits] on any queues in which no global is
    queued twice, every queued initializer is either not in the value table
    yet or a constant of it, and every queued aliasee is either not in the
    table yet or a global variable or a function of it: the call succeeds;
    every initializer and every aliasee that is in the table is installed
    in its global; the entries that are not are queued again, in reverse
    order; the globals with no entry in the table are as they were, and so
    is the value table. *)
Theorem ResolveGlobalAndAliasInits_resolves (fuel : nat) (R : BitcodeReader) :
  Forall (fun p => pendingInit R p \/ constantInit R p) (GlobalInits R) ->
  Forall (fun p => pendingInit R p \/ directAliasee R p) (AliasInits R) ->
  NoDup ((GlobalInits R).*1 ++ (AliasInits R).*1) ->
  exists R',
    ResolveGlobalAndAliasInits (S fuel) R = (Ok (Some tt), R') /\
    ValueList R' = ValueList R /\
    GlobalInits R' = reverse (filter (pendingInit R) (GlobalInits R)) /\
    AliasInits R' = reverse (filter (pendingInit R) (AliasInits R)) /\
    (forall id ValID C G,
       (id, ValID) ∈ GlobalInits R ++ AliasInits R ->
       elt (ValueList R) ValID = Some (Some C) ->
       Globals R !! id = Some (Some G) ->
       Globals R' !! id = Some (Some (set_G_init (Some C) G))) /\
    (forall id,
       (forall ValID, (id, ValID) ∈ GlobalInits R ++ AliasInits R ->
                      pendingInit R (id, ValID)) ->
       Globals R' !! id = Globals R !! id).
Proof.
  intros HFG HFA Hnd.
  apply NoDup_app in Hnd as (HndG & Hdisj & HndA).
  rewrite ResolveGlobalAndAliasInits_unfold.
  set (R0 := set_AliasInits [] (set_GlobalInits [] R)).
  (* the first loop *)
  destruct (resolveGlobalInits_spec (reverse (GlobalInits R)) R0)
    as (R1 & Hrun1 & HVL1 & HAI1 & HGI1 & Hlive1 & Hframe1 & Hval1).
  { apply Forall_reverse. exact HFG. }
  specialize (Hval1 (NoDup_fst_reverse _ HndG)).
  rewrite (bind_eq_Ok _ _ _ _ _ Hrun1).
  (* the second loop *)
  destruct (resolveAliasInits_spec (reverse (AliasInits R)) ∅ R1)
    as (Map & R2 & Hrun2 & HVL2 & HGl2 & HGI2 & HAI2 & HMap).
  { apply Forall_reverse. eapply Forall_impl; [exact HFA |].
    intros p [Hp | (C & He & HC & Hl)].
    - left. unfold pendingInit. rewrite HVL1. exact Hp.
    - right. exists C. rewrite HVL1. split; [exact He |].
      split; [destruct C; try discriminate; reflexivity |].
      apply Hlive1. exact Hl. }
  { apply NoDup_fst_reverse. exact HndA. }
  { intros p _. apply lookup_empty. }
  rewrite (bind_eq_Ok _ _ _ _ _ Hrun2).
  assert (HMap' : forall GA C,
            Map !! GA = Some C <->
            exists ValID, (GA, ValID) ∈ AliasInits R /\
                          elt (ValueList R) ValID = Some (Some C)).
  { intros GA C. rewrite HMap, lookup_empty, HVL1. split.
    - intros [HE | (V & Hin & He)]; [discriminate |].
      exists V. split; [apply elem_of_reverse; exact Hin | exact He].
    - intros (V & Hin & He). right. exists V.
      split; [apply elem_of_reverse; exact Hin | exact He]. }
  clear HMap.
  (* the last loop *)
  destruct (setAliasees_spec fuel Map (map_to_list Map) R2)
    as (R3 & Hrun3 & HVL3 & HGI3 & HAI3 & Hframe3 & Hval3).
  { apply NoDup_fst_map_to_list. }
  { apply Forall_forall. intros [GA C] Hin.
    apply elem_of_map_to_list in Hin. apply HMap' in Hin as (V & Hin & He).
    rewrite Forall_forall in HFA.
    destruct (HFA _ Hin) as [Hp | (C' & He' & HC' & Hl)].
    - exfalso. apply (pending_not_in_table R (GA, V) (Some C) Hp He).
    - cbn [fst snd] in *. rewrite He in He'. injection He' as <-.
      split; [exact HC' |].
      destruct (Hlive1 GA Hl) as (G1 & HG1). exists G1.
      rewrite HGl2. exact HG1. }
  exists R3. split; [exact Hrun3 |].
  split; [rewrite HVL3, HVL2, HVL1; reflexivity |].
  split.
  { rewrite HGI3, HGI2, HGI1. subst R0.
    cbn [GlobalInits set_AliasInits set_GlobalInits app].
    apply filter_reverse. }
  split.
  { rewrite HAI3, HAI2, HAI1. subst R0.
    cbn [AliasInits set_AliasInits set_GlobalInits app].
    rewrite <- filter_reverse. apply list_filter_iff. intros p.
    unfold pendingInit. rewrite HVL1. reflexivity. }
  assert (Hkeys : forall GA, GA ∈ (map_to_list Map).*1 ->
            exists V C, (GA, V) ∈ AliasInits R /\
                        elt (ValueList R) V = Some (Some C)).
  { intros GA Hin. apply list_elem_of_fmap in Hin as ([GA' C] & -> & Hin).
    apply elem_of_map_to_list in Hin. apply HMap' in Hin as (V & Hin & He).
    eauto. }
  split.
  - intros id V C G Hin He HG.
    apply elem_of_app in Hin as [Hin | Hin].
    + (* a global variable *)
      rewrite Hframe3.
      * rewrite HGl2. apply (Hval1 id V C G).
        -- apply elem_of_reverse. exact Hin.
        -- exact He.
        -- exact HG.
      * intros Hk. apply Hkeys in Hk as (V' & C' & Hin' & _).
        apply (Hdisj id).
        -- apply (list_elem_of_fmap_2 fst _ (id, V)). exact Hin.
        -- apply (list_elem_of_fmap_2 fst _ (id, V')). exact Hin'.
    + (* an alias *)
      apply (Hval3 id C G).
      * apply elem_of_map_to_list. apply HMap'. eauto.
      * rewrite HGl2, Hframe1; [exact HG |].
        intros V' Hin'. exfalso. rewrite elem_of_reverse in Hin'.
        apply (Hdisj id).
        -- apply (list_elem_of_fmap_2 fst _ (id, V')). exact Hin'.
        -- apply (list_elem_of_fmap_2 fst _ (id, V)). exact Hin.
  - intros id Hp. rewrite Hframe3.
    + rewrite HGl2. apply Hframe1. intros V Hin.
      rewrite elem_of_reverse in Hin.
      apply (Hp V). apply elem_of_app. left. exact Hin.
    + intros Hk. apply Hkeys in Hk as (V & C & Hin & He).
      apply (pending_not_in_table R (id, V) (Some C)); [| exact He].
      apply Hp. apply elem_of_app. right. exact Hin.
Qed.


Lemma ResolveGlobalAndAliasInits_resolves_witness :
  exists R',
    ResolveGlobalAndAliasInits 1 queuesReader = (Ok (Some tt), R') /\
    ValueList R' = ValueList queuesReader /\
    GlobalInits R'
      = reverse (filter (pendingInit queuesReader) (GlobalInits queuesReader)) /\
    AliasInits R'
      = reverse (filter (pendingInit queuesReader) (AliasInits queuesReader)) /\
    (forall id ValID C G,
       (id, ValID) ∈ GlobalInits queuesReader ++ AliasInits queuesReader ->
       elt (ValueList queuesReader) ValID = Some (Some C) ->
       Globals queuesReader !! id = Some (Some G) ->
       Globals R' !! id = Some (Some (set_G_init (Some C) G))) /\
    (forall id,
       (forall ValID,
          (id, ValID) ∈ GlobalInits queuesReader ++ AliasInits queuesReader ->
          pendingInit queuesReader (id, ValID)) ->
       Globals R' !! id = Globals queuesReader !! id).
Proof.
  apply (ResolveGlobalAndAliasInits_resolves 0 queuesReader).
  - apply Forall_cons. split.
    + right. eexists. split; [reflexivity |]. split; [reflexivity |].
      eexists. reflexivity.
    + apply Forall_cons. split; [| apply Forall_nil_2].
      left. unfold pendingInit. vm_compute. discriminate.
  - apply Forall_cons. split; [| apply Forall_nil_2].
    right. eexists. split; [reflexivity |]. split; [reflexivity |].
    eexists. reflexivity.
  - apply (bool_decide_unpack _). vm_compute. exact I.
Defined.

(** X20: An alias of the module whose aliasee is the alias itself is not
    rejected: on any queues in which no alias is queued twice and every
    other entry is pending or can be resolved (an initializer that is a
    constant of the table, an aliasee that is a global variable or a
    function of it), the search for the global object behind the alias
    recurses on the same alias again, and the call does not return,
    whatever the number of steps allowed. *)
Theorem ResolveGlobalAndAliasInits_alias (R : BitcodeReader) (GA : nat)
    (ValID : Z) (T : Ty) :
  Forall (fun p => pendingInit R p \/ constantInit R p) (GlobalInits R) ->
  Forall (fun p => p = (GA, ValID) \/ pendingInit R p \/ directAliasee R p)
    (AliasInits R) ->
  NoDup (AliasInits R).*1 ->
  (GA, ValID) ∈ AliasInits R ->
  liveGlobal R GA ->
  elt (ValueList R) ValID = Some (Some (GlobalAlias GA T)) ->
  forall fuel, fst (ResolveGlobalAndAliasInits fuel R) = Ok None.
Proof.
  intros HFG HFA HndA HinA HlGA HeA fuel.
  rewrite ResolveGlobalAndAliasInits_unfold.
  set (R0 := set_AliasInits [] (set_GlobalInits [] R)).
  destruct (resolveGlobalInits_spec (reverse (GlobalInits R)) R0)
    as (R1 & Hrun1 & HVL1 & HAI1 & HGI1 & Hlive1 & Hframe1 & _).
  { apply Forall_reverse. exact HFG. }
  rewrite (bind_eq_Ok _ _ _ _ _ Hrun1).
  destruct (resolveAliasInits_spec (reverse (AliasInits R)) ∅ R1)
    as (Map & R2 & Hrun2 & HVL2 & HGl2 & HGI2 & HAI2 & HMap).
  { apply Forall_reverse. eapply Forall_impl; [exact HFA |].
    intros p [-> | [Hp | (C & He & HC & Hl)]].
    - right. exists (GlobalAlias GA T). rewrite HVL1.
      split; [exact HeA |]. split; [reflexivity |].
      apply Hlive1. exact HlGA.
    - left. unfold pendingInit. rewrite HVL1. exact Hp.
    - right. exists C. rewrite HVL1. split; [exact He |].
      split; [destruct C; try discriminate; reflexivity |].
      apply Hlive1. exact Hl. }
  { apply NoDup_fst_reverse. exact HndA. }
  { intros p _. apply lookup_empty. }
  rewrite (bind_eq_Ok _ _ _ _ _ Hrun2).
  assert (HMap' : forall GA' C,
            Map !! GA' = Some C <->
            exists V, (GA', V) ∈ AliasInits R /\
                      elt (ValueList R) V = Some (Some C)).
  { intros GA' C. rewrite HMap, lookup_empty, HVL1. split.
    - intros [HE | (V & Hin & He)]; [discriminate |].
      exists V. split; [apply elem_of_reverse; exact Hin | exact He].
    - intros (V & Hin & He). right. exists V.
      split; [apply elem_of_reverse; exact Hin | exact He]. }
  clear HMap.
  assert (Hself : Map !! GA = Some (GlobalAlias GA T)).
  { apply HMap'. eauto. }
  apply (setAliasees_self fuel Map GA T _ Hself).
  - apply elem_of_map_to_list. exact Hself.
  - apply Forall_forall. intros [GA' C] Hin.
    apply elem_of_map_to_list in Hin. apply HMap' in Hin as (V & Hin & He).
    rewrite Forall_forall in HFA.
    destruct (HFA _ Hin) as [Heq | [Hp | (C' & He' & HC' & Hl)]].
    + injection Heq as -> ->. rewrite HeA in He. injection He as <-.
      left. reflexivity.
    + exfalso. apply (pending_not_in_table R (GA', V) (Some C) Hp He).
    + cbn [fst snd] in *. rewrite He in He'. injection He' as <-.
      right. split; [exact HC' |].
      destruct (Hlive1 GA' Hl) as (G1 & HG1). exists G1.
      rewrite HGl2. exact HG1.
Qed.

Lemma ResolveGlobalAndAliasInits_alias_witness :
  fst (ResolveGlobalAndAliasInits 5 (aliasReader 1)) = Ok None.
Proof.
  apply (ResolveGlobalAndAliasInits_alias (aliasReader 1) 1%nat 1
           (PointerTy (FunctionTy VoidTy [Int32Ty] false) 0)).
  - apply Forall_nil_2.
  - apply Forall_cons. split; [| apply Forall_nil_2]. left. reflexivity.
  - apply (bool_decide_unpack _). vm_compute. exact I.
  - apply list_elem_of_here.
  - eexists. reflexivity.
  - reflexivity.
Defined.

(** ** Stream initialisation: the order of the checks *)

Lemma ParseBitcodeInto_resident
    (isBitcode isBitcodeWrapper : list Z -> bool)
    (SkipBitcodeWrapperHeader : list Z -> bool -> option (nat * nat))
    (ParseTopLevelBlocks : list Z -> M unit)
    (Buffer : list Z) (R : BitcodeReader) :
  LazyStreamer R = false ->
  ParseBitcodeInto isBitcode isBitcodeWrapper SkipBitcodeWrapperHeader
    ParseTopLevelBlocks Buffer R
  = match InitStreamFromBuffer isBitcodeWrapper SkipBitcodeWrapperHeader
            Buffer with
    | Ok Stream =>
        if hasSignature Stream then ParseTopLevelBlocks (drop 4 Stream) R
        else (Err InvalidBitcodeSignature, R)
    | Err e => (Err e, R)
    | Undef => (Undef, R)
    end.
Proof.
  intros Hlazy. unfold ParseBitcodeInto, InitStream, bind, get, lift.
  rewrite Hlazy.
  destruct (InitStreamFromBuffer _ _ Buffer) as [Stream | e |];
    try reflexivity.
  destruct (hasSignature Stream); reflexivity.
Qed.

(** A reader on a resident buffer whose size is a multiple of 4 checks the
    wrapper first and the signature next: a wrapper whose header cannot be
    skipped is rejected with InvalidBitcodeWrapperHeader; a buffer with no
    wrapper that does not start with the bytes 'B' 'C' 0xC0 0xDE, the empty
    buffer included, is rejected with InvalidBitcodeSignature; in both
    cases nothing is parsed and the reader is unchanged.  With the signature
    in place the blocks are parsed from the fifth byte on. *)
Theorem ParseBitcodeInto_checks
    (isBitcode isBitcodeWrapper : list Z -> bool)
    (SkipBitcodeWrapperHeader : list Z -> bool -> option (nat * nat))
    (ParseTopLevelBlocks : list Z -> M unit)
    (Buffer : list Z) (R : BitcodeReader) :
  LazyStreamer R = false ->
  size Buffer mod 4 = 0 ->
  let Parse := ParseBitcodeInto isBitcode isBitcodeWrapper
                 SkipBitcodeWrapperHeader ParseTopLevelBlocks in
  (isBitcodeWrapper Buffer = true ->
   SkipBitcodeWrapperHeader Buffer true = None ->
   Parse Buffer R = (Err InvalidBitcodeWrapperHeader, R)) /\
  (isBitcodeWrapper Buffer = false ->
   hasSignature Buffer = false ->
   Parse Buffer R = (Err InvalidBitcodeSignature, R)) /\
  (isBitcodeWrapper Buffer = false ->
   hasSignature Buffer = true ->
   Parse Buffer R = ParseTopLevelBlocks (drop 4 Buffer) R) /\
  (isBitcodeWrapper [] = false ->
   Parse [] R = (Err InvalidBitcodeSignature, R)).
Proof.
  intros Hlazy Hsz Parse. subst Parse.
  rewrite !ParseBitcodeInto_resident by exact Hlazy.
  unfold InitStreamFromBuffer. rewrite land_3_mod4, Hsz.
  change (nonzero 0) with false. cbv iota.
  change (nonzero (Z.land (size []) 3)) with false. cbv iota.
  repeat split.
  - intros HW HS. rewrite HW, HS. reflexivity.
  - intros HW HS. rewrite HW, HS. reflexivity.
  - intros HW HS. rewrite HW, HS. reflexivity.
  - intros HW. rewrite HW. reflexivity.
Qed.

Lemma ParseBitcodeInto_checks_witness :
  ParseBitcodeInto (fun _ => true) (fun _ => false) (fun _ _ => None)
    (fun _ => ret tt) [66; 67; 192; 0] newReader
    = (Err InvalidBitcodeSignature, newReader).
Proof.
  apply (proj1 (proj2 (ParseBitcodeInto_checks (fun _ => true) (fun _ => false)
                         (fun _ _ => None) (fun _ => ret tt)
                         [66; 67; 192; 0] newReader eq_refl eq_refl)));
    reflexivity.
Defined.

(** ** Empty records in a constants block *)

(** X28: An empty record in a constants block, with a current type: NULL gives
    the null value of the type; UNDEF and the codes read as UNDEF give its
    undef value; CE_GEP, CE_INBOUNDS_GEP and CE_SHUFVEC_EX read the first
    element of the record or of the operand list before any check of the
    size, which is undefined; every other code is rejected with
    InvalidRecord.  The reader is not changed. *)
Theorem ParseConstants_empty_record (H : Host) (Code : Z) (T : Ty)
    (R : BitcodeReader) :
  ParseConstants_record H Code [] (Some T) R
    = (match bitc.ConstantsCodes_of Code with
       | Some bitc.CST_CODE_NULL => Ok (inr (NullValue T))
       | Some (bitc.CST_CODE_CE_GEP | bitc.CST_CODE_CE_INBOUNDS_GEP
              | bitc.CST_CODE_CE_SHUFVEC_EX) => Undef
       | Some (bitc.CST_CODE_UNDEF | bitc.CST_CODE_INLINEASM_OLD
              | bitc.CST_CODE_DATA) | None => Ok (inr (UndefValue T))
       | Some _ => Err InvalidRecord
       end, R).
Proof.
  unfold ParseConstants_record.
  destruct (bitc.ConstantsCodes_of Code) as [[] |]; try reflexivity.
  all: cbn; rewrite ?orb_true_r; try reflexivity.
  all: destruct T; reflexivity.
Qed.

(** ** Empty records in a function block *)




(** ** Named structs referenced before their definition *)

Lemma getTypeByID_StructTypes (ID : Z) (R R' : BitcodeReader)
    (T : option Ty) (s : nat) (si : StructInfo) :
  getTypeByID ID R = (Ok T, R') ->
  StructTypes R !! s = Some si ->
  StructTypes R' !! s = Some si.
Proof.
  intros HT Hs. unfold getTypeByID in HT. cbv zeta in HT.
  apply bind_Ok in HT as (sz & R1 & Hsz & HT). injection Hsz as <- <-.
  destruct (size (TypeList R) <=? uint32 ID).
  - injection HT as _ <-. exact Hs.
  - apply bind_Ok in HT as (o & R2 & Ho & HT).
    apply bind_Ok in Ho as (l & R3 & Hl & Ho). injection Hl as <- <-.
    unfold at_, deref in Ho.
    destruct (elt (TypeList R) (uint32 ID)) as [x |]; [| discriminate].
    injection Ho as <- <-.
    destruct x as [T0 |].
    + injection HT as _ <-. exact Hs.
    + unfold StructType_create, bind, get, modify, ret in HT.
      injection HT as _ <-. cbn [StructTypes set_TypeList set_StructTypes].
      apply lookup_app_l_Some. exact Hs.
Qed.

Lemma readTypes_StructTypes (IDs : list Z) :
  forall (R R' : BitcodeReader) (Ts : list Ty) (s : nat) (si : StructInfo),
    readTypes IDs R = (Ok Ts, R') ->
    StructTypes R !! s = Some si ->
    StructTypes R' !! s = Some si.
Proof.
  induction IDs as [| ID IDs IH]; intros R R' Ts s si HR Hs.
  - injection HR as _ <-. exact Hs.
  - cbn [readTypes] in HR.
    apply bind_Ok in HR as (T & R1 & HT & HR).
    pose proof (getTypeByID_StructTypes _ _ _ _ _ _ HT Hs) as Hs1.
    destruct T as [T |].
    + apply bind_Ok in HR as (Ts' & R2 & HR2 & HR).
      injection HR as _ <-. apply (IH _ _ _ _ _ HR2 Hs1).
    + injection HR as _ <-. exact Hs1.
Qed.

(** X30: A struct that was referenced before its definition keeps its identity:
    when the slot of a STRUCT_NAMED record already holds the opaque struct
    made for the forward references, the record gives that same struct the
    pending name and the body read from the record, and the result of the
    record is that struct, not a new one. *)
Theorem STRUCT_NAMED_forward (Code IsPacked : Z) (Elems : list Z)
    (NumRecords : Z) (TypeName : Str) (R R2 : BitcodeReader) (s : nat)
    (si : StructInfo) (EltTys : list Ty) :
  bitc.TypeCodes_of Code = Some bitc.TYPE_CODE_STRUCT_NAMED ->
  elt (TypeList R) NumRecords = Some (Some (IdentifiedStructTy s)) ->
  StructTypes R !! s = Some si ->
  readTypes Elems
    (set_TypeList (vset NumRecords None (TypeList R))
       (set_StructTypes
          (<[s := mkStructInfo TypeName (StructBody si)]> (StructTypes R)) R))
    = (Ok EltTys, R2) ->
  size EltTys = size Elems ->
  ParseTypeTableBody_record Code (IsPacked :: Elems) NumRecords TypeName R
    = (Ok (inr (IdentifiedStructTy s, [])),
       set_StructTypes
         (<[s := mkStructInfo TypeName (Some (EltTys, nonzero IsPacked))]>
            (StructTypes R2)) R2).
Proof.
  intros HC He Hs HR Hsz.
  assert (Hlt : NumRecords < size (TypeList R)).
  { destruct (Z.leb_spec (size (TypeList R)) NumRecords) as [Hge |];
      [| assumption].
    rewrite elt_out in He by exact Hge. discriminate. }
  unfold ParseTypeTableBody_record. rewrite HC.
  pose proof (size_nonneg Elems) as HsE.
  assert (Hs1 : size (IsPacked :: Elems) = size Elems + 1)
    by (unfold size; cbn [length]; lia).
  destruct (Z.ltb_spec (size (IsPacked :: Elems)) 1); [lia |].
  assert (Hnamed : namedStructFor NumRecords TypeName R
            = (Ok (IdentifiedStructTy s),
               set_TypeList (vset NumRecords None (TypeList R))
                 (set_StructTypes
                    (<[s := mkStructInfo TypeName (StructBody si)]>
                       (StructTypes R)) R))).
  { unfold namedStructFor. unfold bind at 1, get.
    destruct (Z.leb_spec (size (TypeList R)) NumRecords); [lia |].
    unfold bind at 1. unfold bind at 1, get.
    rewrite (at_elt_ok _ _ _ _ He).
    unfold StructType_setName, bind, get, deref, modify, ret.
    rewrite Hs. reflexivity. }
  rewrite (bind_eq_Ok _ _ _ _ _ Hnamed). cbn [drop].
  rewrite (bind_eq_Ok _ _ _ _ _ HR).
  rewrite Hs1, Hsz.
  replace (size Elems + 1 - 1) with (size Elems) by lia.
  rewrite Z.eqb_refl. cbn [negb].
  rewrite (bind_eq_Ok _ _ _ _ _ (at_head IsPacked Elems R2)).
  assert (Hs2 : StructTypes R2 !! s
                = Some (mkStructInfo TypeName (StructBody si))).
  { apply (readTypes_StructTypes _ _ _ _ _ _ HR).
    cbn [StructTypes set_TypeList set_StructTypes].
    apply list_lookup_insert_eq. apply (lookup_lt_Some _ _ _ Hs). }
  unfold StructType_setBody, bind, get, deref, modify, ret.
  rewrite Hs2. reflexivity.
Qed.

Lemma STRUCT_NAMED_forward_witness :
  let R := set_TypeList [Some (IdentifiedStructTy 0); Some Int32Ty]
             (set_StructTypes [mkStructInfo [] None] newReader) in
  exists R',
    ParseTypeTableBody_record 20 [0; 1; 1] 0 [115] R
      = (Ok (inr (IdentifiedStructTy 0, [])), R') /\
    StructTypes R'
      = [mkStructInfo [115] (Some ([Int32Ty; Int32Ty], false))].
Proof.
  intros R. eexists. split.
  - eapply (STRUCT_NAMED_forward 20 0 [1; 1] 0 [115] R _ 0%nat
              (mkStructInfo [] None) [Int32Ty; Int32Ty]);
      [reflexivity | reflexivity | reflexivity
      | vm_compute; reflexivity | reflexivity].
  - reflexivity.
Defined.

(** ** Atomic records: every defect is rejected *)






Section AtomicDefects.
Variable H : Host.







End AtomicDefects.



Section AtomicAccepted.
Variable H : Host.







End AtomicAccepted.
























